(** * cryptpdf: the AES-256 (revision 5) security handler, embedded and verified

    The development follows the layout of the repository:
    - [crypto.ts]   block-cipher primitives over the host's padded CBC,
    - [saslprep.ts] password preparation,
    - [kdf.ts]      key derivation and recovery (algorithms 3.8, 3.9, 3.10),
    - [encrypt.ts], [decrypt.ts]  the object-graph walkers and entry points.

    Everything the repository takes from its host (the AES-256 block
    function, SHA-256, the entropy source, pdf-lib's decoding of literal
    strings) is a field of the record [Host]; what the proofs need of it is
    the record [HostLaws].  Of pdf-lib the development embeds the objects
    the walkers dispatch on, the context of a loaded document, and
    [PDFDocument.save] as far as the two entry points depend on it: when it
    throws, and what the writer changes in the objects. *)

From Stdlib Require Import String Ascii Strings.Byte.
From Stdlib Require Import List ZArith NArith Lia Bool Arith.
From AAC_tactics Require Import AAC.
Import ListNotations.

(* ################################################################# *)
(** * Bytes and [Uint8Array] *)

(** A [Uint8Array] is a list of bytes. *)
Definition bytes := list byte.

(** Storing a number in a [Uint8Array] keeps its low eight bits. *)
Definition byte_of_N (n : N) : byte :=
  match Byte.of_N (n mod 256) with
  | Some b => b
  | None => x00
  end.

(** [a[i]], with [undefined] read as [0] by the bit operators. *)
Definition at_ (a : bytes) (i : nat) : byte := nth i a x00.

(** [a ^ b] on two array elements, stored back in a [Uint8Array]. *)
Definition byte_xor (a b : byte) : byte :=
  byte_of_N (N.lxor (Byte.to_N a) (Byte.to_N b)).

(** [new Uint8Array(n)] and [new Uint8Array(n).fill(b)]. *)
Definition zeros (n : nat) : bytes := repeat x00 n.
Definition filled (n : nat) (b : byte) : bytes := repeat b n.

(** [a.subarray(i, j)] and [a.slice(i, j)]: the elements from [i] up to,
    not including, [j], clamped to the array. *)
Definition subarray (a : bytes) (i j : nat) : bytes := firstn (j - i) (skipn i a).

(* ################################################################# *)
(** * Outcomes *)

(** One constructor per [throw] of the repository and per failure of the
    host or of pdf-lib's [save] that the code lets through. *)
Inductive Error : Type :=
| NoCryptoAvailable            (* getRandomBytes: no crypto.getRandomValues *)
| NodeCryptoNotAvailable       (* getNodeCrypto: import failed *)
| NoPaddingBadLength           (* aes256Cbc{En,De}cryptNoPadding *)
| CbcBadKeyOrIv                (* aes256Cbc{En,De}crypt: key 32 bytes, IV 16 bytes *)
| CbcBadCiphertextLength       (* aes256CbcDecrypt: multiple of 16 *)
| EcbBadBlockOrKey             (* aes256Ecb{En,De}crypt: 16-byte block, 32-byte key *)
| OperationError               (* the host's padded decrypt rejects the padding *)
| TypeError                    (* a method called on an object that lacks it *)
| NotEncrypted                 (* 'PDF is not encrypted' *)
| InvalidEncryptDictionary     (* 'Invalid Encrypt dictionary' *)
| UnsupportedEncryption (r v : Z)   (* 'Unsupported encryption: R=.., V=..' *)
| InvalidEncryptFields (o u oe ue : option nat)
                               (* 'Invalid Encrypt dictionary: O=.., U=.., OE=.., UE=..' *)
| WrongPassword                (* 'Wrong password' *)
| EncryptedObjectTooShort      (* 'Encrypted object too short' *)
| UnexpectedObjectType         (* pdf-lib: a typed lookup finds another object *)
| InvalidTargetIndex           (* pdf-lib: a page inserted past the page count *)
| RangeError.                  (* the engine's call stack is exhausted *)

Inductive result (A : Type) : Type :=
| OK (a : A)
| Throw (e : Error).
Arguments OK {A} a.
Arguments Throw {A} e.

Definition bind {A B} (m : result A) (k : A -> result B) : result B :=
  match m with
  | OK a => k a
  | Throw e => Throw e
  end.

Declare Scope result_scope.
Delimit Scope result_scope with result.
Notation "x <- m ;; k" := (bind m (fun x => k))
  (at level 61, m at next level, right associativity) : result_scope.

(** Code that draws random bytes threads the position in the host's entropy
    stream. *)
Definition Rand (A : Type) : Type := nat -> result (A * nat).

Definition ret {A} (a : A) : Rand A := fun s => OK (a, s).

Definition rbind {A B} (m : Rand A) (k : A -> Rand B) : Rand B :=
  fun s => match m s with
           | OK (a, s') => k a s'
           | Throw e => Throw e
           end.

Definition lift {A} (m : result A) : Rand A :=
  fun s => match m with
           | OK a => OK (a, s)
           | Throw e => Throw e
           end.

Declare Scope rand_scope.
Delimit Scope rand_scope with rand.
Notation "x <~ m ;; k" := (rbind m (fun x => k))
  (at level 61, m at next level, right associativity) : rand_scope.

(* ################################################################# *)
(** * The host *)

(** What the repository imports and does not define: Web Crypto or Node's
    [crypto] (either may be absent), and pdf-lib's reading of a literal
    string.  [AES256 k b] is the AES-256 forward cipher function on one block
    and [AES256_inv] its inverse; [SHA256] is the digest; [entropy] is the
    stream [crypto.getRandomValues] reads from; [stack_depth] is the depth
    of recursion the engine's call stack allows pdf-lib when it walks the
    page tree. *)
Record Host : Type := {
  has_getRandomValues : bool;
  has_subtle : bool;
  has_node_crypto : bool;
  entropy : nat -> byte;
  SHA256 : bytes -> bytes;
  AES256 : bytes -> bytes -> bytes;
  AES256_inv : bytes -> bytes -> bytes;
  literal_asBytes : string -> bytes;
  stack_depth : nat
}.

Record HostLaws (h : Host) : Prop := {
  SHA256_length : forall d, length (SHA256 h d) = 32;
  AES256_length : forall k b,
      length k = 32 -> length b = 16 -> length (AES256 h k b) = 16;
  AES256_inv_length : forall k b,
      length k = 32 -> length b = 16 -> length (AES256_inv h k b) = 16;
  AES256_inv_AES256 : forall k b,
      length k = 32 -> length b = 16 -> AES256_inv h k (AES256 h k b) = b
}.

(** The host can run the code: it has an entropy source and at least one
    cipher provider. *)
Definition capable (h : Host) : bool :=
  has_getRandomValues h && (has_subtle h || has_node_crypto h).

(* ################################################################# *)
(** * crypto.ts *)

(** [xor16]: a fresh 16-byte array of [a[i] ^ b[i]]. *)
Definition xor16 (a b : bytes) : bytes :=
  map (fun i => byte_xor (at_ a i) (at_ b i)) (seq 0 16).

(** [dst.set(src, off)] for a source that fits in [dst]. *)
Definition array_set (dst src : bytes) (off : nat) : bytes :=
  firstn off dst ++ src ++ skipn (off + length src) dst.

Definition AES_BLOCK_SIZE : nat := 16.
Definition KEY_LENGTH : nat := 32.

Section Crypto.

Variable h : Host.

Local Open Scope result_scope.

(** ** The host's AES-CBC

    Web Crypto's [encrypt]/[decrypt] with [{name: 'AES-CBC', iv}] and Node's
    [createCipheriv('aes-256-cbc', ..)] are the same function: cipher block
    chaining over [AES256] with PKCS#7 padding.  Node's decipher with
    [setAutoPadding(false)] is the chaining alone. *)

Definition pkcs7_pad (data : bytes) : bytes :=
  let n := 16 - length data mod 16 in
  data ++ filled n (byte_of_N (N.of_nat n)).

Fixpoint cbc_encrypt_blocks (n : nat) (key prev data : bytes) : bytes :=
  match n with
  | 0 => []
  | S n' =>
      let c := AES256 h key (xor16 prev (firstn 16 data)) in
      c ++ cbc_encrypt_blocks n' key c (skipn 16 data)
  end.

Fixpoint cbc_decrypt_blocks (n : nat) (key prev data : bytes) : bytes :=
  match n with
  | 0 => []
  | S n' =>
      let c := firstn 16 data in
      xor16 prev (AES256_inv h key c) ++ cbc_decrypt_blocks n' key c (skipn 16 data)
  end.

Definition pkcs7_unpad (p : bytes) : result bytes :=
  let b := last p x00 in
  let n := N.to_nat (Byte.to_N b) in
  if (1 <=? n) && (n <=? 16) && (n <=? length p)
     && forallb (Byte.eqb b) (skipn (length p - n) p)
  then OK (firstn (length p - n) p)
  else Throw OperationError.

Definition host_cbc_encrypt (key iv plaintext : bytes) : bytes :=
  let p := pkcs7_pad plaintext in
  cbc_encrypt_blocks (length p / 16) key iv p.

Definition host_cbc_decrypt_nopad (key iv ciphertext : bytes) : bytes :=
  cbc_decrypt_blocks (length ciphertext / 16) key iv ciphertext.

Definition host_cbc_decrypt (key iv ciphertext : bytes) : result bytes :=
  if length ciphertext mod 16 =? 0
  then pkcs7_unpad (host_cbc_decrypt_nopad key iv ciphertext)
  else Throw OperationError.

(** ** The exported functions *)

Definition getNodeCrypto : result unit :=
  if has_node_crypto h then OK tt else Throw NodeCryptoNotAvailable.

Definition getRandomBytes (length : nat) : Rand bytes :=
  fun s =>
    if has_getRandomValues h
    then OK (map (entropy h) (seq s length), s + length)
    else Throw NoCryptoAvailable.

Definition sha256 (data : bytes) : result bytes :=
  if has_subtle h then OK (SHA256 h data)
  else _ <- getNodeCrypto ;; OK (SHA256 h data).

Definition aes256CbcEncrypt (key iv plaintext : bytes) : result bytes :=
  if negb (length key =? KEY_LENGTH) || negb (length iv =? AES_BLOCK_SIZE)
  then Throw CbcBadKeyOrIv
  else if has_subtle h then OK (host_cbc_encrypt key iv plaintext)
  else _ <- getNodeCrypto ;; OK (host_cbc_encrypt key iv plaintext).

Definition aes256CbcDecrypt (key iv ciphertext : bytes) : result bytes :=
  if negb (length key =? KEY_LENGTH) || negb (length iv =? AES_BLOCK_SIZE)
  then Throw CbcBadKeyOrIv
  else if negb (length ciphertext mod AES_BLOCK_SIZE =? 0)
  then Throw CbcBadCiphertextLength
  else if has_subtle h then host_cbc_decrypt key iv ciphertext
  else _ <- getNodeCrypto ;; host_cbc_decrypt key iv ciphertext.

Definition aes256EcbEncrypt (key block : bytes) : result bytes :=
  if negb (length block =? AES_BLOCK_SIZE) || negb (length key =? KEY_LENGTH)
  then Throw EcbBadBlockOrKey
  else if has_subtle h
  then OK (subarray (host_cbc_encrypt key (zeros 16) block) 0 AES_BLOCK_SIZE)
  else _ <- getNodeCrypto ;;
       OK (subarray (host_cbc_encrypt key (zeros 16) block) 0 AES_BLOCK_SIZE).

Definition aes256EcbDecrypt (key block : bytes) : result bytes :=
  if negb (length block =? AES_BLOCK_SIZE) || negb (length key =? KEY_LENGTH)
  then Throw EcbBadBlockOrKey
  else if has_subtle h
  then
    let FULL_PAD := filled 16 x10 in
    let c2Input := xor16 FULL_PAD block in
    c2 <- aes256EcbEncrypt key c2Input ;;
    let twoBlocks := array_set (array_set (zeros 32) block 0) c2 16 in
    host_cbc_decrypt key (zeros 16) twoBlocks
  else _ <- getNodeCrypto ;; OK (host_cbc_decrypt_nopad key (zeros 16) block).

(** The loop of [aes256CbcEncryptNoPadding]: [n] blocks are left, the next
    one starts at index [i]. *)
Fixpoint encryptNoPadding_loop (n : nat) (key prev plaintext : bytes) (i : nat)
  : result bytes :=
  match n with
  | 0 => OK []
  | S n' =>
      let block := xor16 prev (subarray plaintext i (i + AES_BLOCK_SIZE)) in
      enc <- aes256EcbEncrypt key block ;;
      rest <- encryptNoPadding_loop n' key enc plaintext (i + AES_BLOCK_SIZE) ;;
      OK (enc ++ rest)
  end.

Definition aes256CbcEncryptNoPadding (key iv plaintext : bytes) : result bytes :=
  if negb (length plaintext mod AES_BLOCK_SIZE =? 0)
     || negb (length iv =? AES_BLOCK_SIZE)
  then Throw NoPaddingBadLength
  else encryptNoPadding_loop (length plaintext / AES_BLOCK_SIZE) key iv plaintext 0.

Fixpoint decryptNoPadding_loop (n : nat) (key prev ciphertext : bytes) (i : nat)
  : result bytes :=
  match n with
  | 0 => OK []
  | S n' =>
      let enc := subarray ciphertext i (i + AES_BLOCK_SIZE) in
      dec <- aes256EcbDecrypt key enc ;;
      rest <- decryptNoPadding_loop n' key enc ciphertext (i + AES_BLOCK_SIZE) ;;
      OK (xor16 prev dec ++ rest)
  end.

Definition aes256CbcDecryptNoPadding (key iv ciphertext : bytes) : result bytes :=
  if negb (length ciphertext mod AES_BLOCK_SIZE =? 0)
     || negb (length iv =? AES_BLOCK_SIZE)
  then Throw NoPaddingBadLength
  else decryptNoPadding_loop (length ciphertext / AES_BLOCK_SIZE) key iv ciphertext 0.

End Crypto.

(* ################################################################# *)
(** * saslprep.ts *)

(** A JavaScript string is a sequence of UTF-16 code units, each held as its
    high and its low byte. *)
Definition jsstring := list (byte * byte).

Definition code_unit (u : byte * byte) : N :=
  (256 * Byte.to_N (fst u) + Byte.to_N (snd u))%N.

(** A string of characters below U+0100, as the JavaScript string of the same
    characters. *)
Fixpoint js (s : string) : jsstring :=
  match s with
  | EmptyString => []
  | String c s' => (x00, byte_of_ascii c) :: js s'
  end.

(** The UTF-8 bytes of a code point. *)
Definition utf8_of_code_point (c : N) : bytes :=
  if (c <? 128)%N then [byte_of_N c]
  else if (c <? 2048)%N
  then [byte_of_N (N.lor 192 (N.shiftr c 6)); byte_of_N (N.lor 128 (N.land c 63))]
  else if (c <? 65536)%N
  then [byte_of_N (N.lor 224 (N.shiftr c 12));
        byte_of_N (N.lor 128 (N.land (N.shiftr c 6) 63));
        byte_of_N (N.lor 128 (N.land c 63))]
  else [byte_of_N (N.lor 240 (N.shiftr c 18));
        byte_of_N (N.lor 128 (N.land (N.shiftr c 12) 63));
        byte_of_N (N.lor 128 (N.land (N.shiftr c 6) 63));
        byte_of_N (N.lor 128 (N.land c 63))].

Definition is_lead (c : N) : bool := (55296 <=? c)%N && (c <? 56320)%N.
Definition is_trail (c : N) : bool := (56320 <=? c)%N && (c <? 57344)%N.

(** [new TextEncoder().encode(s)]: a surrogate pair is one code point, a
    surrogate without its partner is written as U+FFFD. *)
Fixpoint TextEncoder_encode (s : jsstring) : bytes :=
  match s with
  | [] => []
  | u :: rest =>
      let c := code_unit u in
      if is_lead c
      then match rest with
           | v :: rest' =>
               let d := code_unit v in
               if is_trail d
               then utf8_of_code_point (65536 + 1024 * (c - 55296) + (d - 56320))%N
                    ++ TextEncoder_encode rest'
               else utf8_of_code_point 65533 ++ TextEncoder_encode rest
           | [] => utf8_of_code_point 65533
           end
      else if is_trail c then utf8_of_code_point 65533 ++ TextEncoder_encode rest
      else utf8_of_code_point c ++ TextEncoder_encode rest
  end.

Definition MAX_PASSWORD_UTF8_BYTES : nat := 127.

Definition preparePassword (password : jsstring) : bytes :=
  let encoded := TextEncoder_encode password in
  if MAX_PASSWORD_UTF8_BYTES <? length encoded
  then subarray encoded 0 MAX_PASSWORD_UTF8_BYTES
  else encoded.

(* ################################################################# *)
(** * kdf.ts *)

Definition ZERO_IV : bytes := zeros 16.

Definition concat (arr : list bytes) : bytes := List.concat arr.

Record Rev5Keys : Type := {
  fileEncryptionKey : bytes;
  O : bytes;
  U : bytes;
  OE : bytes;
  UE : bytes;
  Perms : bytes
}.

Record Rev5EncryptParams : Type := {
  userPassword : jsstring;
  ownerPassword : jsstring;
  permissions : Z;
  encryptMetadata : bool
}.

(** JavaScript's 32-bit conversions of an integral number. *)
Definition ToUint32 (x : Z) : Z := x mod 2 ^ 32.
Definition ToInt32 (x : Z) : Z := (x + 2 ^ 31) mod 2 ^ 32 - 2 ^ 31.

(** [x >>> 0], [x & y] and [x >> n] on integral numbers. *)
Definition js_ushr0 (x : Z) : Z := ToUint32 x.
Definition js_and (x y : Z) : Z := ToInt32 (Z.land (ToInt32 x) (ToInt32 y)).
Definition js_sar (x : Z) (n : Z) : Z := ToInt32 (Z.shiftr (ToInt32 x) n).

(** Storing a number in a [Uint8Array]. *)
Definition byte_of_Z (x : Z) : byte := byte_of_N (Z.to_N (x mod 256)).

(** [s || t] on strings: the empty string is falsy. *)
Definition js_or (s t : jsstring) : jsstring :=
  match s with
  | [] => t
  | _ => s
  end.

Definition compareBytes (a b : bytes) : Z :=
  if negb (length a =? length b) then 1%Z
  else if forallb (fun i => Byte.eqb (at_ a i) (at_ b i)) (seq 0 (length a))
       then 0%Z else 1%Z.

Section Kdf.

Variable h : Host.

(** The sixteen bytes of the permissions block before the random tail is
    written: the array starts as zeros and bytes 0 to 11 are assigned. *)
Definition permsBlock_head (permissions : Z) (encryptMetadata : bool) : bytes :=
  let p := js_and (js_ushr0 permissions) 4294967295 in
  [ byte_of_Z (js_and p 255);
    byte_of_Z (js_and (js_sar p 8) 255);
    byte_of_Z (js_and (js_sar p 16) 255);
    byte_of_Z (js_and (js_sar p 24) 255);
    xff; xff; xff; xff;
    (if encryptMetadata then x54 else x46);
    x61; x64; x62;
    x00; x00; x00; x00 ].

Local Open Scope rand_scope.

Definition computeRev5Keys (params : Rev5EncryptParams) : Rand Rev5Keys :=
  let userPwd := preparePassword (userPassword params) in
  let ownerPwd := preparePassword (js_or (ownerPassword params) (userPassword params)) in
  fileEncryptionKey <~ getRandomBytes h 32 ;;
  (* Algorithm 3.8: U and UE *)
  userValSalt <~ getRandomBytes h 8 ;;
  userKeySalt <~ getRandomBytes h 8 ;;
  uHash <~ lift (sha256 h (concat [userPwd; userValSalt])) ;;
  let U := concat [uHash; userValSalt; userKeySalt] in
  ueKey <~ lift (sha256 h (concat [userPwd; userKeySalt])) ;;
  UE <~ lift (aes256CbcEncryptNoPadding h ueKey ZERO_IV fileEncryptionKey) ;;
  (* Algorithm 3.9: O and OE (owner hash includes U) *)
  ownerValSalt <~ getRandomBytes h 8 ;;
  ownerKeySalt <~ getRandomBytes h 8 ;;
  oHash <~ lift (sha256 h (concat [ownerPwd; ownerValSalt; U])) ;;
  let O := concat [oHash; ownerValSalt; ownerKeySalt] in
  oeKey <~ lift (sha256 h (concat [ownerPwd; ownerKeySalt; U])) ;;
  OE <~ lift (aes256CbcEncryptNoPadding h oeKey ZERO_IV fileEncryptionKey) ;;
  (* Algorithm 3.10: Perms *)
  rnd <~ getRandomBytes h 4 ;;
  let permsBlock :=
    array_set (permsBlock_head (permissions params) (encryptMetadata params)) rnd 12 in
  Perms <~ lift (aes256EcbEncrypt h fileEncryptionKey permsBlock) ;;
  ret {| fileEncryptionKey := fileEncryptionKey;
         O := O; U := U; OE := OE; UE := UE; Perms := Perms |}.

Local Open Scope result_scope.

(** A [try] block that returns the key when its length is 32 and whose
    [catch] is empty: a throw inside it and a key of another length both fall
    through to the code after it. *)
Definition try_key (body : result bytes) : option bytes :=
  match body with
  | OK key => if length key =? 32 then Some key else None
  | Throw _ => None
  end.

Definition deriveFileKeyFromPassword (password : jsstring) (U O OE UE : bytes)
  : result (option bytes) :=
  let pwd := preparePassword password in
  (* Try user password: SHA-256(pwd || U[32:40]) should match U[0:32] *)
  let userValSalt := subarray U 32 40 in
  let userKeySalt := subarray U 40 48 in
  uCheck <- sha256 h (concat [pwd; userValSalt]) ;;
  match (if (compareBytes uCheck (subarray U 0 32) =? 0)%Z
         then try_key (ueKey <- sha256 h (concat [pwd; userKeySalt]) ;;
                       aes256CbcDecryptNoPadding h ueKey ZERO_IV UE)
         else None) with
  | Some key => OK (Some key)
  | None =>
      (* Try owner password: SHA-256(pwd || O[32:40] || U) should match O[0:32] *)
      let ownerValSalt := subarray O 32 40 in
      let ownerKeySalt := subarray O 40 48 in
      oCheck <- sha256 h (concat [pwd; ownerValSalt; U]) ;;
      match (if (compareBytes oCheck (subarray O 0 32) =? 0)%Z
             then try_key (oeKey <- sha256 h (concat [pwd; ownerKeySalt; U]) ;;
                           aes256CbcDecryptNoPadding h oeKey ZERO_IV OE)
             else None) with
      | Some key => OK (Some key)
      | None => OK None
      end
  end.

End Kdf.

(* ################################################################# *)
(** * The object model (pdf-lib) *)

(** The part of pdf-lib's object model that the walkers dispatch on.  A name
    is held without its leading slash; a literal string holds its source text
    and a hex string its digits, as pdf-lib keeps them; a raw stream has its
    dictionary and its contents.  A [PDFDict] is a [Map] from names, here the
    list of its entries in iteration order. *)
Local Unset Elimination Schemes.

Inductive PDFObject : Type :=
| PDFNull
| PDFBool (b : bool)
| PDFNumber (n : Z)
| PDFName (name : string)
| PDFString (value : string)
| PDFHexString (value : string)
| PDFRef (objectNumber generationNumber : nat)
| PDFArray (array : list PDFObject)
| PDFDict (dict : list (string * PDFObject))
| PDFRawStream (dict : list (string * PDFObject)) (contents : bytes).

Local Set Elimination Schemes.

Definition PDFEntries := list (string * PDFObject).

(** Induction on an object reaches the elements of an array and the values of
    a dictionary. *)
Section PDFObject_nested_induction.

Variable P : PDFObject -> Prop.
Hypothesis P_null : P PDFNull.
Hypothesis P_bool : forall b, P (PDFBool b).
Hypothesis P_number : forall n, P (PDFNumber n).
Hypothesis P_name : forall n, P (PDFName n).
Hypothesis P_string : forall v, P (PDFString v).
Hypothesis P_hex : forall v, P (PDFHexString v).
Hypothesis P_ref : forall n g, P (PDFRef n g).
Hypothesis P_array : forall a, Forall P a -> P (PDFArray a).
Hypothesis P_dict : forall d, Forall (fun e => P (snd e)) d -> P (PDFDict d).
Hypothesis P_stream :
  forall d c, Forall (fun e => P (snd e)) d -> P (PDFRawStream d c).

Fixpoint PDFObject_nested_ind (o : PDFObject) : P o :=
  match o with
  | PDFNull => P_null
  | PDFBool b => P_bool b
  | PDFNumber n => P_number n
  | PDFName n => P_name n
  | PDFString v => P_string v
  | PDFHexString v => P_hex v
  | PDFRef n g => P_ref n g
  | PDFArray a =>
      P_array a ((fix all (l : list PDFObject) : Forall P l :=
                  match l with
                  | [] => Forall_nil _
                  | x :: l' => Forall_cons x (PDFObject_nested_ind x) (all l')
                  end) a)
  | PDFDict d =>
      P_dict d ((fix all (l : PDFEntries) : Forall (fun e => P (snd e)) l :=
                 match l with
                 | [] => Forall_nil _
                 | e :: l' => Forall_cons e (PDFObject_nested_ind (snd e)) (all l')
                 end) d)
  | PDFRawStream d c =>
      P_stream d c ((fix all (l : PDFEntries) : Forall (fun e => P (snd e)) l :=
                     match l with
                     | [] => Forall_nil _
                     | e :: l' => Forall_cons e (PDFObject_nested_ind (snd e)) (all l')
                     end) d)
  end.

End PDFObject_nested_induction.

(** [PDFName.asString()]: the name with its slash.  Literal and hex strings
    answer [asString()] with their text; no other object has the method. *)
Definition asString (o : PDFObject) : option string :=
  match o with
  | PDFName n => Some (String "/" n)
  | PDFString v => Some v
  | PDFHexString v => Some v
  | _ => None
  end.

(** [dict.get(PDFName.of(key))]: the entry, with [PDFNull] read as absent. *)
Fixpoint dict_get (d : PDFEntries) (key : string) : option PDFObject :=
  match d with
  | [] => None
  | (k, v) :: d' =>
      if String.eqb k key
      then match v with PDFNull => None | _ => Some v end
      else dict_get d' key
  end.

(** *** Hex strings *)

Definition hexDigit (n : N) : ascii :=
  match n with
  | 0 => "0" | 1 => "1" | 2 => "2" | 3 => "3" | 4 => "4" | 5 => "5" | 6 => "6"
  | 7 => "7" | 8 => "8" | 9 => "9" | 10 => "a" | 11 => "b" | 12 => "c"
  | 13 => "d" | 14 => "e" | _ => "f"
  end%N%char.

(** [b.toString(16).padStart(2, '0')] *)
Definition byteToHex (b : byte) : string :=
  let n := Byte.to_N b in
  String (hexDigit (n / 16)) (String (hexDigit (n mod 16)) EmptyString).

(** [bytesToHex] of encrypt.ts and decrypt.ts. *)
Fixpoint bytesToHex (bs : bytes) : string :=
  match bs with
  | [] => EmptyString
  | b :: bs' => (byteToHex b ++ bytesToHex bs')%string
  end.

Definition hexValue (c : ascii) : option N :=
  let n := N_of_ascii c in
  if (48 <=? n)%N && (n <=? 57)%N then Some (n - 48)%N
  else if (97 <=? n)%N && (n <=? 102)%N then Some (n - 87)%N
  else if (65 <=? n)%N && (n <=? 70)%N then Some (n - 55)%N
  else None.

(** The white space and line terminators [parseInt] skips, below U+0100:
    TAB, LF, VT, FF, CR, SP and NBSP. *)
Definition isWhiteSpace (c : ascii) : bool :=
  let n := N_of_ascii c in
  ((9 <=? n) && (n <=? 13) || (n =? 32) || (n =? 160))%N.

Fixpoint trimStart (s : string) : string :=
  match s with
  | String c s' => if isWhiteSpace c then trimStart s' else s
  | EmptyString => s
  end.

(** The number the longest prefix of hex digits denotes; [acc] is the number
    read so far, [None] while no digit has been read. *)
Fixpoint hexDigits (s : string) (acc : option Z) : option Z :=
  match s with
  | String c s' =>
      match hexValue c with
      | Some d =>
          hexDigits s'
            (Some (16 * match acc with Some a => a | None => 0 end + Z.of_N d)%Z)
      | None => acc
      end
  | EmptyString => acc
  end.

(** [parseInt(string, 16)], [None] for [NaN]: leading white space is
    skipped, then a sign, then a prefix [0x] or [0X]; the digits that follow
    are read up to the first character that is none.  The number is exact as
    long as it is below 2^53, which a slice of two characters never
    reaches. *)
Definition parseInt16 (string : string) : option Z :=
  let S0 := trimStart string in
  let sign := match S0 with
              | String c _ => if Ascii.eqb c "-" then (-1)%Z else 1%Z
              | EmptyString => 1%Z
              end in
  let S1 := match S0 with
            | String c r => if Ascii.eqb c "-" || Ascii.eqb c "+" then r else S0
            | EmptyString => S0
            end in
  let S2 := match S1 with
            | String c (String x r) =>
                if Ascii.eqb c "0" && (Ascii.eqb x "x" || Ascii.eqb x "X")
                then r else S1
            | _ => S1
            end in
  option_map (Z.mul sign) (hexDigits S2 None).

(** [out[i] = x] on a [Uint8Array]: [NaN] is stored as [0], an integer by
    its low eight bits. *)
Definition store_uint8 (x : option Z) : byte :=
  match x with
  | Some n => byte_of_Z n
  | None => x00
  end.

(** [bytes[i] = parseInt(hex.substring(o, o + 2), 16)], the body of the loop
    of [PDFHexString.asBytes()]. *)
Definition parseHexPair (c1 c2 : ascii) : byte :=
  store_uint8 (parseInt16 (String c1 (String c2 EmptyString))).

(** [PDFHexString.asBytes()]: an odd number of digits is completed by ['0']. *)
Fixpoint hex_asBytes (value : string) : bytes :=
  match value with
  | EmptyString => []
  | String c1 EmptyString => [parseHexPair c1 "0"]
  | String c1 (String c2 rest) => parseHexPair c1 c2 :: hex_asBytes rest
  end.

(** [PDFHexString.of], which the source reaches through a cast. *)
Definition PDFHexStringOf (s : string) : PDFObject := PDFHexString s.

(** *** The context of a loaded document *)

(** [indirectObjects] is kept in the order [enumerateIndirectObjects()]
    yields, ascending object number; [register] numbers the new object
    [largestObjectNumber + 1], so it comes last.  Of the trailer the two
    entries the source reads or writes are kept, and [Root], from which
    [pdfDoc.save] finds the catalog. *)
Record PDFContext : Type := {
  indirectObjects : list ((nat * nat) * PDFObject);
  largestObjectNumber : nat;
  trailer_ID : option PDFObject;
  trailer_Encrypt : option PDFObject;
  trailer_Root : option PDFObject
}.

Definition enumerateIndirectObjects (c : PDFContext) := indirectObjects c.

Definition ref_eqb (r1 r2 : nat * nat) : bool :=
  (fst r1 =? fst r2) && (snd r1 =? snd r2).

Fixpoint indirect_get (objs : list ((nat * nat) * PDFObject)) (r : nat * nat)
  : option PDFObject :=
  match objs with
  | [] => None
  | (r', o) :: objs' => if ref_eqb r' r then Some o else indirect_get objs' r
  end.

(** [context.lookup(ref)]: an indirect reference is followed once, any other
    object is returned as it is. *)
Definition context_lookup (c : PDFContext) (o : PDFObject) : option PDFObject :=
  match o with
  | PDFRef n g => indirect_get (indirectObjects c) (n, g)
  | _ => Some o
  end.

(** [dict.lookup(key)]: [get], then [context.lookup], [PDFNull] read as
    absent. *)
Definition dict_lookup (c : PDFContext) (d : PDFEntries) (key : string)
  : option PDFObject :=
  match dict_get d key with
  | None => None
  | Some v =>
      match context_lookup c v with
      | Some PDFNull => None
      | r => r
      end
  end.

(** [context.register(obj)] *)
Definition register (c : PDFContext) (o : PDFObject) : PDFContext * PDFObject :=
  let n := S (largestObjectNumber c) in
  ({| indirectObjects := indirectObjects c ++ [((n, 0), o)];
      largestObjectNumber := n;
      trailer_ID := trailer_ID c;
      trailer_Encrypt := trailer_Encrypt c;
      trailer_Root := trailer_Root c |},
   PDFRef n 0).

(** *** [pdfDoc.save]

    Both entry points end with [pdfDoc.save({ useObjectStreams: false })].
    Before it writes, [save] counts the pages, and gives a document that has
    none a default page; the writer then sets the [Length] of every stream
    to the length of its contents.  Counting the pages is where [save]
    throws on a document whose catalog or page tree is missing. *)

(** [dict.set(PDFName.of(key), value)]: the value of an entry the dictionary
    has is replaced where it stands, a new entry comes last. *)
Fixpoint dict_set (d : PDFEntries) (key : string) (value : PDFObject) : PDFEntries :=
  match d with
  | [] => [(key, value)]
  | (k, v) :: d' =>
      if String.eqb k key then (k, value) :: d'
      else (k, v) :: dict_set d' key value
  end.

(** The class the parser gives a dictionary, by the name under [Type]; the
    walkers of this repository never change a name. *)
Inductive DictClass : Type :=
| PDFCatalog
| PDFPageTree
| PDFPageLeaf
| PlainDict.

Definition class_of (d : PDFEntries) : DictClass :=
  match dict_get d "Type" with
  | Some (PDFName n) =>
      if String.eqb n "Catalog" then PDFCatalog
      else if String.eqb n "Pages" then PDFPageTree
      else if String.eqb n "Page" then PDFPageLeaf
      else PlainDict
  | _ => PlainDict
  end.

Section Save.

Variable h : Host.

Local Open Scope result_scope.

(** [this.catalog.Pages()], and the test that the dictionary found is a page
    tree, which calling [traverse] or [insertLeafNode] on it amounts to.
    The catalog is what [Root] leads to; a call on a catalog that is missing
    or of another class is a [TypeError]. *)
Definition Pages (c : PDFContext) : result PDFEntries :=
  match trailer_Root c with
  | None => Throw TypeError
  | Some root =>
      match context_lookup c root with
      | Some (PDFDict catalog) =>
          match class_of catalog with
          | PDFCatalog =>
              match dict_lookup c catalog "Pages" with
              | Some (PDFDict pages) =>
                  match class_of pages with
                  | PDFPageTree => OK pages
                  | _ => Throw TypeError
                  end
              | _ => Throw UnexpectedObjectType
              end
          | _ => Throw TypeError
          end
      | _ => Throw TypeError
      end
  end.

(** [tree.traverse(visitor)] with the visitor of [getPages], which makes a
    page of every leaf it is shown and asserts that the kid is a reference:
    the number of pages.  A kid that is no tree and no leaf is passed over.
    [fuel] is the depth of recursion left. *)
Fixpoint traverse (fuel : nat) (c : PDFContext) (tree : PDFEntries) : result nat :=
  match fuel with
  | 0 => Throw RangeError
  | S fuel' =>
      match dict_lookup c tree "Kids" with
      | Some (PDFArray Kids) =>
          (fix loop (kids : list PDFObject) : result nat :=
             match kids with
             | [] => OK 0
             | kidRef :: rest =>
                 n <- match context_lookup c kidRef with
                      | Some (PDFDict kid) =>
                          match class_of kid with
                          | PDFPageTree => traverse fuel' c kid
                          | PDFPageLeaf =>
                              match kidRef with
                              | PDFRef _ _ => OK 1
                              | _ => Throw TypeError
                              end
                          | _ => OK 0
                          end
                      | _ => OK 0
                      end ;;
                 m <- loop rest ;;
                 OK (n + m)
             end) Kids
      | _ => Throw UnexpectedObjectType
      end
  end.

(** [pdfDoc.getPageCount()] *)
Definition getPageCount (c : PDFContext) : result nat :=
  pages <- Pages c ;;
  traverse (stack_depth h) c pages.

(** [node.ascend(visitor)] with the visitor of [insertLeafKid], which reads
    the [Count] of the node and of each of its ancestors. *)
Fixpoint ascend (fuel : nat) (c : PDFContext) (node : PDFEntries) : result unit :=
  match fuel with
  | 0 => Throw RangeError
  | S fuel' =>
      match dict_lookup c node "Count" with
      | Some (PDFNumber _) =>
          match dict_get node "Parent" with
          | None => OK tt
          | Some p =>
              match context_lookup c p with
              | None => OK tt
              | Some (PDFDict Parent) =>
                  match class_of Parent with
                  | PDFPageTree => ascend fuel' c Parent
                  | _ => Throw TypeError
                  end
              | Some _ => Throw TypeError
              end
          end
      | _ => Throw UnexpectedObjectType
      end
  end.

(** [pdfDoc.addPage()] on a document without pages: whether
    [insertLeafNode(ref, 0)] on the root of the page tree throws. *)
Definition addPage (c : PDFContext) (pages : PDFEntries) : result unit :=
  match dict_lookup c pages "Count" with
  | Some (PDFNumber Count) =>
      if (Count <? 0)%Z then Throw InvalidTargetIndex
      else ascend (stack_depth h) c pages
  | _ => Throw UnexpectedObjectType
  end.

(** [stream.updateDict()], which the writer calls on every stream. *)
Definition updateDict (obj : PDFObject) : PDFObject :=
  match obj with
  | PDFRawStream d contents =>
      PDFRawStream (dict_set d "Length" (PDFNumber (Z.of_nat (length contents))))
                   contents
  | _ => obj
  end.

Definition updateDicts (c : PDFContext) : PDFContext :=
  {| indirectObjects := map (fun e => (fst e, updateDict (snd e))) (indirectObjects c);
     largestObjectNumber := largestObjectNumber c;
     trailer_ID := trailer_ID c;
     trailer_Encrypt := trailer_Encrypt c;
     trailer_Root := trailer_Root c |}.

(** [pdfDoc.save({ useObjectStreams: false })]: the context as the writer
    serializes it, streams being indirect objects.  The page that [addPage]
    gives a document without pages, and the [Kids] and [Count] it changes,
    are not part of this value: for such a document it holds the objects
    the caller of [save] made, not the default page. *)
Definition save (c : PDFContext) : result PDFContext :=
  pages <- Pages c ;;
  count <- traverse (stack_depth h) c pages ;;
  _ <- (if count =? 0 then addPage c pages else OK tt) ;;
  OK (updateDicts c).

End Save.

(* ################################################################# *)
(** * encrypt.ts *)

Definition IV_LEN : nat := 16.

(** The names the walkers of both files leave alone. *)
Definition reserved (n : string) : bool :=
  String.eqb n "/Length" || String.eqb n "/Filter" || String.eqb n "/DecodeParms".

(** [key.asString()] of a dictionary key. *)
Definition key_asString (key : string) : string := String "/" key.

(** The test both entry points make on an indirect object before they touch
    it: a [PDFDict] whose [Filter] is ['/Standard'] is skipped. *)
Definition isStandardFilter (obj : PDFObject) : result bool :=
  match obj with
  | PDFDict d =>
      match dict_get d "Filter" with
      | None => OK false
      | Some filter =>
          match asString filter with
          | Some s => OK (String.eqb s "/Standard")
          | None => Throw TypeError
          end
      end
  | _ => OK false
  end.

Section Encrypt.

Variable h : Host.

Local Open Scope rand_scope.

Definition encryptObject (data fileKey : bytes) : Rand bytes :=
  iv <~ getRandomBytes h IV_LEN ;;
  ciphertext <~ lift (aes256CbcEncrypt h fileKey iv data) ;;
  let out := zeros (length iv + length ciphertext) in
  ret (array_set (array_set out iv 0) ciphertext (length iv)).

Section Walk.

Variable enc : bytes -> Rand bytes.

(** The two walkers take the object the caller has tested with [instanceof];
    on any other object they have nothing to visit.  They iterate over
    [dict.entries()], a snapshot, and [dict.set(key, ..)] on the key being
    visited replaces its value where it stands (the keys of a [Map] are
    unique): the loop maps over the entries. *)
Fixpoint encryptStringsInDict (dict : PDFObject) : Rand PDFObject :=
  match dict with
  | PDFDict entries =>
      entries' <~
        (fix loop (es : PDFEntries) : Rand PDFEntries :=
           match es with
           | [] => ret []
           | (key, value) :: rest =>
               value' <~
                 (if reserved (key_asString key) then ret value
                  else match value with
                       | PDFString v =>
                           encrypted <~ enc (literal_asBytes h v) ;;
                           ret (PDFHexStringOf (bytesToHex encrypted))
                       | PDFHexString v =>
                           encrypted <~ enc (hex_asBytes v) ;;
                           ret (PDFHexStringOf (bytesToHex encrypted))
                       | PDFDict _ => encryptStringsInDict value
                       | PDFArray _ => encryptStringsInArray value
                       | _ => ret value
                       end) ;;
               rest' <~ loop rest ;;
               ret ((key, value') :: rest')
           end) entries ;;
      ret (PDFDict entries')
  | _ => ret dict
  end
with encryptStringsInArray (arr : PDFObject) : Rand PDFObject :=
  match arr with
  | PDFArray elems =>
      elems' <~
        (fix loop (els : list PDFObject) : Rand (list PDFObject) :=
           match els with
           | [] => ret []
           | el :: rest =>
               el' <~
                 match el with
                 | PDFDict _ => encryptStringsInDict el
                 | PDFArray _ => encryptStringsInArray el
                 | _ => ret el
                 end ;;
               rest' <~ loop rest ;;
               ret (el' :: rest')
           end) elems ;;
      ret (PDFArray elems')
  | _ => ret arr
  end.

(** The body of the loop over the indirect objects. *)
Definition encryptIndirect (obj : PDFObject) : Rand PDFObject :=
  skip <~ lift (isStandardFilter obj) ;;
  if (skip : bool) then ret obj
  else
    obj1 <~
      match obj with
      | PDFRawStream d streamData =>
          encrypted <~ enc streamData ;;
          ret (PDFRawStream d encrypted)
      | _ => ret obj
      end ;;
    match obj1 with
    | PDFDict _ => encryptStringsInDict obj1
    | PDFArray _ => encryptStringsInArray obj1
    | _ => ret obj1
    end.

Fixpoint encryptIndirectObjects (objs : list ((nat * nat) * PDFObject))
  : Rand (list ((nat * nat) * PDFObject)) :=
  match objs with
  | [] => ret []
  | (ref, obj) :: rest =>
      obj' <~ encryptIndirect obj ;;
      rest' <~ encryptIndirectObjects rest ;;
      ret ((ref, obj') :: rest')
  end.

End Walk.

Record EncryptOptions : Type := {
  opt_permissions : option Z;
  opt_encryptMetadata : option bool
}.

Definition no_options : EncryptOptions :=
  {| opt_permissions := None; opt_encryptMetadata := None |}.

(** The crypt filter and the Encrypt dictionary, entries in the order they
    are set. *)
Local Open Scope string_scope.

Definition stdCFDict : PDFObject :=
  PDFDict [ ("Type", PDFName "CryptFilter");
            ("CFM", PDFName "AESV3");
            ("Length", PDFNumber 32) ].

Definition cfDict : PDFObject := PDFDict [ ("StdCF", stdCFDict) ].

Definition encryptDict (permissions : Z) (encryptMetadata : bool) (keys : Rev5Keys)
  : PDFObject :=
  PDFDict [ ("Filter", PDFName "Standard");
            ("V", PDFNumber 5);
            ("R", PDFNumber 5);
            ("Length", PDFNumber 256);
            ("P", PDFNumber permissions);
            ("O", PDFHexStringOf (bytesToHex (O keys)));
            ("U", PDFHexStringOf (bytesToHex (U keys)));
            ("OE", PDFHexStringOf (bytesToHex (OE keys)));
            ("UE", PDFHexStringOf (bytesToHex (UE keys)));
            ("Perms", PDFHexStringOf (bytesToHex (Perms keys)));
            ("EncryptMetadata", PDFBool encryptMetadata);
            ("CF", cfDict);
            ("StmF", PDFName "StdCF");
            ("StrF", PDFName "StdCF") ].

Local Close Scope string_scope.

(** [encryptPDF], from the context [PDFDocument.load] yields to the context
    [pdfDoc.save] writes, which is the document in the bytes returned (for a
    document without pages, short of the default page: see [save]). *)
Definition encryptPDF (context : PDFContext) (userPassword : jsstring)
  (ownerPassword : option jsstring) (options : EncryptOptions) : Rand PDFContext :=
  let permissions :=
    match opt_permissions options with Some p => p | None => (-4)%Z end in
  let encryptMetadata :=
    match opt_encryptMetadata options with Some false => false | _ => true end in
  ID <~
    match trailer_ID context with
    | Some id => ret (Some id)
    | None =>
        fileId <~ getRandomBytes h 16 ;;
        ret (Some (PDFArray [ PDFHexStringOf (bytesToHex fileId);
                              PDFHexStringOf (bytesToHex fileId) ]))
    end ;;
  keys <~ computeRev5Keys h
    {| userPassword := userPassword;
       ownerPassword := match ownerPassword with Some o => o | None => userPassword end;
       permissions := permissions;
       encryptMetadata := encryptMetadata |} ;;
  let enc := fun data => encryptObject data (fileEncryptionKey keys) in
  objs <~ encryptIndirectObjects enc (enumerateIndirectObjects context) ;;
  let context1 :=
    {| indirectObjects := objs;
       largestObjectNumber := largestObjectNumber context;
       trailer_ID := ID;
       trailer_Encrypt := trailer_Encrypt context;
       trailer_Root := trailer_Root context |} in
  let (context2, encryptRef) :=
    register context1 (encryptDict permissions encryptMetadata keys) in
  lift (save h {| indirectObjects := indirectObjects context2;
                  largestObjectNumber := largestObjectNumber context2;
                  trailer_ID := trailer_ID context2;
                  trailer_Encrypt := Some encryptRef;
                  trailer_Root := trailer_Root context2 |}).

End Encrypt.

(* ################################################################# *)
(** * decrypt.ts *)

Section Decrypt.

Variable h : Host.

Local Open Scope result_scope.

Definition getEncryptBytes (dict : PDFEntries) (key : string) : option bytes :=
  match dict_get dict key with
  | None => None
  | Some (PDFHexString v) => Some (hex_asBytes v)
  | Some (PDFString v) => Some (literal_asBytes h v)
  | Some _ => None
  end.

Definition decryptObject (data fileKey : bytes) : result bytes :=
  if length data <? IV_LEN + 16 then Throw EncryptedObjectTooShort
  else
    let iv := subarray data 0 IV_LEN in
    let ciphertext := skipn IV_LEN data in
    aes256CbcDecrypt h fileKey iv ciphertext.

Section Walk.

Variable dec : bytes -> result bytes.

(** The string case of [decryptStringsInDict]: short strings are passed
    over, and the [catch] leaves a string that does not decrypt as it is. *)
Definition decryptString (value : PDFObject) (bytes : bytes) : PDFObject :=
  if length bytes <? IV_LEN + 16 then value
  else match dec bytes with
       | OK decrypted => PDFHexStringOf (bytesToHex decrypted)
       | Throw _ => value
       end.

Fixpoint decryptStringsInDict (dict : PDFObject) : PDFObject :=
  match dict with
  | PDFDict entries =>
      PDFDict
        ((fix loop (es : PDFEntries) : PDFEntries :=
            match es with
            | [] => []
            | (key, value) :: rest =>
                (key,
                 if reserved (key_asString key) then value
                 else match value with
                      | PDFHexString v => decryptString value (hex_asBytes v)
                      | PDFString v => decryptString value (literal_asBytes h v)
                      | PDFDict _ => decryptStringsInDict value
                      | PDFArray _ => decryptStringsInArray value
                      | _ => value
                      end) :: loop rest
            end) entries)
  | _ => dict
  end
with decryptStringsInArray (arr : PDFObject) : PDFObject :=
  match arr with
  | PDFArray elems =>
      PDFArray
        ((fix loop (els : list PDFObject) : list PDFObject :=
            match els with
            | [] => []
            | el :: rest =>
                match el with
                | PDFDict _ => decryptStringsInDict el
                | PDFArray _ => decryptStringsInArray el
                | _ => el
                end :: loop rest
            end) elems)
  | _ => arr
  end.

(** The body of the loop over the indirect objects. *)
Definition decryptIndirect (obj : PDFObject) : result PDFObject :=
  skip <- isStandardFilter obj ;;
  if (skip : bool) then OK obj
  else
    obj1 <-
      match obj with
      | PDFRawStream d streamData =>
          decrypted <- dec streamData ;;
          OK (PDFRawStream d decrypted)
      | _ => OK obj
      end ;;
    OK match obj1 with
       | PDFDict _ => decryptStringsInDict obj1
       | PDFArray _ => decryptStringsInArray obj1
       | _ => obj1
       end.

(** The loop mutates the objects of the loaded document one after the other;
    when an object throws, those before it have been changed and the others
    have not. *)
Fixpoint decryptIndirectObjects (objs : list ((nat * nat) * PDFObject))
  : list ((nat * nat) * PDFObject) * result unit :=
  match objs with
  | [] => ([], OK tt)
  | (ref, obj) :: rest =>
      match decryptIndirect obj with
      | Throw e => (objs, Throw e)
      | OK obj' =>
          let (rest', r) := decryptIndirectObjects rest in
          ((ref, obj') :: rest', r)
      end
  end.

End Walk.

(** [asNumber] where the object has it, [0] otherwise. *)
Definition number_or_0 (o : option PDFObject) : Z :=
  match o with
  | Some (PDFNumber n) => n
  | _ => 0%Z
  end.

(** [b && b.length === n] for a value that is an array or [null]. *)
Definition length_is (b : option bytes) (n : nat) : bool :=
  match b with
  | Some x => length x =? n
  | None => false
  end.

(** The array behind a value that has been tested not to be [null]. *)
Definition the (b : option bytes) : bytes :=
  match b with
  | Some x => x
  | None => []
  end.

(** [decryptPDF], from the context [PDFDocument.load] yields: the state of
    that context when the function returns or throws, and the outcome.  On
    [OK] the context is the one [pdfDoc.save] writes, the document in the
    bytes returned (short of the default page for a document without pages:
    see [save]); when [save] throws, [Encrypt] has been deleted from the
    trailer. *)
Definition decryptPDF (context : PDFContext) (password : jsstring)
  : PDFContext * result unit :=
  match trailer_Encrypt context with
  | None => (context, Throw NotEncrypted)
  | Some encryptRef =>
      match context_lookup context encryptRef with
      | Some (PDFDict encryptObj) =>
          let r := number_or_0 (dict_lookup context encryptObj "R") in
          let v := number_or_0 (dict_lookup context encryptObj "V") in
          if negb (r =? 5)%Z || negb (v =? 5)%Z
          then (context, Throw (UnsupportedEncryption r v))
          else
            let O := getEncryptBytes encryptObj "O" in
            let U := getEncryptBytes encryptObj "U" in
            let OE := getEncryptBytes encryptObj "OE" in
            let UE := getEncryptBytes encryptObj "UE" in
            if negb (length_is O 48) || negb (length_is U 48)
               || negb (length_is OE 32) || negb (length_is UE 32)
            then (context,
                  Throw (InvalidEncryptFields (option_map (@length _) O)
                           (option_map (@length _) U)
                           (option_map (@length _) OE)
                           (option_map (@length _) UE)))
            else
              match deriveFileKeyFromPassword h password
                      (the U) (the O) (the OE) (the UE) with
              | Throw e => (context, Throw e)
              | OK None => (context, Throw WrongPassword)
              | OK (Some fileKey) =>
                  let dec := fun data => decryptObject data fileKey in
                  let (objs, r) :=
                    decryptIndirectObjects dec (enumerateIndirectObjects context) in
                  match r with
                  | Throw e =>
                      ({| indirectObjects := objs;
                          largestObjectNumber := largestObjectNumber context;
                          trailer_ID := trailer_ID context;
                          trailer_Encrypt := trailer_Encrypt context;
                          trailer_Root := trailer_Root context |},
                       Throw e)
                  | OK _ =>
                      let context' :=
                        {| indirectObjects := objs;
                           largestObjectNumber := largestObjectNumber context;
                           trailer_ID := trailer_ID context;
                           trailer_Encrypt := None;
                           trailer_Root := trailer_Root context |} in
                      match save h context' with
                      | OK written => (written, OK tt)
                      | Throw e => (context', Throw e)
                      end
                  end
              end
      | _ => (context, Throw InvalidEncryptDictionary)
      end
  end.

End Decrypt.

(* ################################################################# *)
(** * Closed forms and measures used by the statements *)

(** The bytes [getRandomBytes n] yields at position [s] of the stream. *)
Definition drawn (h : Host) (s n : nat) : bytes := map (entropy h) (seq s n).

(** What [computeRev5Keys] returns when it starts at position [s]. *)
Definition rev5_U (h : Host) (userPwd : bytes) (s : nat) : bytes :=
  SHA256 h (userPwd ++ drawn h (s + 32) 8) ++ drawn h (s + 32) 8 ++ drawn h (s + 40) 8.

Definition rev5_O (h : Host) (userPwd ownerPwd : bytes) (s : nat) : bytes :=
  SHA256 h (ownerPwd ++ drawn h (s + 48) 8 ++ rev5_U h userPwd s)
  ++ drawn h (s + 48) 8 ++ drawn h (s + 56) 8.

Definition rev5_permsBlock (h : Host) (p : Z) (m : bool) (s : nat) : bytes :=
  array_set (permsBlock_head p m) (drawn h (s + 64) 4) 12.

Definition rev5_keys (h : Host) (params : Rev5EncryptParams) (s : nat) : Rev5Keys :=
  let userPwd := preparePassword (userPassword params) in
  let ownerPwd := preparePassword (js_or (ownerPassword params) (userPassword params)) in
  let fileKey := drawn h s 32 in
  let U := rev5_U h userPwd s in
  {| fileEncryptionKey := fileKey;
     O := rev5_O h userPwd ownerPwd s;
     U := U;
     OE := cbc_encrypt_blocks h 2
             (SHA256 h (ownerPwd ++ drawn h (s + 56) 8 ++ U)) ZERO_IV fileKey;
     UE := cbc_encrypt_blocks h 2
             (SHA256 h (userPwd ++ drawn h (s + 40) 8)) ZERO_IV fileKey;
     Perms := AES256 h fileKey
                (rev5_permsBlock h (permissions params) (encryptMetadata params) s) |}.

(** Whether a prepared password matches the validation hash of [U], and of
    [O] over [U]. *)
Definition matches_user (h : Host) (pwd U : bytes) : bool :=
  (compareBytes (SHA256 h (pwd ++ subarray U 32 40)) (subarray U 0 32) =? 0)%Z.

Definition matches_owner (h : Host) (pwd U O : bytes) : bool :=
  (compareBytes (SHA256 h (pwd ++ subarray O 32 40 ++ U)) (subarray O 0 32) =? 0)%Z.

(** What [deriveFileKeyFromPassword] returns on wrapped keys of 32 bytes. *)
Definition recovered (h : Host) (pwd U O OE UE : bytes) : option bytes :=
  if matches_user h pwd U
  then Some (cbc_decrypt_blocks h 2 (SHA256 h (pwd ++ subarray U 40 48)) ZERO_IV UE)
  else if matches_owner h pwd U O
  then Some (cbc_decrypt_blocks h 2 (SHA256 h (pwd ++ subarray O 40 48 ++ U)) ZERO_IV OE)
  else None.

(** The encrypted form of [data] when the IV is drawn at position [s]. *)
Definition encrypted_at (h : Host) (data fileKey : bytes) (s : nat) : bytes :=
  drawn h s 16 ++ host_cbc_encrypt h fileKey (drawn h s 16) data.

(** The loops of the four walkers under their own names. *)
Section WalkerLoops.

Variable h : Host.
Variable enc : bytes -> Rand bytes.
Variable dec : bytes -> result bytes.

Local Open Scope rand_scope.

Definition encryptValue (value : PDFObject) : Rand PDFObject :=
  match value with
  | PDFString v =>
      encrypted <~ enc (literal_asBytes h v) ;;
      ret (PDFHexStringOf (bytesToHex encrypted))
  | PDFHexString v =>
      encrypted <~ enc (hex_asBytes v) ;;
      ret (PDFHexStringOf (bytesToHex encrypted))
  | PDFDict _ => encryptStringsInDict h enc value
  | PDFArray _ => encryptStringsInArray h enc value
  | _ => ret value
  end.

Fixpoint encryptEntries (es : PDFEntries) : Rand PDFEntries :=
  match es with
  | [] => ret []
  | (key, value) :: rest =>
      value' <~ (if reserved (key_asString key) then ret value
                 else encryptValue value) ;;
      rest' <~ encryptEntries rest ;;
      ret ((key, value') :: rest')
  end.

Definition encryptElement (el : PDFObject) : Rand PDFObject :=
  match el with
  | PDFDict _ => encryptStringsInDict h enc el
  | PDFArray _ => encryptStringsInArray h enc el
  | _ => ret el
  end.

Fixpoint encryptElements (els : list PDFObject) : Rand (list PDFObject) :=
  match els with
  | [] => ret []
  | el :: rest =>
      el' <~ encryptElement el ;;
      rest' <~ encryptElements rest ;;
      ret (el' :: rest')
  end.

Definition decryptValue (value : PDFObject) : PDFObject :=
  match value with
  | PDFHexString v => decryptString dec value (hex_asBytes v)
  | PDFString v => decryptString dec value (literal_asBytes h v)
  | PDFDict _ => decryptStringsInDict h dec value
  | PDFArray _ => decryptStringsInArray h dec value
  | _ => value
  end.

Fixpoint decryptEntries (es : PDFEntries) : PDFEntries :=
  match es with
  | [] => []
  | (key, value) :: rest =>
      (key, if reserved (key_asString key) then value else decryptValue value)
      :: decryptEntries rest
  end.

Definition decryptElement (el : PDFObject) : PDFObject :=
  match el with
  | PDFDict _ => decryptStringsInDict h dec el
  | PDFArray _ => decryptStringsInArray h dec el
  | _ => el
  end.

Fixpoint decryptElements (els : list PDFObject) : list PDFObject :=
  match els with
  | [] => []
  | el :: rest => decryptElement el :: decryptElements rest
  end.

End WalkerLoops.

(** The loop of [traverse] under its own name; [rec] is [traverse] one level
    further down. *)
Definition visitKid (rec : PDFEntries -> result nat) (c : PDFContext)
  (kidRef : PDFObject) : result nat :=
  match context_lookup c kidRef with
  | Some (PDFDict kid) =>
      match class_of kid with
      | PDFPageTree => rec kid
      | PDFPageLeaf =>
          match kidRef with
          | PDFRef _ _ => OK 1
          | _ => Throw TypeError
          end
      | _ => OK 0
      end
  | _ => OK 0
  end.

Fixpoint visitKids (rec : PDFEntries -> result nat) (c : PDFContext)
  (kids : list PDFObject) : result nat :=
  match kids with
  | [] => OK 0
  | kidRef :: rest =>
      (n <- visitKid rec c kidRef ;;
       m <- visitKids rec c rest ;;
       OK (n + m))%result
  end.

(** The payload of an object: its streams' bytes and its strings' bytes, the
    latter written the one way [bytesToHex] writes them. *)
Fixpoint payload_of (h : Host) (o : PDFObject) : PDFObject :=
  match o with
  | PDFString v => PDFHexString (bytesToHex (literal_asBytes h v))
  | PDFHexString v => PDFHexString (bytesToHex (hex_asBytes v))
  | PDFArray a => PDFArray (map (payload_of h) a)
  | PDFDict d => PDFDict (map (fun e => (fst e, payload_of h (snd e))) d)
  | PDFRawStream d c =>
      PDFRawStream (map (fun e => (fst e, payload_of h (snd e))) d) c
  | _ => o
  end.

Definition payload_entry (h : Host) (e : string * PDFObject) : string * PDFObject :=
  (fst e, payload_of h (snd e)).

Definition payload_indirect (h : Host) (e : (nat * nat) * PDFObject)
  : (nat * nat) * PDFObject :=
  (fst e, payload_of h (snd e)).

(** An indirect object on which the [Filter] test does not throw. *)
Definition filter_typed (obj : PDFObject) : bool :=
  match isStandardFilter obj with
  | OK _ => true
  | Throw _ => false
  end.

(** The Encrypt dictionary the trailer of a document refers to. *)
Definition descriptor (c : PDFContext) : option PDFEntries :=
  match trailer_Encrypt c with
  | None => None
  | Some r =>
      match context_lookup c r with
      | Some (PDFDict d) => Some d
      | _ => None
      end
  end.

(** A field of the descriptor as [decryptPDF] reads it; no bytes when the
    field or the descriptor is missing. *)
Definition stored (h : Host) (c : PDFContext) (key : string) : bytes :=
  match descriptor c with
  | Some d => the (getEncryptBytes h d key)
  | None => []
  end.

(** pdf-lib keeps [largestObjectNumber] at or above every object number. *)
Definition context_wf (c : PDFContext) : bool :=
  forallb (fun e => fst (fst e) <=? largestObjectNumber c) (indirectObjects c).

(** No indirect dictionary makes the [Filter] test throw. *)
Definition filters_typed (c : PDFContext) : bool :=
  forallb (fun e => filter_typed (snd e)) (indirectObjects c).

Definition payloads (h : Host) (c : PDFContext) : list ((nat * nat) * PDFObject) :=
  map (payload_indirect h) (indirectObjects c).

(** [D'] holds the objects of [D] as [save] writes them (a stream has the
    [Length] of its contents), reference by reference and payload by
    payload, then one more object that both walkers skip (the Encrypt
    dictionary, which decryption detaches from the trailer and leaves among
    the objects), and has no [Encrypt] entry in its trailer. *)
Definition restores (h : Host) (D D' : PDFContext) : Prop :=
  exists ed,
    payloads h D' = payloads h (updateDicts D) ++ [ed]
    /\ isStandardFilter (snd ed) = OK true
    /\ trailer_Encrypt D' = None.

(** The arguments [encryptPDF] passes to [computeRev5Keys]. *)
Definition effective_permissions (options : EncryptOptions) : Z :=
  match opt_permissions options with Some p => p | None => (-4)%Z end.

Definition effective_encryptMetadata (options : EncryptOptions) : bool :=
  match opt_encryptMetadata options with Some false => false | _ => true end.

Definition effective_params (u : jsstring) (o : option jsstring)
  (options : EncryptOptions) : Rev5EncryptParams :=
  {| userPassword := u;
     ownerPassword := match o with Some x => x | None => u end;
     permissions := effective_permissions options;
     encryptMetadata := effective_encryptMetadata options |}.

(** The position in the entropy stream at which [encryptPDF] calls
    [computeRev5Keys]: sixteen bytes go to the file identifier when the
    trailer has none. *)
Definition keys_position (D : PDFContext) (s : nat) : nat :=
  match trailer_ID D with Some _ => s | None => s + 16 end.

Definition keys_at (h : Host) (D : PDFContext) (u : jsstring) (o : option jsstring)
  (options : EncryptOptions) (s : nat) : Rev5Keys :=
  rev5_keys h (effective_params u o options) (keys_position D s).

Definition ID_at (h : Host) (D : PDFContext) (s : nat) : option PDFObject :=
  match trailer_ID D with
  | Some id => Some id
  | None => Some (PDFArray [ PDFHexStringOf (bytesToHex (drawn h s 16));
                             PDFHexStringOf (bytesToHex (drawn h s 16)) ])
  end.

(** The document [encryptPDF] hands to [save], given the objects its loop
    made. *)
Definition sealed (h : Host) (D : PDFContext) (u : jsstring) (o : option jsstring)
  (options : EncryptOptions) (s : nat) (objs : list ((nat * nat) * PDFObject))
  : PDFContext :=
  {| indirectObjects :=
       objs ++ [((S (largestObjectNumber D), 0),
                 encryptDict (effective_permissions options)
                   (effective_encryptMetadata options) (keys_at h D u o options s))];
     largestObjectNumber := S (largestObjectNumber D);
     trailer_ID := ID_at h D s;
     trailer_Encrypt := Some (PDFRef (S (largestObjectNumber D)) 0);
     trailer_Root := trailer_Root D |}.

(** [decryptPDF] after its checks of the descriptor, on a host that can run
    it: the key is recovered or not, then the loop runs and the document is
    saved. *)
Definition decrypt_with (h : Host) (c : PDFContext) (key : option bytes)
  : PDFContext * result unit :=
  match key with
  | None => (c, Throw WrongPassword)
  | Some fileKey =>
      let w := decryptIndirectObjects h (fun data => decryptObject h data fileKey)
                 (indirectObjects c) in
      match snd w with
      | Throw e =>
          ({| indirectObjects := fst w;
              largestObjectNumber := largestObjectNumber c;
              trailer_ID := trailer_ID c;
              trailer_Encrypt := trailer_Encrypt c;
              trailer_Root := trailer_Root c |}, Throw e)
      | OK _ =>
          let c' := {| indirectObjects := fst w;
                       largestObjectNumber := largestObjectNumber c;
                       trailer_ID := trailer_ID c;
                       trailer_Encrypt := None;
                       trailer_Root := trailer_Root c |} in
          match save h c' with
          | OK written => (written, OK tt)
          | Throw e => (c', Throw e)
          end
      end
  end.

(** The shape of an object: what is left of it when the text of its strings
    and the dictionary and contents of its streams are forgotten.  [save]
    reads nothing else of the objects it meets while it counts the pages. *)
Fixpoint shape (o : PDFObject) : PDFObject :=
  match o with
  | PDFString _ | PDFHexString _ => PDFString EmptyString
  | PDFArray a => PDFArray (map shape a)
  | PDFDict d => PDFDict (map (fun e => (fst e, shape (snd e))) d)
  | PDFRawStream _ _ => PDFRawStream [] []
  | _ => o
  end.

Definition shape_entry (e : string * PDFObject) : string * PDFObject :=
  (fst e, shape (snd e)).

Definition shape_indirect (e : (nat * nat) * PDFObject) : (nat * nat) * PDFObject :=
  (fst e, shape (snd e)).

Definition update_indirect (e : (nat * nat) * PDFObject) : (nat * nat) * PDFObject :=
  (fst e, updateDict (snd e)).

(** A dictionary the parser gave no class of the page tree. *)
Definition is_plain (o : PDFObject) : Prop :=
  match o with
  | PDFDict d => class_of d = PlainDict
  | _ => False
  end.

(** Two objects [save] cannot tell apart while it counts the pages. *)
Definition alike (x y : PDFObject) : Prop :=
  shape x = shape y \/ (is_plain x /\ is_plain y).

(** What two contexts have under a reference is alike; [fresh] allows the
    second to have a plain dictionary where the first has nothing. *)
Definition alike_found (fresh : bool) (a b : option PDFObject) : Prop :=
  match a, b with
  | Some x, Some y => alike x y
  | None, None => True
  | None, Some y => fresh = true /\ is_plain y
  | Some _, None => False
  end.

Definition alike_contexts (fresh : bool) (c1 c2 : PDFContext) : Prop :=
  trailer_Root c1 = trailer_Root c2
  /\ forall r, alike_found fresh (indirect_get (indirectObjects c1) r)
                 (indirect_get (indirectObjects c2) r).

(** The document has a page tree that [save] can walk, with a page in it. *)
Definition has_pages (h : Host) (c : PDFContext) : Prop :=
  exists n, getPageCount h c = OK (S n).

(** The little-endian bytes of a number's low 32 bits. *)
Definition le32 (x : Z) : bytes :=
  [ byte_of_Z (x mod 2 ^ 32);
    byte_of_Z (x mod 2 ^ 32 / 2 ^ 8);
    byte_of_Z (x mod 2 ^ 32 / 2 ^ 16);
    byte_of_Z (x mod 2 ^ 32 / 2 ^ 24) ].

Definition entries_of (o : PDFObject) : PDFEntries :=
  match o with
  | PDFDict d => d
  | _ => []
  end.

(** The four fields [decryptPDF] checks all have their required length. *)
Definition fields_ok (h : Host) (d : PDFEntries) : bool :=
  length_is (getEncryptBytes h d "O") 48 && length_is (getEncryptBytes h d "U") 48
  && length_is (getEncryptBytes h d "OE") 32 && length_is (getEncryptBytes h d "UE") 32.

(** The permissions block: the bitmask, four bytes 0xFF, 'T' or 'F', the tag
    "adb", four random bytes. *)
Definition perms_layout (p : Z) (m : bool) (rnd : bytes) : bytes :=
  le32 p ++ [xff; xff; xff; xff] ++ [if m then x54 else x46]
  ++ [x61; x64; x62] ++ rnd.

(** An object, met as the value of a dictionary entry or as the element of
    an array, that the encrypting walker transforms without failing into one
    the decrypting walker gives back its payload. *)
Definition value_roundtrip (h : Host) (fileKey : bytes) (v : PDFObject) : Prop :=
  forall s, exists v' s',
    encryptValue h (fun data => encryptObject h data fileKey) v s = OK (v', s')
    /\ payload_of h (decryptValue h (fun data => decryptObject h data fileKey) v')
       = payload_of h v.

Definition element_roundtrip (h : Host) (fileKey : bytes) (el : PDFObject) : Prop :=
  forall s, exists el' s',
    encryptElement h (fun data => encryptObject h data fileKey) el s = OK (el', s')
    /\ payload_of h (decryptElement h (fun data => decryptObject h data fileKey) el')
       = payload_of h el.

(* ################################################################# *)
(** * A reference host: SHA-256 *)

Module Sha256.

Local Open Scope N_scope.

Definition w32 (x : N) : N := x mod 2 ^ 32.

Definition add32 (x y : N) : N := w32 (x + y).

Definition rotr (n x : N) : N :=
  N.lor (N.shiftr x n) (w32 (N.shiftl x (32 - n))).

Definition Ch (x y z : N) : N := N.lxor (N.land x y) (N.land (w32 (N.lnot x 32)) z).

Definition Maj (x y z : N) : N :=
  N.lxor (N.lxor (N.land x y) (N.land x z)) (N.land y z).

Definition Sigma0 (x : N) : N := N.lxor (N.lxor (rotr 2 x) (rotr 13 x)) (rotr 22 x).
Definition Sigma1 (x : N) : N := N.lxor (N.lxor (rotr 6 x) (rotr 11 x)) (rotr 25 x).
Definition sigma0 (x : N) : N := N.lxor (N.lxor (rotr 7 x) (rotr 18 x)) (N.shiftr x 3).
Definition sigma1 (x : N) : N := N.lxor (N.lxor (rotr 17 x) (rotr 19 x)) (N.shiftr x 10).

(** The first sixty-four primes, by trial division. *)
Definition is_prime (n : nat) : bool :=
  (1 <? n)%nat && forallb (fun d => negb (n mod d =? 0)%nat) (seq 2 (n - 2)).

Definition primes64 : list N :=
  Eval vm_compute in map N.of_nat (firstn 64 (filter is_prime (seq 0 320))).

(** The integer cube root, one bit at a time from the top. *)
Definition cbrt (n : N) : N :=
  fold_left (fun r i => let c := r + 2 ^ i in if c * c * c <=? n then c else r)
            (map N.of_nat (rev (seq 0 40))) 0.

(** The constants are the fractional parts of the cube roots, and the
    initial state those of the square roots, of the primes, 32 bits each. *)
Definition K : list N :=
  Eval vm_compute in map (fun p => w32 (cbrt (p * 2 ^ 96))) primes64.

Definition H0 : list N :=
  Eval vm_compute in map (fun p => w32 (N.sqrt (p * 2 ^ 64))) (firstn 8 primes64).

Definition word_of (b0 b1 b2 b3 : byte) : N :=
  Byte.to_N b0 * 2 ^ 24 + Byte.to_N b1 * 2 ^ 16 + Byte.to_N b2 * 2 ^ 8 + Byte.to_N b3.

Fixpoint words_of (bs : bytes) : list N :=
  match bs with
  | b0 :: b1 :: b2 :: b3 :: bs' => word_of b0 b1 b2 b3 :: words_of bs'
  | _ => []
  end.

Definition bytes_of_word (w : N) : bytes :=
  [ byte_of_N (w / 2 ^ 24); byte_of_N (w / 2 ^ 16); byte_of_N (w / 2 ^ 8); byte_of_N w ].

(** The message schedule: [n] more words after the window of the last
    sixteen. *)
Fixpoint schedule (n : nat) (window : list N) : list N :=
  match n with
  | 0%nat => []
  | S n' =>
      let w := add32 (add32 (sigma1 (nth 14 window 0)) (nth 9 window 0))
                     (add32 (sigma0 (nth 1 window 0)) (nth 0 window 0)) in
      w :: schedule n' (tl window ++ [w])
  end.

Definition State : Type := N * N * N * N * N * N * N * N.

Definition step (st : State) (kw : N * N) : State :=
  let '(a, b, c, d, e, f, g, hh) := st in
  let t1 := add32 (add32 (add32 hh (Sigma1 e)) (add32 (Ch e f g) (fst kw))) (snd kw) in
  let t2 := add32 (Sigma0 a) (Maj a b c) in
  (add32 t1 t2, a, b, c, add32 d t1, e, f, g).

Definition compress (st : State) (block : bytes) : State :=
  let w16 := words_of block in
  let w := w16 ++ schedule 48 w16 in
  let '(a, b, c, d, e, f, g, hh) := fold_left step (combine K w) st in
  let '(a0, b0, c0, d0, e0, f0, g0, h0) := st in
  (add32 a0 a, add32 b0 b, add32 c0 c, add32 d0 d,
   add32 e0 e, add32 f0 f, add32 g0 g, add32 h0 hh).

(** The message, a byte 0x80, zeros up to 56 modulo 64, the bit length on
    eight bytes. *)
Definition pad (msg : bytes) : bytes :=
  let l := length msg in
  let z := ((119 - l mod 64) mod 64)%nat in
  let bits := 8 * N.of_nat l in
  msg ++ [x80] ++ repeat x00 z
      ++ bytes_of_word (w32 (bits / 2 ^ 32)) ++ bytes_of_word (w32 bits).

Fixpoint blocks (n : nat) (st : State) (bs : bytes) : State :=
  match n with
  | 0%nat => st
  | S n' => blocks n' (compress st (firstn 64 bs)) (skipn 64 bs)
  end.

Definition initial : State :=
  match H0 with
  | [a; b; c; d; e; f; g; hh] => (a, b, c, d, e, f, g, hh)
  | _ => (0, 0, 0, 0, 0, 0, 0, 0)
  end.

Definition output (st : State) : bytes :=
  let '(a, b, c, d, e, f, g, hh) := st in
  bytes_of_word a ++ bytes_of_word b ++ bytes_of_word c ++ bytes_of_word d
  ++ bytes_of_word e ++ bytes_of_word f ++ bytes_of_word g ++ bytes_of_word hh.

Definition digest (msg : bytes) : bytes :=
  let p := pad msg in
  output (blocks (length p / 64) initial p).

End Sha256.

(* ################################################################# *)
(** * A reference host: AES-256 *)

Module Aes256.

Definition all_bytes : list byte :=
  Eval vm_compute in map (fun n => byte_of_N (N.of_nat n)) (seq 0 256).

(** Multiplication by [x] in GF(2^8) modulo x^8 + x^4 + x^3 + x + 1. *)
Definition xtime (b : byte) : byte :=
  let n := (2 * Byte.to_N b)%N in
  byte_of_N (if (n <? 256)%N then n else N.lxor n 283).

(** The product of [a] and [b], over the eight bits of [b]. *)
Definition gmul (a b : byte) : byte :=
  fst (fold_left
         (fun (acc : byte * byte) (i : nat) =>
            let (r, p) := acc in
            (if N.testbit (Byte.to_N b) (N.of_nat i) then byte_xor r p else r,
             xtime p))
         (seq 0 8) (x00, a)).

Definition ginv (a : byte) : byte :=
  match find (fun x => Byte.eqb (gmul a x) x01) all_bytes with
  | Some x => x
  | None => x00
  end.

Definition rotl8 (b : byte) (n : N) : byte :=
  let x := Byte.to_N b in
  byte_of_N (N.lor (N.shiftl x n) (N.shiftr x (8 - n))).

Definition affine (b : byte) : byte :=
  byte_xor (byte_xor (byte_xor b (rotl8 b 1)) (byte_xor (rotl8 b 2) (rotl8 b 3)))
           (byte_xor (rotl8 b 4) x63).

Definition sbox_table : list byte :=
  Eval vm_compute in map (fun b => affine (ginv b)) all_bytes.

Definition inv_sbox_table : list byte :=
  Eval vm_compute in
    map (fun y => match find (fun x => Byte.eqb (nth (Byte.to_nat x) sbox_table x00) y)
                         all_bytes with
                  | Some x => x
                  | None => x00
                  end) all_bytes.

Definition sbox (b : byte) : byte := nth (Byte.to_nat b) sbox_table x00.
Definition inv_sbox (b : byte) : byte := nth (Byte.to_nat b) inv_sbox_table x00.

(** Whether [f] distributes over xor, checked on all pairs of bytes. *)
Definition additive (f : byte -> byte) : bool :=
  forallb (fun x => forallb (fun y => Byte.eqb (f (byte_xor x y)) (byte_xor (f x) (f y)))
                      all_bytes) all_bytes.

Definition SubBytes (s : bytes) : bytes := map sbox s.
Definition InvSubBytes (s : bytes) : bytes := map inv_sbox s.

(** The state is held column by column; row [r] moves [r] columns left. *)
Definition permute (idx : list nat) (s : bytes) : bytes := map (at_ s) idx.

Definition ShiftRows : bytes -> bytes :=
  permute [0; 5; 10; 15; 4; 9; 14; 3; 8; 13; 2; 7; 12; 1; 6; 11].

Definition InvShiftRows : bytes -> bytes :=
  permute [0; 13; 10; 7; 4; 1; 14; 11; 8; 5; 2; 15; 12; 9; 6; 3].

Definition mul2 (a : byte) : byte := xtime a.
Definition mul4 (a : byte) : byte := xtime (xtime a).
Definition mul8 (a : byte) : byte := xtime (xtime (xtime a)).
Definition mul3 (a : byte) : byte := byte_xor (mul2 a) a.
Definition mul9 (a : byte) : byte := byte_xor (mul8 a) a.
Definition mul11 (a : byte) : byte := byte_xor (mul8 a) (byte_xor (mul2 a) a).
Definition mul13 (a : byte) : byte := byte_xor (mul8 a) (byte_xor (mul4 a) a).
Definition mul14 (a : byte) : byte := byte_xor (mul8 a) (byte_xor (mul4 a) (mul2 a)).

Definition xor4 (a b c d : byte) : byte :=
  byte_xor (byte_xor a b) (byte_xor c d).

Definition mix_column (a0 a1 a2 a3 : byte) : bytes :=
  [ xor4 (mul2 a0) (mul3 a1) a2 a3;
    xor4 a0 (mul2 a1) (mul3 a2) a3;
    xor4 a0 a1 (mul2 a2) (mul3 a3);
    xor4 (mul3 a0) a1 a2 (mul2 a3) ].

Definition inv_mix_column (a0 a1 a2 a3 : byte) : bytes :=
  [ xor4 (mul14 a0) (mul11 a1) (mul13 a2) (mul9 a3);
    xor4 (mul9 a0) (mul14 a1) (mul11 a2) (mul13 a3);
    xor4 (mul13 a0) (mul9 a1) (mul14 a2) (mul11 a3);
    xor4 (mul11 a0) (mul13 a1) (mul9 a2) (mul14 a3) ].

Fixpoint columns (f : byte -> byte -> byte -> byte -> bytes) (s : bytes) : bytes :=
  match s with
  | a0 :: a1 :: a2 :: a3 :: s' => f a0 a1 a2 a3 ++ columns f s'
  | _ => []
  end.

Definition MixColumns : bytes -> bytes := columns mix_column.
Definition InvMixColumns : bytes -> bytes := columns inv_mix_column.

Definition AddRoundKey (s rk : bytes) : bytes := xor16 s rk.

(** The key schedule, word by word: [ws] holds the words made so far, the
    latest first. *)
Definition xor_word (a b : bytes) : bytes :=
  map (fun i => byte_xor (at_ a i) (at_ b i)) (seq 0 4).

Definition RotWord (w : bytes) : bytes := [at_ w 1; at_ w 2; at_ w 3; at_ w 0].
Definition SubWord (w : bytes) : bytes := map sbox w.

Fixpoint rcon (n : nat) : byte :=
  match n with
  | 0%nat => x01
  | S n' => xtime (rcon n')
  end.

Fixpoint expand (n : nat) (i : nat) (ws : list bytes) : list bytes :=
  match n with
  | 0%nat => ws
  | S n' =>
      let prev := nth 0 ws [] in
      let temp :=
        if (i mod 8 =? 0)%nat
        then xor_word (SubWord (RotWord prev)) [rcon (i / 8 - 1); x00; x00; x00]
        else if (i mod 8 =? 4)%nat then SubWord prev
        else prev in
      expand n' (S i) (xor_word (nth 7 ws []) temp :: ws)
  end.

Fixpoint chunks4 (n : nat) (bs : bytes) : list bytes :=
  match n with
  | 0%nat => []
  | S n' => firstn 4 bs :: chunks4 n' (skipn 4 bs)
  end.

Fixpoint round_keys (n : nat) (ws : list bytes) : list bytes :=
  match n with
  | 0%nat => []
  | S n' => List.concat (firstn 4 ws) :: round_keys n' (skipn 4 ws)
  end.

Definition KeyExpansion (key : bytes) : list bytes :=
  round_keys 15 (rev (expand 52 8 (rev (chunks4 8 key)))).

Definition round (rk s : bytes) : bytes :=
  AddRoundKey (MixColumns (ShiftRows (SubBytes s))) rk.

Definition inv_round (rk s : bytes) : bytes :=
  InvSubBytes (InvShiftRows (InvMixColumns (AddRoundKey s rk))).

Fixpoint rounds (rks : list bytes) (s : bytes) : bytes :=
  match rks with
  | [] => s
  | rk :: rks' => rounds rks' (round rk s)
  end.

Fixpoint inv_rounds (rks : list bytes) (s : bytes) : bytes :=
  match rks with
  | [] => s
  | rk :: rks' => inv_round rk (inv_rounds rks' s)
  end.

(** The cipher on the expanded key: the first round key, thirteen full
    rounds, and the last round, which has no [MixColumns]. *)
Definition cipher (rks : list bytes) (block : bytes) : bytes :=
  let first := nth 0 rks [] in
  let middle := firstn 13 (skipn 1 rks) in
  let final := nth 14 rks [] in
  AddRoundKey (ShiftRows (SubBytes (rounds middle (AddRoundKey block first)))) final.

Definition inv_cipher (rks : list bytes) (block : bytes) : bytes :=
  let first := nth 0 rks [] in
  let middle := firstn 13 (skipn 1 rks) in
  let final := nth 14 rks [] in
  AddRoundKey (inv_rounds middle (InvSubBytes (InvShiftRows (AddRoundKey block final))))
              first.

Definition encrypt (key block : bytes) : bytes := cipher (KeyExpansion key) block.
Definition decrypt (key block : bytes) : bytes := inv_cipher (KeyExpansion key) block.

End Aes256.

(* ################################################################# *)
(** * Reference hosts

    Two hosts on which the model runs: one with Web Crypto, one with Node's
    [crypto] only.  Both use the real SHA-256 and AES-256; their entropy
    stream is a fixed sequence, and a literal string is read byte for byte
    (it has no escapes). *)

Definition sample_entropy (i : nat) : byte :=
  byte_of_N (N.of_nat i * 167 + 13).

Fixpoint plain_literal (v : string) : bytes :=
  match v with
  | EmptyString => []
  | String c v' => byte_of_N (N_of_ascii c) :: plain_literal v'
  end.

Definition web_host : Host :=
  {| has_getRandomValues := true;
     has_subtle := true;
     has_node_crypto := false;
     entropy := sample_entropy;
     SHA256 := Sha256.digest;
     AES256 := Aes256.encrypt;
     AES256_inv := Aes256.decrypt;
     literal_asBytes := plain_literal;
     stack_depth := 1024 |}.

Definition node_host : Host :=
  {| has_getRandomValues := true;
     has_subtle := false;
     has_node_crypto := true;
     entropy := sample_entropy;
     SHA256 := Sha256.digest;
     AES256 := Aes256.encrypt;
     AES256_inv := Aes256.decrypt;
     literal_asBytes := plain_literal;
     stack_depth := 1024 |}.

(** *** Sample inputs *)

Local Open Scope string_scope.

(** A catalog with a title and a nested dictionary, a stream of sixteen
    bytes, a dictionary that is not the descriptor but has [/Filter
    /Standard], a stream whose dictionary has it too, and a page tree of one
    page whose contents are the first stream. *)
Definition sample_document : PDFContext :=
  {| indirectObjects :=
       [ ((1, 0), PDFDict [ ("Type", PDFName "Catalog");
                            ("Pages", PDFRef 5 0);
                            ("Title", PDFString "Hello");
                            ("Fields", PDFArray [ PDFDict [ ("T", PDFHexString "4a6f") ] ]) ]);
         ((2, 0), PDFRawStream [ ("Length", PDFNumber 16) ]
                    (hex_asBytes "000102030405060708090a0b0c0d0e0f"));
         ((3, 0), PDFDict [ ("Filter", PDFName "Standard");
                            ("Note", PDFString "left alone") ]);
         ((4, 0), PDFRawStream [ ("Filter", PDFName "Standard") ]
                    (hex_asBytes "cafe"));
         ((5, 0), PDFDict [ ("Type", PDFName "Pages");
                            ("Kids", PDFArray [ PDFRef 6 0 ]);
                            ("Count", PDFNumber 1) ]);
         ((6, 0), PDFDict [ ("Type", PDFName "Page");
                            ("Parent", PDFRef 5 0);
                            ("MediaBox", PDFArray [ PDFNumber 0; PDFNumber 0;
                                                    PDFNumber 200; PDFNumber 200 ]);
                            ("Contents", PDFRef 2 0) ]) ];
     largestObjectNumber := 6;
     trailer_ID := None;
     trailer_Encrypt := None;
     trailer_Root := Some (PDFRef 1 0) |}.

(** A document whose descriptor names revision 4. *)
Definition revision4_document : PDFContext :=
  {| indirectObjects :=
       [ ((1, 0), PDFDict [ ("Title", PDFString "Hello") ]);
         ((2, 0), PDFDict [ ("Filter", PDFName "Standard");
                            ("V", PDFNumber 4); ("R", PDFNumber 4) ]) ];
     largestObjectNumber := 2;
     trailer_ID := None;
     trailer_Encrypt := Some (PDFRef 2 0);
     trailer_Root := None |}.

(** Two passwords of 128 characters that differ in the last one only. *)
Definition long_password (last : string) : jsstring :=
  js (fold_right String.append EmptyString (repeat "a" 127) ++ last).

Definition sample_key : bytes :=
  Eval vm_compute in map (fun n => byte_of_N (N.of_nat n)) (seq 0 32).

Definition sample_block : bytes :=
  Eval vm_compute in hex_asBytes "00112233445566778899aabbccddeeff".

Definition sample_params : Rev5EncryptParams :=
  {| userPassword := (js "user123");
     ownerPassword := (js "owner456");
     permissions := -3904;
     encryptMetadata := true |}.

(** What [computeRev5Keys] makes of them on the Web Crypto host. *)
Definition sample_keys : Rev5Keys :=
  Eval vm_compute in rev5_keys web_host sample_params 0.

(** The sample document as [encryptPDF] seals it on the Web Crypto host
    from the start of the entropy stream. *)
Definition sample_sealed : PDFContext :=
  Eval vm_compute in
    match encryptPDF web_host sample_document (js "user123") (Some (js "owner456"))
            no_options 0 with
    | OK (E, _) => E
    | Throw _ => sample_document
    end.

(** The descriptor of the sealed sample. *)
Definition sample_descriptor : PDFEntries :=
  Eval vm_compute in
    match descriptor sample_sealed with
    | Some d => d
    | None => []
    end.

(** The sealed sample with every stream cut to its first five bytes. *)
Definition cut_streams (c : PDFContext) : PDFContext :=
  {| indirectObjects :=
       map (fun e => match snd e with
                     | PDFRawStream d data => (fst e, PDFRawStream d (firstn 5 data))
                     | _ => e
                     end) (indirectObjects c);
     largestObjectNumber := largestObjectNumber c;
     trailer_ID := trailer_ID c;
     trailer_Encrypt := trailer_Encrypt c;
     trailer_Root := trailer_Root c |}.

Definition sample_cut : PDFContext := Eval vm_compute in cut_streams sample_sealed.

(** The sealed sample with one byte more at the end of every hex string
    that is the [Title] of an indirect dictionary. *)
Definition lengthen_title (obj : PDFObject) : PDFObject :=
  match obj with
  | PDFDict d =>
      PDFDict (map (fun e => match snd e with
                             | PDFHexString v =>
                                 if String.eqb (fst e) "Title"
                                 then (fst e, PDFHexString (v ++ "00"))
                                 else e
                             | _ => e
                             end) d)
  | _ => obj
  end.

Definition lengthen_titles (c : PDFContext) : PDFContext :=
  {| indirectObjects := map (fun e => (fst e, lengthen_title (snd e))) (indirectObjects c);
     largestObjectNumber := largestObjectNumber c;
     trailer_ID := trailer_ID c;
     trailer_Encrypt := trailer_Encrypt c;
     trailer_Root := trailer_Root c |}.

Definition sample_damaged : PDFContext :=
  Eval vm_compute in lengthen_titles sample_sealed.

(** A document of one page whose contents, a stream, are all there is to
    encrypt; and what [encryptPDF] makes of it with an empty owner password,
    and with a user password of 128 characters. *)
Definition one_leaf : PDFContext :=
  {| indirectObjects :=
       [ ((1, 0), PDFRawStream [ ("Length", PDFNumber 5) ] (hex_asBytes "68656c6c6f"));
         ((2, 0), PDFDict [ ("Type", PDFName "Catalog"); ("Pages", PDFRef 3 0) ]);
         ((3, 0), PDFDict [ ("Type", PDFName "Pages");
                            ("Kids", PDFArray [ PDFRef 4 0 ]);
                            ("Count", PDFNumber 1) ]);
         ((4, 0), PDFDict [ ("Type", PDFName "Page");
                            ("Parent", PDFRef 3 0);
                            ("Contents", PDFRef 1 0) ]) ];
     largestObjectNumber := 4;
     trailer_ID := Some (PDFArray [ PDFHexString "00"; PDFHexString "00" ]);
     trailer_Encrypt := None;
     trailer_Root := Some (PDFRef 2 0) |}.

(** Three documents on which [save] has something to say: one without a
    catalog, one whose catalog has no page tree, one whose page tree has no
    page. *)
Definition no_catalog_document : PDFContext :=
  {| indirectObjects := [ ((1, 0), PDFRawStream [] (hex_asBytes "68656c6c6f")) ];
     largestObjectNumber := 1;
     trailer_ID := None;
     trailer_Encrypt := None;
     trailer_Root := None |}.

Definition no_pages_document : PDFContext :=
  {| indirectObjects :=
       [ ((1, 0), PDFDict [ ("Type", PDFName "Catalog"); ("Title", PDFString "Hello") ]) ];
     largestObjectNumber := 1;
     trailer_ID := None;
     trailer_Encrypt := None;
     trailer_Root := Some (PDFRef 1 0) |}.

Definition no_page_document : PDFContext :=
  {| indirectObjects :=
       [ ((1, 0), PDFDict [ ("Type", PDFName "Catalog"); ("Pages", PDFRef 2 0) ]);
         ((2, 0), PDFDict [ ("Type", PDFName "Pages");
                            ("Kids", PDFArray []);
                            ("Count", PDFNumber 0) ]) ];
     largestObjectNumber := 2;
     trailer_ID := None;
     trailer_Encrypt := None;
     trailer_Root := Some (PDFRef 1 0) |}.

Definition one_leaf_empty_owner : PDFContext :=
  Eval vm_compute in
    match encryptPDF web_host one_leaf (js "user123") (Some []) no_options 0 with
    | OK (E, _) => E
    | Throw _ => one_leaf
    end.

Definition one_leaf_long_user : PDFContext :=
  Eval vm_compute in
    match encryptPDF web_host one_leaf (long_password "b") (Some (js "owner456"))
            no_options 0 with
    | OK (E, _) => E
    | Throw _ => one_leaf
    end.

Local Close Scope string_scope.

(* ################################################################# *)
(** * encrypt.ts: [hexToBytes] *)

(** Hex text is held as in the object model, a string of characters below
    U+0100.  [s.slice(a, b)] for [0 <= a <= b]: the characters from [a] up
    to [b], as many as the string has. *)
Definition slice (s : string) (a b : nat) : string := substring a (b - a) s.

(** [new Uint8Array(hex.length / 2)] has the length rounded down. *)
Definition hexToBytes (hex : string) : bytes :=
  map (fun i => store_uint8 (parseInt16 (slice hex (i * 2) (i * 2 + 2))))
      (seq 0 (String.length hex / 2)).

(* ################################################################# *)
(** * Measures used by the further statements *)

Definition isLowerHexDigit (c : ascii) : bool :=
  let n := N_of_ascii c in
  ((48 <=? n) && (n <=? 57) || (97 <=? n) && (n <=? 102))%N.

(** An element of an array that the array walkers pass over: anything but a
    dictionary or an array. *)
Definition passed_over (el : PDFObject) : bool :=
  match el with
  | PDFDict _ | PDFArray _ => false
  | _ => true
  end.

(** A value the dictionary walkers have no case for: anything but a string,
    a dictionary or an array. *)
Definition plain_value (v : PDFObject) : bool :=
  match v with
  | PDFString _ | PDFHexString _ | PDFDict _ | PDFArray _ => false
  | _ => true
  end.

(** The bytes of a string object, as the walkers read them. *)
Definition string_bytes (h : Host) (v : PDFObject) : option bytes :=
  match v with
  | PDFString s => Some (literal_asBytes h s)
  | PDFHexString s => Some (hex_asBytes s)
  | _ => None
  end.

Definition is_stream (obj : PDFObject) : bool :=
  match obj with
  | PDFRawStream _ _ => true
  | _ => false
  end.

(** No indirect object is a stream. *)
Definition no_streams (c : PDFContext) : bool :=
  forallb (fun e => negb (is_stream (snd e))) (indirectObjects c).

(** What encrypting and then decrypting makes of an object that the walkers
    meet as the value of a dictionary entry ([in_dict]) or as the element of
    an array: a string that is the value of an entry comes back as the hex
    string of its bytes, a string that is the element of an array was never
    touched, and the values under the three reserved keys were not either. *)
Fixpoint reread (h : Host) (in_dict : bool) (o : PDFObject) : PDFObject :=
  match o with
  | PDFString v =>
      if in_dict then PDFHexString (bytesToHex (literal_asBytes h v)) else o
  | PDFHexString v =>
      if in_dict then PDFHexString (bytesToHex (hex_asBytes v)) else o
  | PDFArray a => PDFArray (map (reread h false) a)
  | PDFDict d =>
      PDFDict (map (fun e => (fst e, if reserved (key_asString (fst e)) then snd e
                                     else reread h true (snd e))) d)
  | _ => o
  end.

Definition reread_entry (h : Host) (e : string * PDFObject) : string * PDFObject :=
  (fst e, if reserved (key_asString (fst e)) then snd e else reread h true (snd e)).

(** The same for an indirect object: one with [/Filter /Standard] was
    skipped, a stream has its contents back and its dictionary as it was. *)
Definition reread_indirect (h : Host) (obj : PDFObject) : PDFObject :=
  match isStandardFilter obj with
  | OK true => obj
  | _ =>
      match obj with
      | PDFDict _ => reread h true obj
      | PDFArray _ => reread h false obj
      | _ => obj
      end
  end.

Definition value_rereads (h : Host) (fileKey : bytes) (v : PDFObject) : Prop :=
  forall s, exists v' s',
    encryptValue h (fun data => encryptObject h data fileKey) v s = OK (v', s')
    /\ decryptValue h (fun data => decryptObject h data fileKey) v' = reread h true v.

Definition element_rereads (h : Host) (fileKey : bytes) (el : PDFObject) : Prop :=
  forall s, exists el' s',
    encryptElement h (fun data => encryptObject h data fileKey) el s = OK (el', s')
    /\ decryptElement h (fun data => decryptObject h data fileKey) el'
       = reread h false el.

(** The number of calls of the cipher the encrypting walkers make on an
    object met as the value of a dictionary entry ([in_dict]) or as the
    element of an array, and the loop of [encryptPDF] on an indirect
    object. *)
Fixpoint leaves (in_dict : bool) (o : PDFObject) : nat :=
  match o with
  | PDFString _ | PDFHexString _ => if in_dict then 1 else 0
  | PDFArray a => list_sum (map (leaves false) a)
  | PDFDict d =>
      list_sum (map (fun e => if reserved (key_asString (fst e)) then 0
                              else leaves true (snd e)) d)
  | _ => 0
  end.

Definition leaves_entry (e : string * PDFObject) : nat :=
  if reserved (key_asString (fst e)) then 0 else leaves true (snd e).

Definition leaves_indirect (obj : PDFObject) : nat :=
  match isStandardFilter obj with
  | OK true => 0
  | _ =>
      match obj with
      | PDFRawStream _ _ => 1
      | PDFDict _ => leaves true obj
      | PDFArray _ => leaves false obj
      | _ => 0
      end
  end.

Definition leaves_document (c : PDFContext) : nat :=
  list_sum (map (fun e => leaves_indirect (snd e)) (indirectObjects c)).

(** *** Further sample inputs *)

(** The sample block under the sample key and a zero IV, as the padded
    primitive of the reference host encrypts it. *)
Definition sample_ciphertext : bytes :=
  Eval vm_compute in host_cbc_encrypt web_host sample_key (zeros 16) sample_block.

(** The one-leaf document sealed with an empty owner password, as
    [decryptPDF] opens it with the user password. *)
Definition one_leaf_opened : PDFContext :=
  Eval vm_compute in fst (decryptPDF web_host one_leaf_empty_owner (js "user123")).

Local Open Scope string_scope.

(** A document of one empty page with the descriptor of the sealed sample,
    whose one string was never encrypted. *)
Definition never_encrypted_document : PDFContext :=
  {| indirectObjects :=
       [ ((1, 0), PDFDict [ ("Title", PDFString "this string was never encrypted!") ]);
         ((2, 0), PDFDict sample_descriptor);
         ((3, 0), PDFDict [ ("Type", PDFName "Catalog"); ("Pages", PDFRef 4 0) ]);
         ((4, 0), PDFDict [ ("Type", PDFName "Pages");
                            ("Kids", PDFArray [ PDFRef 5 0 ]);
                            ("Count", PDFNumber 1) ]);
         ((5, 0), PDFDict [ ("Type", PDFName "Page"); ("Parent", PDFRef 4 0) ]) ];
     largestObjectNumber := 5;
     trailer_ID := None;
     trailer_Encrypt := Some (PDFRef 2 0);
     trailer_Root := Some (PDFRef 3 0) |}.

Local Close Scope string_scope.

Local Open Scope string_scope.

(** A document of one empty page with an indirect dictionary whose [Filter]
    is an array. *)
Definition untyped_filter_document : PDFContext :=
  {| indirectObjects :=
       [ ((1, 0), PDFDict [ ("Title", PDFString "Hello") ]);
         ((2, 0), PDFDict [ ("Filter", PDFArray [ PDFName "FlateDecode" ]) ]);
         ((3, 0), PDFDict [ ("Type", PDFName "Catalog"); ("Pages", PDFRef 4 0) ]);
         ((4, 0), PDFDict [ ("Type", PDFName "Pages");
                            ("Kids", PDFArray [ PDFRef 5 0 ]);
                            ("Count", PDFNumber 1) ]);
         ((5, 0), PDFDict [ ("Type", PDFName "Page"); ("Parent", PDFRef 4 0) ]) ];
     largestObjectNumber := 5;
     trailer_ID := None;
     trailer_Encrypt := None;
     trailer_Root := Some (PDFRef 3 0) |}.

Local Close Scope string_scope.
(* ################################################################# *)
(** * Bytes: arithmetic facts *)

Lemma to_N_lt_256 (b : byte) : (Byte.to_N b < 256)%N.
Proof. pose proof (Byte.to_N_bounded b). lia. Qed.

Lemma to_N_byte_of_N (n : N) : Byte.to_N (byte_of_N n) = (n mod 256)%N.
Proof.
  unfold byte_of_N.
  destruct (Byte.of_N (n mod 256)) as [b|] eqn:E.
  - now apply Byte.to_of_N.
  - apply Byte.of_N_None_iff in E.
    pose proof (N.mod_upper_bound n 256). lia.
Qed.

Lemma byte_of_N_to_N (b : byte) : byte_of_N (Byte.to_N b) = b.
Proof.
  unfold byte_of_N.
  rewrite N.mod_small by apply to_N_lt_256.
  now rewrite Byte.of_to_N.
Qed.

Lemma to_N_inj (a b : byte) : Byte.to_N a = Byte.to_N b -> a = b.
Proof.
  intros E. rewrite <- (byte_of_N_to_N a), <- (byte_of_N_to_N b). now rewrite E.
Qed.

Lemma lxor_lt_256 (a b : N) : (a < 256 -> b < 256 -> N.lxor a b < 256)%N.
Proof.
  intros Ha Hb.
  destruct (N.eq_dec (N.lxor a b) 0) as [E|E]; [rewrite E; lia|].
  change 256%N with (2 ^ 8)%N.
  apply N.log2_lt_pow2; [lia|].
  pose proof (N.log2_lxor a b) as L.
  assert (N.log2 a < 8)%N.
  { destruct (N.eq_dec a 0) as [->|]; [cbn; lia|]. apply N.log2_lt_pow2; [lia|exact Ha]. }
  assert (N.log2 b < 8)%N.
  { destruct (N.eq_dec b 0) as [->|]; [cbn; lia|]. apply N.log2_lt_pow2; [lia|exact Hb]. }
  lia.
Qed.

Lemma to_N_byte_xor (a b : byte) :
  Byte.to_N (byte_xor a b) = N.lxor (Byte.to_N a) (Byte.to_N b).
Proof.
  unfold byte_xor. rewrite to_N_byte_of_N.
  apply N.mod_small, lxor_lt_256; apply to_N_lt_256.
Qed.

Lemma byte_xor_comm (a b : byte) : byte_xor a b = byte_xor b a.
Proof. apply to_N_inj. rewrite !to_N_byte_xor. apply N.lxor_comm. Qed.

Lemma byte_xor_assoc (a b c : byte) :
  byte_xor a (byte_xor b c) = byte_xor (byte_xor a b) c.
Proof. apply to_N_inj. rewrite !to_N_byte_xor. symmetry. apply N.lxor_assoc. Qed.

Lemma byte_xor_nilpotent (a : byte) : byte_xor a a = x00.
Proof. apply to_N_inj. rewrite to_N_byte_xor, N.lxor_nilpotent. reflexivity. Qed.

Lemma byte_xor_0_l (a : byte) : byte_xor x00 a = a.
Proof. apply to_N_inj. rewrite to_N_byte_xor. apply N.lxor_0_l. Qed.

Lemma byte_xor_0_r (a : byte) : byte_xor a x00 = a.
Proof. rewrite byte_xor_comm. apply byte_xor_0_l. Qed.

Lemma byte_xor_cancel_l (a b : byte) : byte_xor a (byte_xor a b) = b.
Proof. now rewrite byte_xor_assoc, byte_xor_nilpotent, byte_xor_0_l. Qed.

(** Two arrays of the same length with the same elements are equal. *)
Lemma bytes_ext (n : nat) (a b : bytes) :
  length a = n -> length b = n ->
  (forall i, i < n -> at_ a i = at_ b i) -> a = b.
Proof.
  intros Ha Hb H. apply (nth_ext a b x00 x00); [congruence|].
  intros i Hi. apply H. lia.
Qed.

Lemma xor16_length (a b : bytes) : length (xor16 a b) = 16.
Proof. unfold xor16. now rewrite length_map, length_seq. Qed.

Lemma at_xor16 (a b : bytes) (i : nat) :
  i < 16 -> at_ (xor16 a b) i = byte_xor (at_ a i) (at_ b i).
Proof.
  intros Hi. unfold at_ at 1, xor16.
  rewrite (nth_indep _ x00 (byte_xor (at_ a 0) (at_ b 0)))
    by now rewrite length_map, length_seq.
  change (byte_xor (at_ a 0) (at_ b 0))
    with ((fun i => byte_xor (at_ a i) (at_ b i)) 0).
  rewrite map_nth, seq_nth by exact Hi. reflexivity.
Qed.

Lemma at_repeat (b : byte) (n i : nat) : i < n -> at_ (repeat b n) i = b.
Proof. intros Hi. unfold at_. now apply nth_repeat_lt. Qed.

Lemma xor16_zeros_l (b : bytes) : length b = 16 -> xor16 (zeros 16) b = b.
Proof.
  intros Hb. apply (bytes_ext 16); [apply xor16_length|exact Hb|].
  intros i Hi. rewrite at_xor16 by exact Hi.
  unfold zeros. rewrite at_repeat by exact Hi. apply byte_xor_0_l.
Qed.

Lemma xor16_cancel (a b : bytes) : length b = 16 -> xor16 a (xor16 a b) = b.
Proof.
  intros Hb. apply (bytes_ext 16); [apply xor16_length|exact Hb|].
  intros i Hi. rewrite !at_xor16 by exact Hi. apply byte_xor_cancel_l.
Qed.

Lemma xor16_cancel_r (a b : bytes) : length b = 16 -> xor16 a (xor16 b a) = b.
Proof.
  intros Hb. apply (bytes_ext 16); [apply xor16_length|exact Hb|].
  intros i Hi. rewrite !at_xor16 by exact Hi.
  rewrite (byte_xor_comm (at_ b i)). apply byte_xor_cancel_l.
Qed.

(* ################################################################# *)
(** * The host's padded CBC inverts itself *)

Lemma div16 (n k : nat) : n = 16 * k -> n / 16 = k.
Proof. intros ->. rewrite Nat.mul_comm. now apply Nat.div_mul. Qed.

Lemma firstn_exact {A} (n : nat) (c r : list A) :
  length c = n -> firstn n (c ++ r) = c.
Proof.
  intros <-. rewrite firstn_app, firstn_all, Nat.sub_diag.
  cbn [firstn]. apply app_nil_r.
Qed.

Lemma skipn_exact {A} (n : nat) (c r : list A) :
  length c = n -> skipn n (c ++ r) = r.
Proof.
  intros <-. rewrite skipn_app, skipn_all, Nat.sub_diag. reflexivity.
Qed.

Lemma pad_amount (n : nat) : 1 <= 16 - n mod 16 <= 16.
Proof. pose proof (Nat.mod_upper_bound n 16). lia. Qed.

Lemma pkcs7_pad_length (data : bytes) :
  length (pkcs7_pad data) = 16 * (length data / 16 + 1).
Proof.
  unfold pkcs7_pad, filled. rewrite length_app, repeat_length.
  pose proof (Nat.div_mod_eq (length data) 16).
  pose proof (Nat.mod_upper_bound (length data) 16). lia.
Qed.

Lemma forallb_repeat (b : byte) (n : nat) : forallb (Byte.eqb b) (repeat b n) = true.
Proof.
  induction n as [|n IH]; [reflexivity|].
  cbn [repeat forallb]. rewrite IH, andb_true_r.
  now apply Byte.byte_dec_lb.
Qed.

Lemma pkcs7_unpad_app (data : bytes) (n : nat) :
  1 <= n <= 16 ->
  pkcs7_unpad (data ++ filled n (byte_of_N (N.of_nat n))) = OK data.
Proof.
  intros Hn. unfold pkcs7_unpad, filled.
  set (b := byte_of_N (N.of_nat n)).
  assert (Hlast : last (data ++ repeat b n) x00 = b).
  { destruct n as [|n]; [lia|].
    replace (S n) with (n + 1) by lia.
    rewrite repeat_app, app_assoc. cbn [repeat]. apply last_last. }
  assert (Hb : N.to_nat (Byte.to_N b) = n).
  { unfold b. rewrite to_N_byte_of_N, N.mod_small by lia. lia. }
  cbv zeta. rewrite Hlast, Hb, length_app, repeat_length.
  replace (length data + n - n) with (length data) by lia.
  rewrite skipn_exact, firstn_exact by reflexivity.
  rewrite forallb_repeat.
  replace (1 <=? n) with true by (symmetry; apply Nat.leb_le; lia).
  replace (n <=? 16) with true by (symmetry; apply Nat.leb_le; lia).
  replace (n <=? length data + n) with true by (symmetry; apply Nat.leb_le; lia).
  reflexivity.
Qed.

Lemma pkcs7_unpad_pad (data : bytes) : pkcs7_unpad (pkcs7_pad data) = OK data.
Proof. apply pkcs7_unpad_app, pad_amount. Qed.

Section HostCbc.

Variable h : Host.
Hypothesis laws : HostLaws h.

Lemma cbc_encrypt_blocks_length (n : nat) (key prev data : bytes) :
  length key = 32 -> length (cbc_encrypt_blocks h n key prev data) = 16 * n.
Proof.
  intros Hk. revert prev data.
  induction n as [|n IH]; intros prev data; [reflexivity|].
  cbn [cbc_encrypt_blocks]. rewrite length_app, IH.
  rewrite (AES256_length h laws) by (try apply xor16_length; assumption). lia.
Qed.

Lemma cbc_decrypt_blocks_length (n : nat) (key prev data : bytes) :
  length (cbc_decrypt_blocks h n key prev data) = 16 * n.
Proof.
  revert prev data.
  induction n as [|n IH]; intros prev data; [reflexivity|].
  cbn [cbc_decrypt_blocks]. rewrite length_app, IH, xor16_length. lia.
Qed.

Lemma cbc_blocks_roundtrip (n : nat) (key prev data : bytes) :
  length key = 32 -> length data = 16 * n ->
  cbc_decrypt_blocks h n key prev (cbc_encrypt_blocks h n key prev data) = data.
Proof.
  intros Hk. revert prev data.
  induction n as [|n IH]; intros prev data Hd.
  - destruct data; [reflexivity|discriminate].
  - cbn [cbc_encrypt_blocks cbc_decrypt_blocks].
    set (c := AES256 h key (xor16 prev (firstn 16 data))).
    assert (Hc : length c = 16)
      by (apply (AES256_length h laws); [assumption|apply xor16_length]).
    rewrite firstn_exact, skipn_exact by exact Hc.
    unfold c at 1.
    rewrite (AES256_inv_AES256 h laws) by (try apply xor16_length; assumption).
    rewrite xor16_cancel by (rewrite length_firstn; lia).
    rewrite IH by (rewrite length_skipn; lia).
    apply firstn_skipn.
Qed.

Lemma host_cbc_encrypt_length (key iv plaintext : bytes) :
  length key = 32 ->
  length (host_cbc_encrypt h key iv plaintext) = 16 * (length plaintext / 16 + 1).
Proof.
  intros Hk. unfold host_cbc_encrypt.
  rewrite cbc_encrypt_blocks_length by assumption.
  now rewrite (div16 _ _ (pkcs7_pad_length plaintext)).
Qed.

Lemma host_cbc_roundtrip (key iv plaintext : bytes) :
  length key = 32 ->
  host_cbc_decrypt h key iv (host_cbc_encrypt h key iv plaintext) = OK plaintext.
Proof.
  intros Hk. unfold host_cbc_decrypt, host_cbc_decrypt_nopad.
  rewrite host_cbc_encrypt_length by assumption.
  replace ((16 * (length plaintext / 16 + 1)) mod 16) with 0
    by (symmetry; rewrite Nat.mul_comm; apply Nat.Div0.mod_mul).
  cbn [Nat.eqb].
  rewrite (div16 _ _ eq_refl).
  unfold host_cbc_encrypt. rewrite (div16 _ _ (pkcs7_pad_length plaintext)).
  rewrite cbc_blocks_roundtrip by (try apply pkcs7_pad_length; assumption).
  apply pkcs7_unpad_pad.
Qed.

End HostCbc.

(* ################################################################# *)
(** * crypto.ts on a capable host *)

Lemma array_set_0 (dst src : bytes) :
  array_set dst src 0 = src ++ skipn (length src) dst.
Proof. reflexivity. Qed.

Lemma array_set_app (a b src : bytes) :
  length src = length b -> array_set (a ++ b) src (length a) = a ++ src.
Proof.
  intros E. unfold array_set.
  rewrite firstn_exact by reflexivity.
  rewrite skipn_all2 by (rewrite length_app; lia).
  now rewrite app_nil_r.
Qed.

Lemma subarray_0 (a : bytes) (n : nat) : subarray a 0 n = firstn n a.
Proof. unfold subarray. now rewrite Nat.sub_0_r. Qed.

Lemma subarray_block (a : bytes) (i : nat) :
  subarray a i (i + 16) = firstn 16 (skipn i a).
Proof. unfold subarray. f_equal. lia. Qed.

Lemma mod16_mul (n : nat) : n mod 16 = 0 -> n = 16 * (n / 16).
Proof. intros E. pose proof (Nat.div_mod_eq n 16). lia. Qed.

Section CryptoFacts.

Variable h : Host.
Hypothesis laws : HostLaws h.
Hypothesis cap : capable h = true.

Lemma cap_random : has_getRandomValues h = true.
Proof. unfold capable in cap. now apply andb_prop in cap. Qed.

Lemma getNodeCrypto_ok : has_subtle h = false -> getNodeCrypto h = OK tt.
Proof.
  intros E. unfold capable in cap. rewrite E in cap.
  apply andb_prop in cap. destruct cap as [_ N]. cbn in N.
  unfold getNodeCrypto. now rewrite N.
Qed.

Lemma getRandomBytes_ok (n s : nat) :
  getRandomBytes h n s = OK (map (entropy h) (seq s n), s + n).
Proof. unfold getRandomBytes. now rewrite cap_random. Qed.

Lemma sha256_ok (d : bytes) : sha256 h d = OK (SHA256 h d).
Proof.
  unfold sha256. destruct (has_subtle h) eqn:E; [reflexivity|].
  now rewrite getNodeCrypto_ok.
Qed.

Lemma aes256CbcEncrypt_ok (key iv plaintext : bytes) :
  length key = 32 -> length iv = 16 ->
  aes256CbcEncrypt h key iv plaintext = OK (host_cbc_encrypt h key iv plaintext).
Proof.
  intros Hk Hi. unfold aes256CbcEncrypt, KEY_LENGTH, AES_BLOCK_SIZE.
  rewrite Hk, Hi. cbn [Nat.eqb negb orb].
  destruct (has_subtle h) eqn:E; [reflexivity|].
  now rewrite getNodeCrypto_ok.
Qed.

Lemma aes256CbcDecrypt_ok (key iv ciphertext : bytes) :
  length key = 32 -> length iv = 16 -> length ciphertext mod 16 = 0 ->
  aes256CbcDecrypt h key iv ciphertext = host_cbc_decrypt h key iv ciphertext.
Proof.
  intros Hk Hi Hc. unfold aes256CbcDecrypt, KEY_LENGTH, AES_BLOCK_SIZE.
  rewrite Hk, Hi, Hc. cbn [Nat.eqb negb orb].
  destruct (has_subtle h) eqn:E; [reflexivity|].
  now rewrite getNodeCrypto_ok.
Qed.

(** On one block the padded primitive under a zero IV starts with the block
    enciphered: [aes256EcbEncrypt] is the cipher function. *)
Lemma host_cbc_encrypt_first_block (key block : bytes) :
  length key = 32 -> length block = 16 ->
  subarray (host_cbc_encrypt h key (zeros 16) block) 0 16 = AES256 h key block.
Proof.
  intros Hk Hb. rewrite subarray_0. unfold host_cbc_encrypt.
  rewrite (div16 _ _ (pkcs7_pad_length block)), Hb.
  change (16 / 16 + 1) with 2. cbn [cbc_encrypt_blocks].
  unfold pkcs7_pad. rewrite (firstn_exact 16 block _ Hb).
  rewrite xor16_zeros_l by exact Hb.
  apply firstn_exact. now apply (AES256_length h laws).
Qed.

Lemma aes256EcbEncrypt_ok (key block : bytes) :
  length key = 32 -> length block = 16 ->
  aes256EcbEncrypt h key block = OK (AES256 h key block).
Proof.
  intros Hk Hb. unfold aes256EcbEncrypt, KEY_LENGTH, AES_BLOCK_SIZE.
  rewrite Hk, Hb. cbn [Nat.eqb negb orb].
  rewrite host_cbc_encrypt_first_block by assumption.
  destruct (has_subtle h) eqn:E; [reflexivity|].
  now rewrite getNodeCrypto_ok.
Qed.

(** The two blocks [aes256EcbDecrypt] hands to the padded primitive. *)
Lemma twoBlocks_eq (block c2 : bytes) :
  length block = 16 -> length c2 = 16 ->
  array_set (array_set (zeros 32) block 0) c2 16 = block ++ c2.
Proof.
  intros Hb Hc. rewrite array_set_0, Hb.
  change (skipn 16 (zeros 32)) with (zeros 16).
  rewrite <- Hb at 2. apply array_set_app. now rewrite Hc.
Qed.

(** Padded decryption of the two blocks: the wanted block, then a block of
    sixteen bytes 0x10. *)
Lemma two_block_trick (key block : bytes) :
  length key = 32 -> length block = 16 ->
  host_cbc_decrypt_nopad h key (zeros 16)
    (block ++ AES256 h key (xor16 (filled 16 x10) block))
  = AES256_inv h key block ++ filled 16 x10.
Proof.
  intros Hk Hb.
  set (c2 := AES256 h key (xor16 (filled 16 x10) block)).
  assert (Hc2 : length c2 = 16)
    by (apply (AES256_length h laws); [assumption|apply xor16_length]).
  unfold host_cbc_decrypt_nopad.
  rewrite length_app, Hb, Hc2. change ((16 + 16) / 16) with 2.
  cbn [cbc_decrypt_blocks].
  rewrite firstn_exact, skipn_exact by exact Hb.
  rewrite firstn_all2 by lia.
  rewrite xor16_zeros_l by now apply (AES256_inv_length h laws).
  unfold c2. rewrite (AES256_inv_AES256 h laws) by (try apply xor16_length; assumption).
  rewrite xor16_cancel_r by reflexivity.
  now rewrite app_nil_r.
Qed.

Lemma aes256EcbDecrypt_ok (key block : bytes) :
  length key = 32 -> length block = 16 ->
  aes256EcbDecrypt h key block = OK (AES256_inv h key block).
Proof.
  intros Hk Hb.
  assert (Hd : length (AES256_inv h key block) = 16)
    by now apply (AES256_inv_length h laws).
  unfold aes256EcbDecrypt, KEY_LENGTH, AES_BLOCK_SIZE.
  rewrite Hk, Hb. cbn [Nat.eqb negb orb].
  destruct (has_subtle h) eqn:E.
  - rewrite aes256EcbEncrypt_ok by (try apply xor16_length; assumption).
    cbn [bind].
    rewrite twoBlocks_eq
      by (try apply (AES256_length h laws); try apply xor16_length; assumption).
    unfold host_cbc_decrypt.
    rewrite length_app, Hb, (AES256_length h laws)
      by (try apply xor16_length; assumption).
    change ((16 + 16) mod 16 =? 0) with true. cbv iota.
    rewrite two_block_trick by assumption.
    apply (pkcs7_unpad_app (AES256_inv h key block) 16). lia.
  - rewrite getNodeCrypto_ok by exact E. cbn [bind].
    unfold host_cbc_decrypt_nopad. rewrite Hb.
    change (16 / 16) with 1. cbn [cbc_decrypt_blocks].
    rewrite firstn_all2 by lia.
    rewrite xor16_zeros_l by exact Hd.
    now rewrite app_nil_r.
Qed.

(** The unpadded chained modes are the chaining of the host, without the
    padding. *)
Lemma encryptNoPadding_loop_ok (n : nat) (key prev plaintext : bytes) (i : nat) :
  length key = 32 ->
  encryptNoPadding_loop h n key prev plaintext i
  = OK (cbc_encrypt_blocks h n key prev (skipn i plaintext)).
Proof.
  intros Hk. revert prev i.
  induction n as [|n IH]; intros prev i; [reflexivity|].
  cbn [encryptNoPadding_loop cbc_encrypt_blocks]. unfold AES_BLOCK_SIZE.
  rewrite subarray_block.
  rewrite aes256EcbEncrypt_ok by (try apply xor16_length; assumption).
  cbn [bind]. rewrite IH. cbn [bind].
  now rewrite skipn_skipn, (Nat.add_comm 16 i).
Qed.

Lemma decryptNoPadding_loop_ok (n : nat) (key prev ciphertext : bytes) (i : nat) :
  length key = 32 -> i + 16 * n <= length ciphertext ->
  decryptNoPadding_loop h n key prev ciphertext i
  = OK (cbc_decrypt_blocks h n key prev (skipn i ciphertext)).
Proof.
  intros Hk. revert prev i.
  induction n as [|n IH]; intros prev i Hl; [reflexivity|].
  cbn [decryptNoPadding_loop cbc_decrypt_blocks]. unfold AES_BLOCK_SIZE.
  rewrite subarray_block.
  rewrite aes256EcbDecrypt_ok
    by (try (rewrite length_firstn, length_skipn; lia); assumption).
  cbn [bind]. rewrite IH by lia. cbn [bind].
  now rewrite skipn_skipn, (Nat.add_comm 16 i).
Qed.

Lemma aes256CbcEncryptNoPadding_ok (key iv plaintext : bytes) :
  length key = 32 -> length iv = 16 -> length plaintext mod 16 = 0 ->
  aes256CbcEncryptNoPadding h key iv plaintext
  = OK (cbc_encrypt_blocks h (length plaintext / 16) key iv plaintext).
Proof.
  intros Hk Hi Hp. unfold aes256CbcEncryptNoPadding, AES_BLOCK_SIZE.
  rewrite Hp, Hi. cbn [Nat.eqb negb orb].
  now rewrite encryptNoPadding_loop_ok.
Qed.

Lemma aes256CbcDecryptNoPadding_ok (key iv ciphertext : bytes) :
  length key = 32 -> length iv = 16 -> length ciphertext mod 16 = 0 ->
  aes256CbcDecryptNoPadding h key iv ciphertext
  = OK (cbc_decrypt_blocks h (length ciphertext / 16) key iv ciphertext).
Proof.
  intros Hk Hi Hc. unfold aes256CbcDecryptNoPadding, AES_BLOCK_SIZE.
  rewrite Hc, Hi. cbn [Nat.eqb negb orb].
  rewrite decryptNoPadding_loop_ok; [reflexivity|assumption|].
  pose proof (mod16_mul _ Hc). lia.
Qed.

End CryptoFacts.

(* ################################################################# *)
(** * kdf.ts on a capable host *)


Lemma drawn_length (h : Host) (s n : nat) : length (drawn h s n) = n.
Proof. unfold drawn. now rewrite length_map, length_seq. Qed.

Lemma permsBlock_length (h : Host) (p : Z) (m : bool) (s : nat) :
  length (rev5_permsBlock h p m s) = 16.
Proof. reflexivity. Qed.

Section KdfFacts.

Variable h : Host.
Hypothesis laws : HostLaws h.
Hypothesis cap : capable h = true.

Lemma computeRev5Keys_ok (params : Rev5EncryptParams) (s : nat) :
  computeRev5Keys h params s = OK (rev5_keys h params s, s + 68).
Proof.
  unfold computeRev5Keys, rbind, lift, ret.
  rewrite !(getRandomBytes_ok h cap), !(sha256_ok h cap).
  rewrite !(aes256CbcEncryptNoPadding_ok h laws cap)
    by (try apply (SHA256_length h laws); reflexivity).
  rewrite !(getRandomBytes_ok h cap), !(sha256_ok h cap).
  rewrite !(aes256CbcEncryptNoPadding_ok h laws cap)
    by (try apply (SHA256_length h laws); reflexivity).
  rewrite !(getRandomBytes_ok h cap).
  rewrite (aes256EcbEncrypt_ok h laws cap) by reflexivity.
  unfold rev5_keys, rev5_O, rev5_U, rev5_permsBlock, drawn, concat.
  cbn [List.concat]. rewrite !app_nil_r, !length_map, !length_seq.
  change (32 / 16) with 2.
  repeat (f_equal; try lia).
Qed.

End KdfFacts.

Lemma compareBytes_refl (a : bytes) : compareBytes a a = 0%Z.
Proof.
  unfold compareBytes. rewrite Nat.eqb_refl. cbn [negb].
  replace (forallb _ _) with true; [reflexivity|].
  symmetry. apply forallb_forall. intros i _. now apply Byte.byte_dec_lb.
Qed.

Lemma compareBytes_0 (a b : bytes) : compareBytes a b = 0%Z -> a = b.
Proof.
  unfold compareBytes.
  destruct (length a =? length b) eqn:E; cbn [negb]; [|discriminate].
  apply Nat.eqb_eq in E.
  destruct (forallb _ _) eqn:F; [intros _|discriminate].
  apply (bytes_ext (length a)); [reflexivity|now symmetry|].
  intros i Hi. rewrite forallb_forall in F.
  apply Byte.byte_dec_bl, F, in_seq. lia.
Qed.

Lemma compareBytes_eqb (a b : bytes) :
  (compareBytes a b =? 0)%Z = true <-> a = b.
Proof.
  split.
  - intros E. apply Z.eqb_eq in E. now apply compareBytes_0.
  - intros ->. now rewrite compareBytes_refl.
Qed.

Section KdfRecovery.

Variable h : Host.
Hypothesis laws : HostLaws h.
Hypothesis cap : capable h = true.

Lemma deriveFileKeyFromPassword_ok (password : jsstring) (U O OE UE : bytes) :
  length OE = 32 -> length UE = 32 ->
  deriveFileKeyFromPassword h password U O OE UE
  = OK (recovered h (preparePassword password) U O OE UE).
Proof.
  intros HOE HUE.
  unfold deriveFileKeyFromPassword, recovered, matches_user, matches_owner, concat.
  cbn [List.concat]. rewrite !app_nil_r.
  rewrite !(sha256_ok h cap). cbn [bind].
  rewrite !(aes256CbcDecryptNoPadding_ok h laws cap)
    by (try apply (SHA256_length h laws); try rewrite HOE; try rewrite HUE; reflexivity).
  rewrite HOE, HUE. change (32 / 16) with 2.
  unfold try_key. rewrite !cbc_decrypt_blocks_length.
  change (16 * 2 =? 32) with true. cbv iota.
  destruct (compareBytes _ (subarray U 0 32) =? 0)%Z; [reflexivity|].
  destruct (compareBytes _ (subarray O 0 32) =? 0)%Z; reflexivity.
Qed.

Lemma rev5_U_length (userPwd : bytes) (s : nat) : length (rev5_U h userPwd s) = 48.
Proof.
  unfold rev5_U. rewrite !length_app, !drawn_length, (SHA256_length h laws).
  reflexivity.
Qed.

Lemma rev5_O_length (userPwd ownerPwd : bytes) (s : nat) :
  length (rev5_O h userPwd ownerPwd s) = 48.
Proof.
  unfold rev5_O. rewrite !length_app, !drawn_length, (SHA256_length h laws).
  reflexivity.
Qed.

(** The three parts of a 48-byte password record. *)
Lemma material_parts (hash vs ks : bytes) :
  length hash = 32 -> length vs = 8 -> length ks = 8 ->
  subarray (hash ++ vs ++ ks) 0 32 = hash
  /\ subarray (hash ++ vs ++ ks) 32 40 = vs
  /\ subarray (hash ++ vs ++ ks) 40 48 = ks.
Proof.
  intros Hh Hv Hk. unfold subarray.
  change (32 - 0) with 32. change (40 - 32) with 8. change (48 - 40) with 8.
  repeat split.
  - rewrite skipn_O. now apply firstn_exact.
  - rewrite (skipn_exact 32 hash _ Hh). now apply firstn_exact.
  - change 40 with (8 + 32).
    rewrite <- skipn_skipn, (skipn_exact 32 hash _ Hh), (skipn_exact 8 vs _ Hv).
    rewrite <- Hk. apply firstn_all.
Qed.

Lemma rev5_U_parts (userPwd : bytes) (s : nat) :
  subarray (rev5_U h userPwd s) 0 32 = SHA256 h (userPwd ++ drawn h (s + 32) 8)
  /\ subarray (rev5_U h userPwd s) 32 40 = drawn h (s + 32) 8
  /\ subarray (rev5_U h userPwd s) 40 48 = drawn h (s + 40) 8.
Proof.
  apply material_parts;
    [apply (SHA256_length h laws)|apply drawn_length|apply drawn_length].
Qed.

Lemma rev5_O_parts (userPwd ownerPwd : bytes) (s : nat) :
  subarray (rev5_O h userPwd ownerPwd s) 0 32
    = SHA256 h (ownerPwd ++ drawn h (s + 48) 8 ++ rev5_U h userPwd s)
  /\ subarray (rev5_O h userPwd ownerPwd s) 32 40 = drawn h (s + 48) 8
  /\ subarray (rev5_O h userPwd ownerPwd s) 40 48 = drawn h (s + 56) 8.
Proof.
  apply material_parts;
    [apply (SHA256_length h laws)|apply drawn_length|apply drawn_length].
Qed.

Lemma unwrap_wrapped (key fileKey : bytes) :
  length key = 32 -> length fileKey = 32 ->
  cbc_decrypt_blocks h 2 key ZERO_IV (cbc_encrypt_blocks h 2 key ZERO_IV fileKey)
  = fileKey.
Proof. intros Hk Hf. now apply cbc_blocks_roundtrip. Qed.

End KdfRecovery.

(* ################################################################# *)
(** * Hex strings read back *)

Lemma parseHexPair_byteToHex (b : byte) :
  hex_asBytes (byteToHex b) = [b].
Proof. destruct b; reflexivity. Qed.

Lemma hex_asBytes_bytesToHex (bs : bytes) : hex_asBytes (bytesToHex bs) = bs.
Proof.
  induction bs as [|b bs IH]; [reflexivity|].
  cbn [bytesToHex]. unfold byteToHex. cbn [String.append hex_asBytes].
  rewrite IH. f_equal.
  pose proof (parseHexPair_byteToHex b) as E. unfold byteToHex in E.
  cbn [hex_asBytes] in E. now injection E.
Qed.

(* ################################################################# *)
(** * One payload: [encryptObject] and [decryptObject] *)

Lemma skipn_repeat_add {A} (x : A) (n m : nat) :
  skipn n (repeat x (n + m)) = repeat x m.
Proof. rewrite repeat_app. apply skipn_exact, repeat_length. Qed.

Section ObjectFacts.

Variable h : Host.
Hypothesis laws : HostLaws h.
Hypothesis cap : capable h = true.

Lemma encryptObject_ok (data fileKey : bytes) (s : nat) :
  length fileKey = 32 ->
  encryptObject h data fileKey s = OK (encrypted_at h data fileKey s, s + 16).
Proof.
  intros Hk. unfold encryptObject, rbind, lift, ret, IV_LEN.
  rewrite (getRandomBytes_ok h cap).
  rewrite (aes256CbcEncrypt_ok h cap) by (try apply drawn_length; assumption).
  fold (drawn h s 16). rewrite array_set_0.
  set (iv := drawn h s 16). set (ct := host_cbc_encrypt h fileKey iv data).
  assert (Hiv : length iv = 16) by apply drawn_length.
  unfold zeros. rewrite skipn_repeat_add.
  rewrite (array_set_app iv (repeat x00 (length ct)) ct)
    by now rewrite repeat_length.
  reflexivity.
Qed.

Lemma encrypted_at_length (data fileKey : bytes) (s : nat) :
  length fileKey = 32 ->
  length (encrypted_at h data fileKey s) = 16 + 16 * (length data / 16 + 1).
Proof.
  intros Hk. unfold encrypted_at.
  now rewrite length_app, drawn_length, (host_cbc_encrypt_length h laws).
Qed.

Lemma decryptObject_encrypted (data fileKey : bytes) (s : nat) :
  length fileKey = 32 ->
  decryptObject h (encrypted_at h data fileKey s) fileKey = OK data.
Proof.
  intros Hk. unfold decryptObject, IV_LEN.
  rewrite encrypted_at_length by assumption.
  replace (16 + 16 * (length data / 16 + 1) <? 16 + 16) with false
    by (symmetry; apply Nat.ltb_ge; lia).
  unfold encrypted_at. rewrite subarray_0.
  rewrite firstn_exact, skipn_exact by apply drawn_length.
  rewrite (aes256CbcDecrypt_ok h cap).
  - now apply host_cbc_roundtrip.
  - assumption.
  - apply drawn_length.
  - rewrite (host_cbc_encrypt_length h laws) by assumption.
    rewrite Nat.mul_comm. apply Nat.Div0.mod_mul.
Qed.

End ObjectFacts.

(* ################################################################# *)
(** * The walkers, loop by loop *)

Section WalkerLoops.

Variable h : Host.
Variable enc : bytes -> Rand bytes.
Variable dec : bytes -> result bytes.

Local Open Scope rand_scope.

Lemma encryptStringsInDict_eq (es : PDFEntries) :
  encryptStringsInDict h enc (PDFDict es)
  = (es' <~ encryptEntries h enc es ;; ret (PDFDict es')).
Proof. reflexivity. Qed.

Lemma encryptStringsInArray_eq (els : list PDFObject) :
  encryptStringsInArray h enc (PDFArray els)
  = (els' <~ encryptElements h enc els ;; ret (PDFArray els')).
Proof. reflexivity. Qed.

Lemma decryptStringsInDict_eq (es : PDFEntries) :
  decryptStringsInDict h dec (PDFDict es) = PDFDict (decryptEntries h dec es).
Proof. reflexivity. Qed.

Lemma decryptStringsInArray_eq (els : list PDFObject) :
  decryptStringsInArray h dec (PDFArray els) = PDFArray (decryptElements h dec els).
Proof. reflexivity. Qed.

End WalkerLoops.

Lemma reserved_Filter (k : string) :
  reserved (key_asString k) = false -> String.eqb k "Filter" = false.
Proof.
  unfold reserved, key_asString. cbn [String.eqb Ascii.eqb Bool.eqb andb].
  intros E. apply orb_false_elim in E. destruct E as [E _].
  apply orb_false_elim in E. now destruct E as [_ E].
Qed.

Lemma encryptEntries_Filter (h : Host) (enc : bytes -> Rand bytes)
  (es es' : PDFEntries) (s s' : nat) :
  encryptEntries h enc es s = OK (es', s') ->
  dict_get es' "Filter" = dict_get es "Filter".
Proof.
  revert es' s s'.
  induction es as [|[k v] es IH]; intros es' s s' E.
  - cbn in E. injection E as <- _. reflexivity.
  - cbn [encryptEntries] in E. unfold rbind, ret in E.
    destruct (reserved (key_asString k)) eqn:R.
    + destruct (encryptEntries h enc es s) as [[rest' s1]|] eqn:E1; [|discriminate].
      injection E as <- _. cbn [dict_get]. now rewrite (IH _ _ _ E1).
    + destruct (encryptValue h enc v s) as [[v' s1]|]; [|discriminate].
      destruct (encryptEntries h enc es s1) as [[rest' s2]|] eqn:E1; [|discriminate].
      injection E as <- _. cbn [dict_get].
      rewrite (reserved_Filter k R). now apply IH with s1 s2.
Qed.

Section WalkRoundTrip.

Variable h : Host.
Hypothesis laws : HostLaws h.
Hypothesis cap : capable h = true.
Variable fileKey : bytes.
Hypothesis fileKey_length : length fileKey = 32.

Let enc := fun data => encryptObject h data fileKey.
Let dec := fun data => decryptObject h data fileKey.

(** A string the encryptor has written decrypts to the bytes it held. *)
Lemma decryptString_encrypted (data : bytes) (s : nat) (value : PDFObject) :
  decryptString dec value (encrypted_at h data fileKey s)
  = PDFHexStringOf (bytesToHex data).
Proof.
  unfold decryptString, IV_LEN.
  rewrite (encrypted_at_length h laws) by assumption.
  replace (16 + 16 * (length data / 16 + 1) <? 16 + 16) with false
    by (symmetry; apply Nat.ltb_ge; lia).
  unfold dec. now rewrite (decryptObject_encrypted h laws cap).
Qed.

Lemma entries_roundtrip (es : PDFEntries) :
  Forall (fun e => value_roundtrip h fileKey (snd e)) es ->
  forall s, exists es' s',
    encryptEntries h enc es s = OK (es', s')
    /\ map (payload_entry h) (decryptEntries h dec es') = map (payload_entry h) es.
Proof.
  unfold enc, dec. induction 1 as [|[k v] es Hv _ IH]; intros s.
  - exists [], s. split; reflexivity.
  - cbn [encryptEntries]. unfold rbind, ret.
    destruct (reserved (key_asString k)) eqn:R.
    + destruct (IH s) as (es' & s' & E & D). rewrite E.
      exists ((k, v) :: es'), s'. split; [reflexivity|].
      cbn [decryptEntries map]. rewrite R, D. reflexivity.
    + destruct (Hv s) as (v' & s1 & E1 & D1). cbn [snd] in E1, D1. rewrite E1.
      destruct (IH s1) as (es' & s' & E & D). rewrite E.
      exists ((k, v') :: es'), s'. split; [reflexivity|].
      cbn [decryptEntries map]. rewrite R, D.
      unfold payload_entry at 1 3. cbn [fst snd]. now rewrite D1.
Qed.

Lemma elements_roundtrip (els : list PDFObject) :
  Forall (element_roundtrip h fileKey) els ->
  forall s, exists els' s',
    encryptElements h enc els s = OK (els', s')
    /\ map (payload_of h) (decryptElements h dec els') = map (payload_of h) els.
Proof.
  unfold enc, dec. induction 1 as [|el els Hel _ IH]; intros s.
  - exists [], s. split; reflexivity.
  - cbn [encryptElements]. unfold rbind, ret.
    destruct (Hel s) as (el' & s1 & E1 & D1). rewrite E1.
    destruct (IH s1) as (els' & s' & E & D). rewrite E.
    exists (el' :: els'), s'. split; [reflexivity|].
    cbn [decryptElements map]. now rewrite D1, D.
Qed.

Lemma dict_roundtrip (es : PDFEntries) :
  Forall (fun e => value_roundtrip h fileKey (snd e)) es ->
  forall s, exists es' s',
    encryptStringsInDict h enc (PDFDict es) s = OK (PDFDict es', s')
    /\ encryptEntries h enc es s = OK (es', s')
    /\ payload_of h (decryptStringsInDict h dec (PDFDict es'))
       = payload_of h (PDFDict es).
Proof.
  intros H s. destruct (entries_roundtrip es H s) as (es' & s' & E & D).
  exists es', s'. rewrite encryptStringsInDict_eq. unfold rbind, ret.
  rewrite E. repeat split.
  rewrite decryptStringsInDict_eq. cbn [payload_of].
  f_equal. exact D.
Qed.

Lemma array_roundtrip (els : list PDFObject) :
  Forall (element_roundtrip h fileKey) els ->
  forall s, exists els' s',
    encryptStringsInArray h enc (PDFArray els) s = OK (PDFArray els', s')
    /\ payload_of h (decryptStringsInArray h dec (PDFArray els'))
       = payload_of h (PDFArray els).
Proof.
  intros H s. destruct (elements_roundtrip els H s) as (els' & s' & E & D).
  exists els', s'. rewrite encryptStringsInArray_eq. unfold rbind, ret.
  rewrite E. split; [reflexivity|].
  rewrite decryptStringsInArray_eq. cbn [payload_of].
  f_equal. exact D.
Qed.

Lemma string_roundtrip (data : bytes) (s : nat) :
  exists v' s',
    (encrypted <~ enc data ;; ret (PDFHexStringOf (bytesToHex encrypted)))%rand s
    = OK (v', s')
    /\ payload_of h (decryptValue h dec v') = PDFHexString (bytesToHex data).
Proof.
  unfold rbind, ret, enc.
  rewrite (encryptObject_ok h cap) by assumption.
  eexists _, _. split; [reflexivity|].
  unfold PDFHexStringOf. cbn [decryptValue].
  rewrite hex_asBytes_bytesToHex, decryptString_encrypted.
  unfold PDFHexStringOf. cbn [payload_of].
  now rewrite hex_asBytes_bytesToHex.
Qed.

Lemma object_roundtrip (o : PDFObject) : value_roundtrip h fileKey o /\ element_roundtrip h fileKey o.
Proof.
  induction o as [| | | |v|v| |a IH|d IH|d c IH] using PDFObject_nested_ind;
    try (split; intros s; eexists _, _; split; reflexivity).
  - (* literal string *)
    split; [|intros s; eexists _, _; split; reflexivity].
    intros s. apply string_roundtrip.
  - (* hex string *)
    split; [|intros s; eexists _, _; split; reflexivity].
    intros s. apply string_roundtrip.
  - (* array *)
    assert (H : Forall (element_roundtrip h fileKey) a)
      by (eapply Forall_impl; [|exact IH]; now intros x [_ Hx]).
    split; intros s;
      destruct (array_roundtrip a H s) as (els' & s' & E & D);
      exists (PDFArray els'), s'; split; assumption.
  - (* dictionary *)
    assert (H : Forall (fun e => value_roundtrip h fileKey (snd e)) d)
      by (eapply Forall_impl; [|exact IH]; now intros x [Hx _]).
    split; intros s;
      destruct (dict_roundtrip d H s) as (es' & s' & E & _ & D);
      exists (PDFDict es'), s'; split; assumption.
Qed.

End WalkRoundTrip.

(* ################################################################# *)
(** * The loops over the indirect objects *)

Section IndirectRoundTrip.

Variable h : Host.
Hypothesis laws : HostLaws h.
Hypothesis cap : capable h = true.
Variable fileKey : bytes.
Hypothesis fileKey_length : length fileKey = 32.

Let enc := fun data => encryptObject h data fileKey.
Let dec := fun data => decryptObject h data fileKey.

Lemma indirect_roundtrip (obj : PDFObject) :
  filter_typed obj = true ->
  forall s, exists obj' s',
    encryptIndirect h enc obj s = OK (obj', s')
    /\ exists obj'',
         decryptIndirect h dec obj' = OK obj''
         /\ payload_of h obj'' = payload_of h obj.
Proof.
  unfold filter_typed, enc, dec. intros T s.
  destruct (isStandardFilter obj) as [skip|] eqn:F; [clear T|discriminate].
  unfold encryptIndirect, rbind, lift, ret. rewrite F.
  destruct skip.
  { (* skipped by both loops *)
    exists obj, s. split; [reflexivity|].
    exists obj. unfold decryptIndirect. rewrite F. split; reflexivity. }
  destruct obj as [| | | | | | |a|d|d c];
    try (eexists _, _; split; [reflexivity|]; eexists; split; reflexivity).
  - (* array *)
    destruct (proj2 (object_roundtrip h laws cap fileKey fileKey_length (PDFArray a)) s)
      as (o' & s' & E & D).
    cbn [encryptElement] in E. rewrite E.
    rewrite encryptStringsInArray_eq in E. unfold rbind, ret in E.
    destruct (encryptElements h _ a s) as [[els' s1]|]; [|discriminate].
    injection E as <- <-.
    eexists _, _. split; [reflexivity|].
    eexists. split; [reflexivity|]. exact D.
  - (* dictionary *)
    destruct (proj1 (object_roundtrip h laws cap fileKey fileKey_length (PDFDict d)) s)
      as (o' & s' & E & D).
    cbn [encryptValue] in E. rewrite E.
    rewrite encryptStringsInDict_eq in E. unfold rbind, ret in E.
    destruct (encryptEntries h _ d s) as [[es' s1]|] eqn:E1; [|discriminate].
    injection E as <- <-.
    eexists _, _. split; [reflexivity|].
    unfold decryptIndirect.
    replace (isStandardFilter (PDFDict es')) with (OK false : result bool)
      by (rewrite <- F; cbn [isStandardFilter];
          now rewrite (encryptEntries_Filter h _ d es' s s1 E1)).
    cbn [bind]. eexists. split; [reflexivity|]. exact D.
  - (* stream *)
    rewrite (encryptObject_ok h cap) by assumption.
    eexists _, _. split; [reflexivity|].
    unfold decryptIndirect. cbn [isStandardFilter bind].
    rewrite (decryptObject_encrypted h laws cap) by assumption.
    cbn [bind]. eexists. split; reflexivity.
Qed.

Lemma objects_roundtrip (objs : list ((nat * nat) * PDFObject)) :
  forallb (fun e => filter_typed (snd e)) objs = true ->
  forall s, exists objs' s',
    encryptIndirectObjects h enc objs s = OK (objs', s')
    /\ exists objs'',
         decryptIndirectObjects h dec objs' = (objs'', OK tt)
         /\ map (payload_indirect h) objs'' = map (payload_indirect h) objs.
Proof.
  unfold enc, dec. induction objs as [|[ref obj] objs IH]; intros T s.
  - exists [], s. split; [reflexivity|]. exists []. split; reflexivity.
  - cbn [forallb snd] in T. apply andb_prop in T. destruct T as [T1 T2].
    destruct (indirect_roundtrip obj T1 s) as (obj' & s1 & E1 & obj'' & D1 & P1).
    destruct (IH T2 s1) as (objs' & s' & E & objs'' & D & P).
    unfold enc, dec in *.
    cbn [encryptIndirectObjects]. unfold rbind, ret. rewrite E1, E.
    eexists _, _. split; [reflexivity|].
    cbn [decryptIndirectObjects]. rewrite D1, D.
    eexists. split; [reflexivity|].
    cbn [map]. rewrite P. unfold payload_indirect at 1 3. cbn [fst snd].
    now rewrite P1.
Qed.

End IndirectRoundTrip.

Lemma decryptIndirectObjects_app (h : Host) (dec : bytes -> result bytes)
  (a a' b : list ((nat * nat) * PDFObject)) :
  decryptIndirectObjects h dec a = (a', OK tt) ->
  decryptIndirectObjects h dec (a ++ b)
  = (a' ++ fst (decryptIndirectObjects h dec b),
     snd (decryptIndirectObjects h dec b)).
Proof.
  revert a'. induction a as [|[ref obj] a IH]; intros a' E.
  - cbn in E. injection E as <-. cbn [app].
    now destruct (decryptIndirectObjects h dec b).
  - cbn [app decryptIndirectObjects] in *.
    destruct (decryptIndirect h dec obj) as [obj'|]; [|discriminate].
    destruct (decryptIndirectObjects h dec a) as [rest' r] eqn:Ea.
    injection E as <- ->.
    rewrite (IH rest' eq_refl). reflexivity.
Qed.

(** Encryption keeps the references and the number of objects. *)
Lemma encryptIndirectObjects_refs (h : Host) (enc : bytes -> Rand bytes)
  (objs objs' : list ((nat * nat) * PDFObject)) (s s' : nat) :
  encryptIndirectObjects h enc objs s = OK (objs', s') ->
  map fst objs' = map fst objs.
Proof.
  revert objs' s s'. induction objs as [|[ref obj] objs IH]; intros objs' s s' E.
  - cbn in E. injection E as <- _. reflexivity.
  - cbn [encryptIndirectObjects] in E. unfold rbind, ret in E.
    destruct (encryptIndirect h enc obj s) as [[obj' s1]|]; [|discriminate].
    destruct (encryptIndirectObjects h enc objs s1) as [[rest' s2]|] eqn:E1;
      [|discriminate].
    injection E as <- _. cbn [map fst]. f_equal. now apply IH with s1 s2.
Qed.

(* ################################################################# *)
(** * [save]: what it writes *)

Lemma save_inv (h : Host) (c E : PDFContext) :
  save h c = OK E -> E = updateDicts c.
Proof.
  unfold save. destruct (Pages c) as [pages|]; [|discriminate]. cbn [bind].
  destruct (traverse (stack_depth h) c pages) as [count|]; [|discriminate].
  cbn [bind]. destruct (if count =? 0 then addPage h c pages else OK tt);
    [|discriminate].
  cbn [bind]. now intros [= <-].
Qed.

Lemma save_pages (h : Host) (c : PDFContext) :
  has_pages h c -> save h c = OK (updateDicts c).
Proof.
  intros [n H]. unfold getPageCount in H. unfold save.
  destruct (Pages c) as [pages|]; [|discriminate]. cbn [bind] in *.
  now rewrite H.
Qed.

(** [save], and so both entry points, throws on a document without a
    catalog and on one whose catalog has no page tree; it returns on one
    whose page tree is empty (the value is then short of the page [save]
    adds), and on the samples, which have a page. *)
Example save_samples :
  save web_host no_catalog_document = Throw TypeError
  /\ encryptPDF web_host no_catalog_document (js "user123") None no_options 0
     = Throw TypeError
  /\ save web_host no_pages_document = Throw UnexpectedObjectType
  /\ getPageCount web_host no_page_document = OK 0
  /\ save web_host no_page_document = OK no_page_document
  /\ getPageCount web_host sample_document = OK 1
  /\ getPageCount web_host one_leaf = OK 1.
Proof. repeat split; vm_compute; reflexivity. Qed.

Lemma dict_set_twice (d : PDFEntries) (k : string) (v w : PDFObject) :
  dict_set (dict_set d k v) k w = dict_set d k w.
Proof.
  induction d as [|[k' x] d IH]; cbn [dict_set].
  - now rewrite String.eqb_refl.
  - destruct (String.eqb k' k) eqn:E; cbn [dict_set]; rewrite E; [reflexivity|].
    now rewrite IH.
Qed.

Lemma updateDict_idem (o : PDFObject) : updateDict (updateDict o) = updateDict o.
Proof. destruct o; try reflexivity. cbn [updateDict]. now rewrite dict_set_twice. Qed.

Lemma indirect_get_map (f : PDFObject -> PDFObject)
  (objs : list ((nat * nat) * PDFObject)) (r : nat * nat) :
  indirect_get (map (fun e => (fst e, f (snd e))) objs) r
  = option_map f (indirect_get objs r).
Proof.
  induction objs as [|[r' o] objs IH]; [reflexivity|].
  cbn [map indirect_get fst snd]. now destruct (ref_eqb r' r).
Qed.

Lemma indirect_get_app (objs : list ((nat * nat) * PDFObject)) (r0 : nat * nat)
  (o : PDFObject) (r : nat * nat) :
  indirect_get (objs ++ [(r0, o)]) r
  = match indirect_get objs r with
    | Some x => Some x
    | None => if ref_eqb r0 r then Some o else None
    end.
Proof.
  induction objs as [|[r' x] objs IH]; [reflexivity|].
  cbn [app indirect_get]. now destruct (ref_eqb r' r).
Qed.

(** The descriptor is a dictionary, which the writer leaves as it is. *)
Lemma context_lookup_updateDicts (c : PDFContext) (v : PDFObject) :
  context_lookup (updateDicts c) v
  = match v with
    | PDFRef _ _ => option_map updateDict (context_lookup c v)
    | _ => context_lookup c v
    end.
Proof.
  destruct v; try reflexivity.
  cbn [context_lookup updateDicts indirectObjects]. apply indirect_get_map.
Qed.

Lemma descriptor_updateDicts (c : PDFContext) :
  descriptor (updateDicts c) = descriptor c.
Proof.
  unfold descriptor. cbn [updateDicts trailer_Encrypt].
  destruct (trailer_Encrypt c) as [r|]; [|reflexivity].
  rewrite context_lookup_updateDicts.
  destruct r; try reflexivity.
  now destruct (context_lookup c _) as [[]|].
Qed.

(* ################################################################# *)
(** * [save]: what it reads *)

Lemma traverse_eq (fuel : nat) (c : PDFContext) (tree : PDFEntries) :
  traverse (S fuel) c tree
  = match dict_lookup c tree "Kids" with
    | Some (PDFArray Kids) => visitKids (traverse fuel c) c Kids
    | _ => Throw UnexpectedObjectType
    end.
Proof.
  cbn [traverse]. destruct (dict_lookup c tree "Kids") as [[| | | | | | |Kids| |]|];
    try reflexivity.
  induction Kids as [|k Kids IH]; [reflexivity|].
  cbn [visitKids]. unfold visitKid at 1. now rewrite <- IH.
Qed.

Lemma dict_get_shape (d : PDFEntries) (k : string) :
  dict_get (map shape_entry d) k = option_map shape (dict_get d k).
Proof.
  induction d as [|[k' v] d IH]; [reflexivity|].
  cbn [map shape_entry dict_get fst snd].
  destruct (String.eqb k' k); [now destruct v|exact IH].
Qed.

Lemma shape_dict_eq (d : PDFEntries) : shape (PDFDict d) = PDFDict (map shape_entry d).
Proof. reflexivity. Qed.

Lemma class_of_shape (d : PDFEntries) : class_of (map shape_entry d) = class_of d.
Proof.
  unfold class_of. rewrite dict_get_shape.
  now destruct (dict_get d "Type") as [[]|].
Qed.

Lemma class_of_alike (d1 d2 : PDFEntries) :
  map shape_entry d1 = map shape_entry d2 -> class_of d1 = class_of d2.
Proof. intros H. now rewrite <- (class_of_shape d1), H, class_of_shape. Qed.

Lemma shape_updateDict (o : PDFObject) : shape (updateDict o) = shape o.
Proof. now destruct o. Qed.

Lemma shape_payload_of (h : Host) (o : PDFObject) : shape (payload_of h o) = shape o.
Proof.
  induction o as [| | | |v|v| |a IH|d IH|d c IH] using PDFObject_nested_ind;
    try reflexivity.
  - cbn [payload_of shape]. f_equal. rewrite map_map.
    apply map_ext_Forall. exact IH.
  - cbn [payload_of shape]. f_equal. rewrite map_map.
    apply map_ext_Forall. eapply Forall_impl; [|exact IH].
    intros [k x] Hx. cbn [fst snd] in *. now rewrite Hx.
Qed.

Ltac shape_cases H y :=
  destruct y; cbn [shape] in H; try discriminate H.

Lemma alike_null (x y : PDFObject) :
  alike x y -> (x = PDFNull <-> y = PDFNull).
Proof.
  intros [H|[P Q]].
  - split; intros ->; [shape_cases H y|shape_cases H x]; reflexivity.
  - split; intros ->; contradiction.
Qed.

Section Alike.

Variable fresh : bool.
Variables c1 c2 : PDFContext.
Hypothesis A : alike_contexts fresh c1 c2.

Lemma context_lookup_alike (v1 v2 : PDFObject) :
  shape v1 = shape v2 ->
  alike_found fresh (context_lookup c1 v1) (context_lookup c2 v2).
Proof.
  intros H. destruct A as [_ G].
  destruct v1; shape_cases H v2;
    try (cbn [context_lookup alike_found]; left; exact H).
  injection H as -> ->. apply G.
Qed.

Lemma dict_lookup_alike (d1 d2 : PDFEntries) (k : string) :
  map shape_entry d1 = map shape_entry d2 ->
  alike_found fresh (dict_lookup c1 d1 k) (dict_lookup c2 d2 k).
Proof.
  intros H.
  assert (G : option_map shape (dict_get d1 k) = option_map shape (dict_get d2 k))
    by now rewrite <- !dict_get_shape, H.
  unfold dict_lookup.
  destruct (dict_get d1 k) as [v1|], (dict_get d2 k) as [v2|]; try discriminate G;
    [|exact I].
  injection G as G. pose proof (context_lookup_alike v1 v2 G) as L.
  destruct (context_lookup c1 v1) as [x|], (context_lookup c2 v2) as [y|];
    cbn [alike_found] in L |- *; try contradiction.
  - pose proof (alike_null x y L) as N.
    destruct x; try (destruct y; try exact L; exfalso;
                     now (discriminate (proj2 N eq_refl))).
    rewrite (proj1 N eq_refl). exact I.
  - destruct L as [F P]. destruct y; try contradiction. now split.
  - exact I.
Qed.

Section Traverse.

Variables rec1 rec2 : PDFEntries -> result nat.
Hypothesis rec_alike : forall t1 t2 n,
    map shape_entry t1 = map shape_entry t2 -> rec1 t1 = OK n -> rec2 t2 = OK n.

Lemma visitKid_alike (k1 k2 : PDFObject) (n : nat) :
  shape k1 = shape k2 ->
  visitKid rec1 c1 k1 = OK n -> visitKid rec2 c2 k2 = OK n.
Proof.
  intros H. pose proof (context_lookup_alike k1 k2 H) as L.
  unfold visitKid.
  destruct (context_lookup c1 k1) as [x|], (context_lookup c2 k2) as [y|];
    cbn [alike_found] in L; try contradiction.
  - destruct L as [L|[P Q]].
    + destruct x; shape_cases L y; try (intros R; exact R).
      injection L as L. rewrite <- (class_of_alike _ _ L).
      destruct (class_of dict); try (intros R; exact R).
      * now apply rec_alike.
      * destruct k1; shape_cases H k2; intros R; exact R.
    + destruct x as [| | | | | | | |d1|]; try contradiction.
      destruct y as [| | | | | | | |d2|]; try contradiction.
      cbn [is_plain] in P, Q. rewrite P, Q. intros R; exact R.
  - destruct L as [_ Q]. destruct y as [| | | | | | | |d2|]; try contradiction.
    cbn [is_plain] in Q. rewrite Q. intros R; exact R.
  - intros R; exact R.
Qed.

Lemma visitKids_alike (kids1 kids2 : list PDFObject) (n : nat) :
  map shape kids1 = map shape kids2 ->
  visitKids rec1 c1 kids1 = OK n -> visitKids rec2 c2 kids2 = OK n.
Proof.
  revert kids2 n. induction kids1 as [|k1 kids1 IH]; intros [|k2 kids2] n H;
    try discriminate H; [intros R; exact R|].
  cbn [map] in H. injection H as H1 H2.
  cbn [visitKids].
  destruct (visitKid rec1 c1 k1) as [a|] eqn:E1; [|discriminate].
  rewrite (visitKid_alike k1 k2 a H1 E1). cbn [bind].
  destruct (visitKids rec1 c1 kids1) as [b|] eqn:E2; [|discriminate].
  now rewrite (IH kids2 b H2 eq_refl).
Qed.

End Traverse.

Lemma traverse_alike (fuel : nat) (t1 t2 : PDFEntries) (n : nat) :
  map shape_entry t1 = map shape_entry t2 ->
  traverse fuel c1 t1 = OK n -> traverse fuel c2 t2 = OK n.
Proof.
  revert t1 t2 n. induction fuel as [|fuel IH]; intros t1 t2 n H; [discriminate|].
  rewrite !traverse_eq.
  pose proof (dict_lookup_alike t1 t2 "Kids" H) as L.
  destruct (dict_lookup c1 t1 "Kids") as [[| | | | | | |K1| |]|]; try discriminate.
  destruct (dict_lookup c2 t2 "Kids") as [y|]; cbn [alike_found] in L;
    [|contradiction].
  destruct L as [L|[P _]]; [|contradiction].
  shape_cases L y. injection L as L.
  apply visitKids_alike; [exact IH|exact L].
Qed.

Lemma Pages_alike (p1 : PDFEntries) :
  Pages c1 = OK p1 ->
  exists p2, Pages c2 = OK p2 /\ map shape_entry p1 = map shape_entry p2.
Proof.
  unfold Pages. destruct A as [R _]. rewrite <- R.
  destruct (trailer_Root c1) as [root|]; [|discriminate].
  pose proof (context_lookup_alike root root eq_refl) as L.
  destruct (context_lookup c1 root) as [[| | | | | | | |cat1|]|]; try discriminate.
  destruct (class_of cat1) eqn:C1; try discriminate.
  destruct (context_lookup c2 root) as [y|]; cbn [alike_found] in L; [|contradiction].
  destruct L as [L|[P _]]; [|cbn [is_plain] in P; congruence].
  shape_cases L y. injection L as L. rewrite <- (class_of_alike _ _ L), C1.
  pose proof (dict_lookup_alike cat1 dict "Pages" L) as L2.
  destruct (dict_lookup c1 cat1 "Pages") as [[| | | | | | | |pages1|]|];
    try discriminate.
  destruct (class_of pages1) eqn:C2; try discriminate.
  destruct (dict_lookup c2 dict "Pages") as [z|]; cbn [alike_found] in L2;
    [|contradiction].
  destruct L2 as [L2|[P _]]; [|cbn [is_plain] in P; congruence].
  shape_cases L2 z. injection L2 as L2. rewrite <- (class_of_alike _ _ L2), C2.
  intros [= <-]. now exists dict0.
Qed.

(** The page count is read off the shapes. *)
Lemma getPageCount_alike (h : Host) (n : nat) :
  getPageCount h c1 = OK n -> getPageCount h c2 = OK n.
Proof.
  unfold getPageCount. destruct (Pages c1) as [p1|] eqn:P1; [|discriminate].
  destruct (Pages_alike p1 P1) as (p2 & -> & S). cbn [bind].
  now apply traverse_alike.
Qed.

Lemma has_pages_alike (h : Host) : has_pages h c1 -> has_pages h c2.
Proof. intros [n H]. exists n. now apply getPageCount_alike. Qed.

End Alike.

Section AlikeStrict.

Variables c1 c2 : PDFContext.
Hypothesis A : alike_contexts false c1 c2.

Lemma ascend_alike (fuel : nat) (t1 t2 : PDFEntries) :
  map shape_entry t1 = map shape_entry t2 ->
  ascend fuel c1 t1 = OK tt -> ascend fuel c2 t2 = OK tt.
Proof.
  revert t1 t2. induction fuel as [|fuel IH]; intros t1 t2 H; [discriminate|].
  cbn [ascend].
  pose proof (dict_lookup_alike false c1 c2 A t1 t2 "Count" H) as L.
  destruct (dict_lookup c1 t1 "Count") as [[| |n1| | | | | | |]|]; try discriminate.
  destruct (dict_lookup c2 t2 "Count") as [y|]; cbn [alike_found] in L;
    [|contradiction].
  destruct L as [L|[P _]]; [|contradiction].
  shape_cases L y.
  assert (G : option_map shape (dict_get t1 "Parent")
              = option_map shape (dict_get t2 "Parent"))
    by now rewrite <- !dict_get_shape, H.
  destruct (dict_get t1 "Parent") as [v1|], (dict_get t2 "Parent") as [v2|];
    try discriminate G; [|intros R; exact R].
  injection G as G.
  pose proof (context_lookup_alike false c1 c2 A v1 v2 G) as L2.
  destruct (context_lookup c1 v1) as [[| | | | | | | |par1|]|]; try discriminate;
    destruct (context_lookup c2 v2) as [z|]; cbn [alike_found] in L2;
    try contradiction; try (destruct L2; discriminate); try (intros R; exact R).
  destruct (class_of par1) eqn:C1; try discriminate.
  destruct L2 as [L2|[P _]]; [|cbn [is_plain] in P; congruence].
  shape_cases L2 z. injection L2 as L2. rewrite <- (class_of_alike _ _ L2), C1.
  now apply IH.
Qed.

Lemma addPage_alike (h : Host) (t1 t2 : PDFEntries) :
  map shape_entry t1 = map shape_entry t2 ->
  addPage h c1 t1 = OK tt -> addPage h c2 t2 = OK tt.
Proof.
  intros H. unfold addPage.
  pose proof (dict_lookup_alike false c1 c2 A t1 t2 "Count" H) as L.
  destruct (dict_lookup c1 t1 "Count") as [[| |n1| | | | | | |]|]; try discriminate.
  destruct (dict_lookup c2 t2 "Count") as [y|]; cbn [alike_found] in L;
    [|contradiction].
  destruct L as [L|[P _]]; [|contradiction].
  shape_cases L y. injection L as <-.
  destruct (n1 <? 0)%Z; [discriminate|]. now apply ascend_alike.
Qed.

(** Whether [save] succeeds is read off the shapes. *)
Lemma save_alike (h : Host) (E1 : PDFContext) :
  save h c1 = OK E1 -> save h c2 = OK (updateDicts c2).
Proof.
  unfold save. destruct (Pages c1) as [p1|] eqn:P1; [|discriminate].
  destruct (Pages_alike false c1 c2 A p1 P1) as (p2 & -> & S). cbn [bind].
  destruct (traverse (stack_depth h) c1 p1) as [count|] eqn:T; [|discriminate].
  rewrite (traverse_alike false c1 c2 A _ p1 p2 count S T). cbn [bind].
  destruct (count =? 0).
  - destruct (addPage h c1 p1) as [[]|] eqn:P; [|discriminate].
    now rewrite (addPage_alike h p1 p2 S P).
  - reflexivity.
Qed.

End AlikeStrict.

(** *** Contexts that are alike *)

Lemma alike_shapes (fresh : bool) (c1 c2 : PDFContext) :
  trailer_Root c1 = trailer_Root c2 ->
  map shape_indirect (indirectObjects c1) = map shape_indirect (indirectObjects c2) ->
  alike_contexts fresh c1 c2.
Proof.
  intros R H. split; [exact R|]. intros r.
  assert (G : option_map shape (indirect_get (indirectObjects c1) r)
              = option_map shape (indirect_get (indirectObjects c2) r)).
  { unfold shape_indirect in H. now rewrite <- !indirect_get_map, H. }
  destruct (indirect_get (indirectObjects c1) r),
           (indirect_get (indirectObjects c2) r); try discriminate G; [|exact I].
  injection G as G. now left.
Qed.

(** One more object, a plain dictionary, under a reference that led
    nowhere or to an object that comes first. *)
Lemma alike_appended (c1 c2 : PDFContext) (objs : list ((nat * nat) * PDFObject))
  (r0 : nat * nat) (o : PDFObject) :
  trailer_Root c1 = trailer_Root c2 ->
  map shape_indirect (indirectObjects c1) = map shape_indirect objs ->
  indirectObjects c2 = objs ++ [(r0, o)] ->
  is_plain o ->
  alike_contexts true c1 c2.
Proof.
  intros R H E P. split; [exact R|]. intros r. rewrite E, indirect_get_app.
  assert (G : option_map shape (indirect_get (indirectObjects c1) r)
              = option_map shape (indirect_get objs r)).
  { unfold shape_indirect in H. now rewrite <- !indirect_get_map, H. }
  destruct (indirect_get (indirectObjects c1) r), (indirect_get objs r);
    try discriminate G.
  - injection G as G. now left.
  - destruct (ref_eqb r0 r); [now split|exact I].
Qed.

(** The same objects but the last, a plain dictionary in both. *)
Lemma alike_last (c1 c2 : PDFContext) (objs : list ((nat * nat) * PDFObject))
  (r0 : nat * nat) (o1 o2 : PDFObject) :
  trailer_Root c1 = trailer_Root c2 ->
  indirectObjects c1 = objs ++ [(r0, o1)] ->
  indirectObjects c2 = objs ++ [(r0, o2)] ->
  is_plain o1 -> is_plain o2 ->
  alike_contexts false c1 c2.
Proof.
  intros R E1 E2 P1 P2. split; [exact R|]. intros r.
  rewrite E1, E2, !indirect_get_app.
  destruct (indirect_get objs r); [now left|].
  destruct (ref_eqb r0 r); [now right|exact I].
Qed.

(** The document [decryptPDF] hands to [save] has the shapes of the one it
    loaded. *)
Lemma opened_has_pages (h : Host) (c : PDFContext)
  (objs : list ((nat * nat) * PDFObject)) (enc : option PDFObject) :
  has_pages h c ->
  map shape_indirect objs = map shape_indirect (indirectObjects c) ->
  has_pages h {| indirectObjects := objs;
                 largestObjectNumber := largestObjectNumber c;
                 trailer_ID := trailer_ID c;
                 trailer_Encrypt := enc;
                 trailer_Root := trailer_Root c |}.
Proof.
  intros P S. refine (has_pages_alike false c _ _ h P).
  apply alike_shapes; [reflexivity|symmetry; exact S].
Qed.

Lemma is_plain_encryptDict (p : Z) (m : bool) (k : Rev5Keys) :
  is_plain (encryptDict p m k).
Proof. reflexivity. Qed.

Lemma shape_indirect_update (objs : list ((nat * nat) * PDFObject)) :
  map shape_indirect (map update_indirect objs) = map shape_indirect objs.
Proof.
  rewrite map_map. apply map_ext. intros [r o].
  unfold shape_indirect, update_indirect. cbn [fst snd]. now rewrite shape_updateDict.
Qed.

Lemma shape_indirect_payload (h : Host) (a b : list ((nat * nat) * PDFObject)) :
  map (payload_indirect h) a = map (payload_indirect h) b ->
  map shape_indirect a = map shape_indirect b.
Proof.
  revert b. induction a as [|[r x] a IH]; intros [|[q y] b] H; try discriminate H;
    [reflexivity|].
  cbn [map] in *. unfold payload_indirect at 1 3 in H. cbn [fst snd] in H.
  injection H as -> P H. unfold shape_indirect at 1 3. cbn [fst snd].
  rewrite <- (shape_payload_of h x), P, shape_payload_of. f_equal. now apply IH.
Qed.

(* ################################################################# *)
(** * The decrypting walkers keep the shapes *)

Section DecryptShape.

Variable h : Host.
Variable dec : bytes -> result bytes.

Lemma decryptString_shape (value : PDFObject) (b : bytes) :
  shape value = PDFString EmptyString ->
  shape (decryptString dec value b) = PDFString EmptyString.
Proof.
  intros H. unfold decryptString. destruct (length b <? IV_LEN + 16); [exact H|].
  now destruct (dec b).
Qed.

Lemma decrypt_shape (o : PDFObject) :
  shape (decryptValue h dec o) = shape o
  /\ shape (decryptElement h dec o) = shape o.
Proof.
  induction o as [| | | |v|v| |a IH|d IH|d c IH] using PDFObject_nested_ind;
    try (split; reflexivity).
  - split; [|reflexivity]. cbn [decryptValue]. now apply decryptString_shape.
  - split; [|reflexivity]. cbn [decryptValue]. now apply decryptString_shape.
  - assert (G : map shape (decryptElements h dec a) = map shape a).
    { induction IH as [|x a [_ Hx] _ IHa]; [reflexivity|].
      cbn [decryptElements map]. now rewrite Hx, IHa. }
    cbn [decryptValue decryptElement]. rewrite decryptStringsInArray_eq.
    cbn [shape]. now rewrite G.
  - assert (G : map shape_entry (decryptEntries h dec d) = map shape_entry d).
    { induction IH as [|[k x] d [Hx _] _ IHd]; [reflexivity|].
      cbn [decryptEntries map]. rewrite IHd. unfold shape_entry at 1 3.
      cbn [fst snd] in *. destruct (reserved (key_asString k)); [reflexivity|].
      now rewrite Hx. }
    cbn [decryptValue decryptElement]. rewrite decryptStringsInDict_eq.
    rewrite !shape_dict_eq. now rewrite G.
Qed.

Lemma decryptIndirect_shape (obj obj' : PDFObject) :
  decryptIndirect h dec obj = OK obj' -> shape obj' = shape obj.
Proof.
  unfold decryptIndirect.
  destruct (isStandardFilter obj) as [[]|]; cbn [bind]; try discriminate.
  - now intros [= <-].
  - destruct obj as [| | | | | | |a|d|d c]; cbn [bind]; try (now intros [= <-]).
    + intros [= <-]. exact (proj2 (decrypt_shape (PDFArray a))).
    + intros [= <-]. exact (proj1 (decrypt_shape (PDFDict d))).
    + destruct (dec c); cbn [bind]; [|discriminate]. now intros [= <-].
Qed.

Lemma decryptIndirectObjects_shape (objs : list ((nat * nat) * PDFObject)) :
  map shape_indirect (fst (decryptIndirectObjects h dec objs))
  = map shape_indirect objs.
Proof.
  induction objs as [|[r o] objs IH]; [reflexivity|].
  cbn [decryptIndirectObjects].
  destruct (decryptIndirect h dec o) as [o'|] eqn:E; [|reflexivity].
  destruct (decryptIndirectObjects h dec objs) as [rest res].
  cbn [fst map] in *. rewrite IH. unfold shape_indirect at 1 3. cbn [fst snd].
  now rewrite (decryptIndirect_shape o o' E).
Qed.

(** The writer's [Length] does not matter to the loop: a stream has its
    contents decrypted and its dictionary left as it is. *)
Lemma decryptIndirect_updated (obj : PDFObject) :
  decryptIndirect h dec (updateDict obj)
  = match decryptIndirect h dec obj with
    | OK obj' =>
        OK match obj, obj' with
           | PDFRawStream d c, PDFRawStream _ c' =>
               PDFRawStream (dict_set d "Length" (PDFNumber (Z.of_nat (length c)))) c'
           | _, _ => obj'
           end
    | Throw e => Throw e
    end.
Proof.
  destruct obj as [| | | | | | |a|d|d c]; cbn [updateDict];
    try (now destruct (decryptIndirect h dec _)).
  unfold decryptIndirect. cbn [isStandardFilter bind].
  now destruct (dec c).
Qed.

Lemma decryptIndirect_updated_OK (obj obj' : PDFObject) :
  decryptIndirect h dec obj = OK obj' ->
  exists obj'', decryptIndirect h dec (updateDict obj) = OK obj''
                /\ updateDict obj'' = updateDict obj'.
Proof.
  intros E. rewrite decryptIndirect_updated, E.
  eexists. split; [reflexivity|].
  destruct obj as [| | | | | | |a|d|d c]; try reflexivity.
  unfold decryptIndirect in E. cbn [isStandardFilter bind] in E.
  destruct (dec c) as [c'|]; [|discriminate]. cbn [bind] in E. injection E as <-.
  cbn [updateDict]. now rewrite dict_set_twice.
Qed.

Lemma decryptIndirectObjects_updated (objs objs' : list ((nat * nat) * PDFObject)) :
  decryptIndirectObjects h dec objs = (objs', OK tt) ->
  exists objs'',
    decryptIndirectObjects h dec (map update_indirect objs) = (objs'', OK tt)
    /\ map update_indirect objs'' = map update_indirect objs'.
Proof.
  revert objs'. induction objs as [|[r o] objs IH]; intros objs' E.
  - cbn in E. injection E as <-. now exists [].
  - cbn [decryptIndirectObjects] in E.
    destruct (decryptIndirect h dec o) as [o'|] eqn:E1; [|discriminate].
    destruct (decryptIndirectObjects h dec objs) as [rest res] eqn:E2.
    injection E as <- ->.
    destruct (decryptIndirect_updated_OK o o' E1) as (o'' & D1 & U1).
    destruct (IH rest eq_refl) as (rest'' & D2 & U2).
    cbn [map decryptIndirectObjects]. unfold update_indirect at 1. cbn [fst snd].
    rewrite D1, D2. eexists. split; [reflexivity|].
    cbn [map]. unfold update_indirect at 1 3. cbn [fst snd]. now rewrite U1, U2.
Qed.

End DecryptShape.

(** The payload of an object [save] has written. *)
Lemma payload_of_dict_set (h : Host) (d : PDFEntries) (k : string) (v : PDFObject) :
  map (payload_entry h) (dict_set d k v) = dict_set (map (payload_entry h) d) k (payload_of h v).
Proof.
  induction d as [|[k' x] d IH]; [reflexivity|].
  cbn [dict_set map]. unfold payload_entry at 2. cbn [fst snd].
  destruct (String.eqb k' k); [reflexivity|].
  cbn [map]. now rewrite IH.
Qed.

Lemma payload_of_updateDict (h : Host) (o : PDFObject) :
  payload_of h (updateDict o) = updateDict (payload_of h o).
Proof.
  destruct o; try reflexivity.
  cbn [updateDict payload_of].
  change (fun e : string * PDFObject => (fst e, payload_of h (snd e)))
    with (payload_entry h).
  now rewrite payload_of_dict_set.
Qed.

Lemma payload_indirect_update (h : Host) (a b : list ((nat * nat) * PDFObject)) :
  map (payload_indirect h) a = map (payload_indirect h) b ->
  map (payload_indirect h) (map update_indirect a)
  = map (payload_indirect h) (map update_indirect b).
Proof.
  revert b. induction a as [|[r x] a IH]; intros [|[q y] b] H; try discriminate H;
    [reflexivity|].
  cbn [map] in *. unfold payload_indirect at 1 3 in H. cbn [fst snd] in H.
  injection H as -> P H. f_equal; [|now apply IH].
  unfold payload_indirect, update_indirect. cbn [fst snd].
  now rewrite !payload_of_updateDict, P.
Qed.

(* ################################################################# *)
(** * The entry points on a capable host *)

Section EntryPoints.

Variable h : Host.
Hypothesis laws : HostLaws h.
Hypothesis cap : capable h = true.

Lemma encryptPDF_eq (D : PDFContext) (u : jsstring) (o : option jsstring)
  (options : EncryptOptions) (s : nat) :
  encryptPDF h D u o options s
  = match encryptIndirectObjects h
            (fun data => encryptObject h data
                           (fileEncryptionKey (keys_at h D u o options s)))
            (indirectObjects D) (keys_position D s + 68) with
    | OK (objs, s') =>
        match save h (sealed h D u o options s objs) with
        | OK E => OK (E, s')
        | Throw e => Throw e
        end
    | Throw e => Throw e
    end.
Proof.
  unfold encryptPDF, enumerateIndirectObjects, sealed, keys_at, ID_at, keys_position.
  fold (effective_permissions options) (effective_encryptMetadata options).
  fold (effective_params u o options).
  destruct (trailer_ID D) as [id|]; unfold rbind, ret.
  - rewrite (computeRev5Keys_ok h laws cap).
    destruct (encryptIndirectObjects h _ (indirectObjects D) (s + 68))
      as [[objs s']|]; reflexivity.
  - rewrite (getRandomBytes_ok h cap).
    rewrite (computeRev5Keys_ok h laws cap).
    destruct (encryptIndirectObjects h _ (indirectObjects D) (s + 16 + 68))
      as [[objs s']|]; reflexivity.
Qed.

Lemma decryptPDF_eq (c : PDFContext) (password : jsstring) (d : PDFEntries) :
  descriptor c = Some d ->
  number_or_0 (dict_lookup c d "R") = 5%Z ->
  number_or_0 (dict_lookup c d "V") = 5%Z ->
  length_is (getEncryptBytes h d "O") 48 = true ->
  length_is (getEncryptBytes h d "U") 48 = true ->
  length_is (getEncryptBytes h d "OE") 32 = true ->
  length_is (getEncryptBytes h d "UE") 32 = true ->
  decryptPDF h c password
  = decrypt_with h c
      (recovered h (preparePassword password) (stored h c "U") (stored h c "O")
         (stored h c "OE") (stored h c "UE")).
Proof.
  intros Hd HR HV HO HU HOE HUE.
  unfold stored. rewrite Hd.
  unfold decryptPDF, decrypt_with, descriptor in *.
  destruct (trailer_Encrypt c) as [r|]; [|discriminate].
  destruct (context_lookup c r) as [[| | | | | | | |d'|]|]; try discriminate.
  injection Hd as ->.
  rewrite HR, HV, HO, HU, HOE, HUE. cbn [Z.eqb Pos.eqb negb orb].
  rewrite (deriveFileKeyFromPassword_ok h laws cap).
  - unfold enumerateIndirectObjects.
    destruct (recovered _ _ _ _ _ _) as [fileKey|]; [|reflexivity].
    destruct (decryptIndirectObjects _ _ _) as [objs [[]|e]]; reflexivity.
  - unfold length_is in HOE. destruct (getEncryptBytes h d "OE"); [|discriminate].
    now apply Nat.eqb_eq.
  - unfold length_is in HUE. destruct (getEncryptBytes h d "UE"); [|discriminate].
    now apply Nat.eqb_eq.
Qed.

End EntryPoints.

(* ################################################################# *)
(** * Documents [encryptPDF] has sealed *)

Lemma indirect_get_new (objs : list ((nat * nat) * PDFObject)) (n : nat)
  (o : PDFObject) :
  forallb (fun r => fst r <=? n) (map fst objs) = true ->
  indirect_get (objs ++ [((S n, 0), o)]) (S n, 0) = Some o.
Proof.
  induction objs as [|[[m g] x] objs IH]; intros H.
  - cbn [app indirect_get]. unfold ref_eqb. cbn [fst snd].
    now rewrite !Nat.eqb_refl.
  - cbn [map forallb fst] in H. apply andb_prop in H. destruct H as [H1 H2].
    cbn [app indirect_get]. unfold ref_eqb. cbn [fst snd].
    apply Nat.leb_le in H1.
    replace (m =? S n) with false by (symmetry; apply Nat.eqb_neq; lia).
    cbn [andb]. now apply IH.
Qed.

Lemma context_wf_refs (D : PDFContext) :
  context_wf D = true ->
  forallb (fun r => fst r <=? largestObjectNumber D) (map fst (indirectObjects D)) = true.
Proof.
  unfold context_wf. generalize (largestObjectNumber D). intros n.
  induction (indirectObjects D) as [|e l IH]; [reflexivity|].
  cbn [forallb map]. intros H. apply andb_prop in H. destruct H as [H1 H2].
  now rewrite H1, IH.
Qed.

Lemma indirectObjects_returned (h : Host) (D : PDFContext) (u : jsstring)
  (o : option jsstring) (options : EncryptOptions) (s : nat)
  (objs : list ((nat * nat) * PDFObject)) :
  indirectObjects (updateDicts (sealed h D u o options s objs))
  = map update_indirect objs
    ++ [((S (largestObjectNumber D), 0),
         PDFDict (entries_of (encryptDict (effective_permissions options)
                                (effective_encryptMetadata options)
                                (keys_at h D u o options s))))].
Proof.
  unfold updateDicts, sealed. cbn [indirectObjects]. now rewrite map_app.
Qed.

Lemma nth_error_updated (objs : list ((nat * nat) * PDFObject)) (i : nat)
  (ref : nat * nat) (d : PDFEntries) :
  nth_error objs i = Some (ref, PDFDict d) ->
  nth_error (map update_indirect objs) i = Some (ref, PDFDict d).
Proof. intros H. now rewrite nth_error_map, H. Qed.

Lemma getEncryptBytes_encryptDict (h : Host) (p : Z) (m : bool) (k : Rev5Keys) :
  getEncryptBytes h (entries_of (encryptDict p m k)) "O" = Some (O k)
  /\ getEncryptBytes h (entries_of (encryptDict p m k)) "U" = Some (U k)
  /\ getEncryptBytes h (entries_of (encryptDict p m k)) "OE" = Some (OE k)
  /\ getEncryptBytes h (entries_of (encryptDict p m k)) "UE" = Some (UE k)
  /\ getEncryptBytes h (entries_of (encryptDict p m k)) "Perms" = Some (Perms k).
Proof.
  unfold getEncryptBytes, PDFHexStringOf.
  refine (conj _ (conj _ (conj _ (conj _ _)))); cbn; f_equal;
    apply hex_asBytes_bytesToHex.
Qed.

Section Sealed.

Variable h : Host.
Hypothesis laws : HostLaws h.
Hypothesis cap : capable h = true.

Variable D : PDFContext.
Variable u : jsstring.
Variable o : option jsstring.
Variable options : EncryptOptions.
Variable s : nat.
Variable objs : list ((nat * nat) * PDFObject).

Hypothesis D_wf : context_wf D = true.
Hypothesis objs_refs : map fst objs = map fst (indirectObjects D).

Let keys := keys_at h D u o options s.
Let E := updateDicts (sealed h D u o options s objs).

Lemma descriptor_sealed :
  descriptor E
  = Some (entries_of (encryptDict (effective_permissions options)
                        (effective_encryptMetadata options) keys)).
Proof.
  unfold E. rewrite descriptor_updateDicts.
  unfold descriptor, sealed. cbn [trailer_Encrypt context_lookup indirectObjects].
  rewrite indirect_get_new; [reflexivity|].
  rewrite objs_refs. now apply context_wf_refs.
Qed.

Lemma stored_sealed :
  stored h E "O" = O keys /\ stored h E "U" = U keys
  /\ stored h E "OE" = OE keys /\ stored h E "UE" = UE keys
  /\ stored h E "Perms" = Perms keys.
Proof.
  unfold stored. rewrite descriptor_sealed.
  destruct (getEncryptBytes_encryptDict h (effective_permissions options)
              (effective_encryptMetadata options) keys) as (-> & -> & -> & -> & ->).
  repeat split.
Qed.

Lemma keys_lengths :
  length (fileEncryptionKey keys) = 32
  /\ length (O keys) = 48 /\ length (U keys) = 48
  /\ length (OE keys) = 32 /\ length (UE keys) = 32
  /\ length (Perms keys) = 16.
Proof.
  unfold keys, keys_at, rev5_keys.
  cbn [fileEncryptionKey O U OE UE Perms].
  refine (conj _ (conj _ (conj _ (conj _ (conj _ _))))).
  - apply drawn_length.
  - apply (rev5_O_length h laws).
  - apply (rev5_U_length h laws).
  - apply (cbc_encrypt_blocks_length h laws), (SHA256_length h laws).
  - apply (cbc_encrypt_blocks_length h laws), (SHA256_length h laws).
  - apply (AES256_length h laws); [apply drawn_length|reflexivity].
Qed.

Lemma decryptPDF_sealed (password : jsstring) :
  decryptPDF h E password
  = decrypt_with h E
      (recovered h (preparePassword password) (U keys) (O keys) (OE keys) (UE keys)).
Proof.
  destruct stored_sealed as (SO & SU & SOE & SUE & _).
  destruct keys_lengths as (_ & LO & LU & LOE & LUE & _).
  rewrite <- SO, <- SU, <- SOE, <- SUE.
  destruct (getEncryptBytes_encryptDict h (effective_permissions options)
              (effective_encryptMetadata options) keys) as (GO & GU & GOE & GUE & _).
  apply (decryptPDF_eq h laws cap) with (d := entries_of (encryptDict
           (effective_permissions options) (effective_encryptMetadata options) keys)).
  - apply descriptor_sealed.
  - reflexivity.
  - reflexivity.
  - rewrite GO. unfold length_is. now rewrite LO.
  - rewrite GU. unfold length_is. now rewrite LU.
  - rewrite GOE. unfold length_is. now rewrite LOE.
  - rewrite GUE. unfold length_is. now rewrite LUE.
Qed.

End Sealed.

(* ################################################################# *)
(** * Key recovery on the material [computeRev5Keys] made *)

Section Recovery.

Variable h : Host.
Hypothesis laws : HostLaws h.

Variable params : Rev5EncryptParams.
Variable s : nat.

Let userPwd := preparePassword (userPassword params).
Let ownerPwd := preparePassword (js_or (ownerPassword params) (userPassword params)).
Let k := rev5_keys h params s.

Lemma matches_user_own : matches_user h userPwd (U k) = true.
Proof.
  unfold matches_user, k, rev5_keys, userPwd. cbn [U].
  destruct (rev5_U_parts h laws (preparePassword (userPassword params)) s) as (-> & -> & _).
  now rewrite compareBytes_refl.
Qed.

Lemma matches_owner_own : matches_owner h ownerPwd (U k) (O k) = true.
Proof.
  unfold matches_owner, k, rev5_keys, userPwd, ownerPwd. cbn [U O].
  destruct (rev5_O_parts h laws (preparePassword (userPassword params))
              (preparePassword (js_or (ownerPassword params) (userPassword params))) s) as (-> & -> & _).
  now rewrite compareBytes_refl.
Qed.

Lemma recovered_user :
  recovered h userPwd (U k) (O k) (OE k) (UE k) = Some (fileEncryptionKey k).
Proof.
  unfold recovered. rewrite matches_user_own.
  unfold k, rev5_keys, userPwd. cbn [U UE fileEncryptionKey].
  destruct (rev5_U_parts h laws (preparePassword (userPassword params)) s) as (_ & _ & ->).
  rewrite (unwrap_wrapped h laws);
    [reflexivity|apply (SHA256_length h laws)|apply drawn_length].
Qed.

Lemma recovered_owner :
  matches_user h ownerPwd (U k) = false ->
  recovered h ownerPwd (U k) (O k) (OE k) (UE k) = Some (fileEncryptionKey k).
Proof.
  intros M. unfold recovered. rewrite M, matches_owner_own.
  unfold k, rev5_keys, userPwd, ownerPwd. cbn [U O OE fileEncryptionKey].
  destruct (rev5_O_parts h laws (preparePassword (userPassword params))
              (preparePassword (js_or (ownerPassword params) (userPassword params))) s) as (_ & _ & ->).
  rewrite (unwrap_wrapped h laws);
    [reflexivity|apply (SHA256_length h laws)|apply drawn_length].
Qed.

(** A password that matches neither validation hash recovers no key. *)
Lemma recovered_none (pwd U O OE UE : bytes) :
  matches_user h pwd U = false -> matches_owner h pwd U O = false ->
  recovered h pwd U O OE UE = None.
Proof. intros M1 M2. unfold recovered. now rewrite M1, M2. Qed.

(** A password that matches a validation hash recovers a key. *)
Lemma recovered_some (pwd U O OE UE : bytes) :
  matches_user h pwd U = true \/ matches_owner h pwd U O = true ->
  exists key, recovered h pwd U O OE UE = Some key.
Proof.
  unfold recovered. intros [M|M].
  - rewrite M. eauto.
  - rewrite M. destruct (matches_user h pwd U); eauto.
Qed.

End Recovery.

(* ################################################################# *)
(** * Decrypting a sealed document with the file key *)

Lemma decryptIndirect_encryptDict (h : Host) (dec : bytes -> result bytes)
  (p : Z) (m : bool) (k : Rev5Keys) :
  decryptIndirect h dec (encryptDict p m k) = OK (encryptDict p m k).
Proof. reflexivity. Qed.

Section Unsealing.

Variable h : Host.
Hypothesis laws : HostLaws h.
Hypothesis cap : capable h = true.

(** What the round trip through the two loops leaves of the shapes. *)
Lemma roundtrip_shapes (fileKey : bytes) (objs objs' objs'' : list ((nat * nat) * PDFObject)) :
  decryptIndirectObjects h (fun data => decryptObject h data fileKey) objs'
  = (objs'', OK tt) ->
  map (payload_indirect h) objs'' = map (payload_indirect h) objs ->
  map shape_indirect objs' = map shape_indirect objs.
Proof.
  intros D0 P0.
  rewrite <- (shape_indirect_payload h _ _ P0).
  rewrite <- (decryptIndirectObjects_shape h
                (fun data => decryptObject h data fileKey) objs').
  now rewrite D0.
Qed.

Lemma sealed_has_pages (D : PDFContext) (u : jsstring) (o : option jsstring)
  (options : EncryptOptions) (s : nat) (objs : list ((nat * nat) * PDFObject)) :
  map shape_indirect objs = map shape_indirect (indirectObjects D) ->
  has_pages h D ->
  has_pages h (sealed h D u o options s objs).
Proof.
  intros S P. refine (has_pages_alike true D _ _ h P).
  eapply alike_appended; [reflexivity|symmetry; exact S|reflexivity|reflexivity].
Qed.

(** On a document with pages whose filters are typed the call succeeds. *)
Lemma encryptPDF_ok (D : PDFContext) (u : jsstring) (o : option jsstring)
  (options : EncryptOptions) (s : nat) :
  filters_typed D = true ->
  has_pages h D ->
  exists objs s',
    encryptIndirectObjects h
      (fun data => encryptObject h data (fileEncryptionKey (keys_at h D u o options s)))
      (indirectObjects D) (keys_position D s + 68) = OK (objs, s')
    /\ encryptPDF h D u o options s
       = OK (updateDicts (sealed h D u o options s objs), s').
Proof.
  intros T P.
  set (fileKey := fileEncryptionKey (keys_at h D u o options s)).
  assert (Hk : length fileKey = 32) by apply drawn_length.
  destruct (objects_roundtrip h laws cap fileKey Hk (indirectObjects D) T
              (keys_position D s + 68))
    as (objs & s' & E0 & objs'' & D0 & P0).
  exists objs, s'. split; [exact E0|].
  rewrite (encryptPDF_eq h laws cap). fold fileKey. rewrite E0.
  rewrite save_pages; [reflexivity|].
  apply sealed_has_pages; [|exact P].
  exact (roundtrip_shapes fileKey _ _ _ D0 P0).
Qed.

(** What [decryptPDF] leaves of a document [encryptPDF] has returned, given
    what its loop makes of the objects. *)
Lemma decrypt_with_returned (D : PDFContext) (u : jsstring) (o : option jsstring)
  (options : EncryptOptions) (s : nat) (objs objs'' : list ((nat * nat) * PDFObject))
  (fileKey : bytes) :
  has_pages h D ->
  map shape_indirect objs'' = map shape_indirect (indirectObjects D) ->
  decryptIndirectObjects h (fun data => decryptObject h data fileKey) objs
  = (objs'', OK tt) ->
  decrypt_with h (updateDicts (sealed h D u o options s objs)) (Some fileKey)
  = ({| indirectObjects :=
          map update_indirect objs''
          ++ [((S (largestObjectNumber D), 0),
               encryptDict (effective_permissions options)
                 (effective_encryptMetadata options) (keys_at h D u o options s))];
        largestObjectNumber := S (largestObjectNumber D);
        trailer_ID := ID_at h D s;
        trailer_Encrypt := None;
        trailer_Root := trailer_Root D |}, OK tt).
Proof.
  intros P S2 D0.
  destruct (decryptIndirectObjects_updated h _ objs objs'' D0) as (objs3 & D3 & U3).
  set (ed := ((S (largestObjectNumber D), 0),
              encryptDict (effective_permissions options)
                (effective_encryptMetadata options) (keys_at h D u o options s))).
  assert (W : decryptIndirectObjects h (fun data => decryptObject h data fileKey)
                (indirectObjects (updateDicts (sealed h D u o options s objs)))
              = (objs3 ++ [ed], OK tt)).
  { unfold updateDicts, sealed. cbn [indirectObjects]. rewrite map_app.
    change (fun e : nat * nat * PDFObject => (fst e, updateDict (snd e)))
      with update_indirect.
    rewrite (decryptIndirectObjects_app h _ _ objs3 _ D3). reflexivity. }
  assert (S3 : map shape_indirect objs3 = map shape_indirect (indirectObjects D)).
  { now rewrite <- (shape_indirect_update objs3), U3, shape_indirect_update. }
  unfold decrypt_with. rewrite W. cbn [fst snd].
  rewrite save_pages.
  2:{ refine (has_pages_alike true D _ _ h P).
      eapply alike_appended; [reflexivity|symmetry; exact S3|reflexivity|reflexivity]. }
  unfold updateDicts. cbn [indirectObjects largestObjectNumber trailer_ID
                             trailer_Encrypt trailer_Root sealed].
  change (fun e : nat * nat * PDFObject => (fst e, updateDict (snd e)))
    with update_indirect.
  now rewrite map_app, U3.
Qed.

Lemma decrypt_with_sealed (D : PDFContext) (u : jsstring) (o : option jsstring)
  (options : EncryptOptions) (s s' : nat) (objs : list ((nat * nat) * PDFObject)) :
  filters_typed D = true ->
  has_pages h D ->
  encryptIndirectObjects h
    (fun data => encryptObject h data (fileEncryptionKey (keys_at h D u o options s)))
    (indirectObjects D) (keys_position D s + 68) = OK (objs, s') ->
  exists D',
    decrypt_with h (updateDicts (sealed h D u o options s objs))
      (Some (fileEncryptionKey (keys_at h D u o options s))) = (D', OK tt)
    /\ restores h D D'.
Proof.
  intros T P E.
  set (fileKey := fileEncryptionKey (keys_at h D u o options s)) in *.
  assert (Hk : length fileKey = 32) by apply drawn_length.
  destruct (objects_roundtrip h laws cap fileKey Hk (indirectObjects D) T
              (keys_position D s + 68))
    as (objs0 & s0 & E0 & objs'' & D0 & P0).
  rewrite E in E0. injection E0 as <- <-.
  rewrite (decrypt_with_returned D u o options s objs objs'' fileKey P
             (shape_indirect_payload h _ _ P0) D0).
  eexists. split; [reflexivity|].
  unfold restores, payloads, updateDicts. cbn [indirectObjects trailer_Encrypt].
  change (fun e : nat * nat * PDFObject => (fst e, updateDict (snd e)))
    with update_indirect.
  eexists. rewrite !map_app, (payload_indirect_update h _ _ P0).
  split; [reflexivity|]. split; reflexivity.
Qed.

End Unsealing.

(* ################################################################# *)
(** * A call that succeeds ran on a capable host *)

Lemma rbind_inv {A B} (m : Rand A) (k : A -> Rand B) (s : nat) (r : B * nat) :
  rbind m k s = OK r -> exists a s1, m s = OK (a, s1) /\ k a s1 = OK r.
Proof.
  unfold rbind. destruct (m s) as [[a s1]|]; [|discriminate].
  intros H. now exists a, s1.
Qed.

Lemma lift_inv {A} (m : result A) (s : nat) (a : A) (s1 : nat) :
  lift m s = OK (a, s1) -> m = OK a /\ s1 = s.
Proof.
  unfold lift. destruct m; [|discriminate]. intros H. injection H as -> ->. now split.
Qed.

Lemma getRandomBytes_inv (h : Host) (n s : nat) (r : bytes * nat) :
  getRandomBytes h n s = OK r -> has_getRandomValues h = true.
Proof. unfold getRandomBytes. now destruct (has_getRandomValues h). Qed.

Lemma sha256_inv (h : Host) (d x : bytes) :
  sha256 h d = OK x -> has_subtle h || has_node_crypto h = true.
Proof.
  unfold sha256, getNodeCrypto. destruct (has_subtle h); [reflexivity|].
  now destruct (has_node_crypto h).
Qed.

Lemma computeRev5Keys_capable (h : Host) (params : Rev5EncryptParams) (s : nat)
  (r : Rev5Keys * nat) :
  computeRev5Keys h params s = OK r -> capable h = true.
Proof.
  unfold computeRev5Keys. intros H.
  apply rbind_inv in H. destruct H as (fk & s1 & G & H).
  apply getRandomBytes_inv in G.
  apply rbind_inv in H. destruct H as (vs & s2 & _ & H).
  apply rbind_inv in H. destruct H as (ks & s3 & _ & H).
  apply rbind_inv in H. destruct H as (uHash & s4 & S & _).
  apply lift_inv in S. destruct S as [S _]. apply sha256_inv in S.
  unfold capable. now rewrite G, S.
Qed.

Lemma encryptPDF_inv (h : Host) (D : PDFContext) (u : jsstring) (o : option jsstring)
  (options : EncryptOptions) (s s' : nat) (E : PDFContext) :
  HostLaws h ->
  encryptPDF h D u o options s = OK (E, s') ->
  capable h = true
  /\ exists objs,
       encryptIndirectObjects h
         (fun data => encryptObject h data
                        (fileEncryptionKey (keys_at h D u o options s)))
         (indirectObjects D) (keys_position D s + 68) = OK (objs, s')
       /\ map fst objs = map fst (indirectObjects D)
       /\ save h (sealed h D u o options s objs) = OK E
       /\ E = updateDicts (sealed h D u o options s objs).
Proof.
  intros laws H.
  assert (cap : capable h = true).
  { unfold encryptPDF in H.
    apply rbind_inv in H. destruct H as (ID & s0 & _ & H).
    apply rbind_inv in H. destruct H as (k & s1 & K & _).
    exact (computeRev5Keys_capable h _ s0 (k, s1) K). }
  split; [exact cap|].
  rewrite (encryptPDF_eq h laws cap) in H.
  destruct (encryptIndirectObjects h _ (indirectObjects D) (keys_position D s + 68))
    as [[objs s1]|] eqn:W; [|discriminate].
  destruct (save h (sealed h D u o options s objs)) as [E'|] eqn:V; [|discriminate].
  injection H as <- <-. exists objs. split; [reflexivity|].
  split; [exact (encryptIndirectObjects_refs h _ _ _ _ _ W)|].
  split; [exact V|]. exact (save_inv h _ _ V).
Qed.

(* ################################################################# *)
(** * The permissions block, byte by byte *)

Lemma ToInt32_eq (x : Z) :
  ToInt32 x = if (x mod 2 ^ 32 <? 2 ^ 31)%Z then (x mod 2 ^ 32)%Z
              else (x mod 2 ^ 32 - 2 ^ 32)%Z.
Proof.
  unfold ToInt32. change (2 ^ 32)%Z with 4294967296%Z. change (2 ^ 31)%Z with 2147483648%Z.
  destruct (Z.ltb_spec (x mod 4294967296) 2147483648); Z.div_mod_to_equations; lia.
Qed.

Lemma ToInt32_range (x : Z) : (- 2 ^ 31 <= ToInt32 x < 2 ^ 31)%Z.
Proof.
  unfold ToInt32. change (2 ^ 32)%Z with 4294967296%Z. change (2 ^ 31)%Z with 2147483648%Z.
  Z.div_mod_to_equations. lia.
Qed.

Lemma ToInt32_small (x : Z) : (- 2 ^ 31 <= x < 2 ^ 31)%Z -> ToInt32 x = x.
Proof.
  unfold ToInt32. change (2 ^ 32)%Z with 4294967296%Z. change (2 ^ 31)%Z with 2147483648%Z.
  intros H. Z.div_mod_to_equations. lia.
Qed.

Lemma js_and_255 (x : Z) :
  (- 2 ^ 31 <= x < 2 ^ 31)%Z -> js_and x 255 = (x mod 256)%Z.
Proof.
  intros H. unfold js_and. rewrite (ToInt32_small x H).
  rewrite (ToInt32_small 255) by (cbn; lia).
  change 255%Z with (Z.ones 8). rewrite Z.land_ones by lia.
  apply ToInt32_small. change (2 ^ 8)%Z with 256%Z.
  change (2 ^ 31)%Z with 2147483648%Z. Z.div_mod_to_equations. lia.
Qed.

Lemma js_sar_div (x k : Z) :
  (- 2 ^ 31 <= x < 2 ^ 31)%Z -> (0 <= k)%Z ->
  js_sar x k = (x / 2 ^ k)%Z /\ (- 2 ^ 31 <= x / 2 ^ k < 2 ^ 31)%Z.
Proof.
  intros H Hk. unfold js_sar. rewrite (ToInt32_small x H), Z.shiftr_div_pow2 by exact Hk.
  assert (R : (- 2 ^ 31 <= x / 2 ^ k < 2 ^ 31)%Z).
  { assert (0 < 2 ^ k)%Z by (apply Z.pow_pos_nonneg; lia).
    split.
    - apply Z.div_le_lower_bound; [assumption|]. nia.
    - apply Z.div_lt_upper_bound; [assumption|]. nia. }
  split; [now apply ToInt32_small|exact R].
Qed.

(** The masked permissions: the low 32 bits of the number, as a signed
    32-bit value. *)
Lemma masked_permissions (p : Z) :
  js_and (js_ushr0 p) 4294967295 = ToInt32 p.
Proof.
  unfold js_and, js_ushr0, ToUint32.
  change (ToInt32 4294967295) with (-1)%Z. rewrite Z.land_m1_r.
  rewrite (ToInt32_small (ToInt32 _)) by apply ToInt32_range.
  unfold ToInt32. change (2 ^ 32)%Z with 4294967296%Z. change (2 ^ 31)%Z with 2147483648%Z.
  Z.div_mod_to_equations. lia.
Qed.

Lemma permsBlock_bytes (p : Z) :
  byte_of_Z (js_and (ToInt32 p) 255) = byte_of_Z (p mod 2 ^ 32)
  /\ byte_of_Z (js_and (js_sar (ToInt32 p) 8) 255) = byte_of_Z (p mod 2 ^ 32 / 2 ^ 8)
  /\ byte_of_Z (js_and (js_sar (ToInt32 p) 16) 255) = byte_of_Z (p mod 2 ^ 32 / 2 ^ 16)
  /\ byte_of_Z (js_and (js_sar (ToInt32 p) 24) 255) = byte_of_Z (p mod 2 ^ 32 / 2 ^ 24).
Proof.
  pose proof (ToInt32_range p) as R.
  destruct (js_sar_div (ToInt32 p) 8 R ltac:(lia)) as [E8 R8].
  destruct (js_sar_div (ToInt32 p) 16 R ltac:(lia)) as [E16 R16].
  destruct (js_sar_div (ToInt32 p) 24 R ltac:(lia)) as [E24 R24].
  rewrite E8, E16, E24.
  rewrite !js_and_255 by assumption.
  unfold byte_of_Z. rewrite ToInt32_eq.
  change (2 ^ 32)%Z with 4294967296%Z. change (2 ^ 31)%Z with 2147483648%Z.
  change (2 ^ 8)%Z with 256%Z. change (2 ^ 16)%Z with 65536%Z.
  change (2 ^ 24)%Z with 16777216%Z.
  destruct (Z.ltb_spec (p mod 4294967296) 2147483648);
    refine (conj _ (conj _ (conj _ _))); do 2 f_equal;
    Z.div_mod_to_equations; lia.
Qed.

Lemma permsBlock_head_layout (p : Z) (m : bool) :
  permsBlock_head p m = perms_layout p m (zeros 4).
Proof.
  unfold permsBlock_head, perms_layout, le32. rewrite masked_permissions.
  destruct (permsBlock_bytes p) as (-> & -> & -> & ->). reflexivity.
Qed.

Lemma rev5_permsBlock_layout (h : Host) (p : Z) (m : bool) (s : nat) :
  rev5_permsBlock h p m s = perms_layout p m (drawn h (s + 64) 4).
Proof.
  unfold rev5_permsBlock. rewrite permsBlock_head_layout. reflexivity.
Qed.

(* ################################################################# *)
(** * What the loops leave alone *)

Lemma isStandardFilter_name (d : PDFEntries) :
  dict_get d "Filter" = Some (PDFName "Standard") ->
  isStandardFilter (PDFDict d) = OK true.
Proof. intros H. cbn [isStandardFilter]. now rewrite H. Qed.

Lemma encryptIndirectObjects_skip (h : Host) (enc : bytes -> Rand bytes)
  (objs objs' : list ((nat * nat) * PDFObject)) (s s' i : nat)
  (ref : nat * nat) (obj : PDFObject) :
  encryptIndirectObjects h enc objs s = OK (objs', s') ->
  nth_error objs i = Some (ref, obj) ->
  isStandardFilter obj = OK true ->
  nth_error objs' i = Some (ref, obj).
Proof.
  revert objs' s s' i.
  induction objs as [|[r x] objs IH]; intros objs' s s' i E N F.
  - destruct i; discriminate N.
  - cbn [encryptIndirectObjects] in E.
    apply rbind_inv in E. destruct E as (x' & s1 & E1 & E).
    apply rbind_inv in E. destruct E as (rest' & s2 & E2 & E).
    unfold ret in E. injection E as <- <-.
    destruct i as [|i].
    + cbn [nth_error] in *. injection N as -> ->.
      unfold encryptIndirect, rbind, lift, ret in E1. rewrite F in E1.
      now injection E1 as <- _.
    + cbn [nth_error] in *. now apply (IH rest' s1 s2 i).
Qed.

Lemma decryptIndirectObjects_skip (h : Host) (dec : bytes -> result bytes)
  (objs : list ((nat * nat) * PDFObject)) (i : nat)
  (ref : nat * nat) (obj : PDFObject) :
  nth_error objs i = Some (ref, obj) ->
  isStandardFilter obj = OK true ->
  nth_error (fst (decryptIndirectObjects h dec objs)) i = Some (ref, obj).
Proof.
  revert i. induction objs as [|[r x] objs IH]; intros i N F.
  - destruct i; discriminate N.
  - cbn [decryptIndirectObjects].
    destruct (decryptIndirect h dec x) as [x'|e] eqn:E1; [|exact N].
    destruct (decryptIndirectObjects h dec objs) as [rest' res] eqn:E2.
    cbn [fst] in *. destruct i as [|i].
    + cbn [nth_error] in *. injection N as -> ->.
      unfold decryptIndirect in E1. rewrite F in E1. cbn [bind] in E1.
      now injection E1 as <-.
    + cbn [nth_error] in *. now apply IH.
Qed.

Lemma encryptPDF_objects (h : Host) (D : PDFContext) (u : jsstring) (o : option jsstring)
  (options : EncryptOptions) (s s' : nat) (E : PDFContext) :
  encryptPDF h D u o options s = OK (E, s') ->
  exists enc s1 objs ed,
    encryptIndirectObjects h enc (indirectObjects D) s1 = OK (objs, s')
    /\ indirectObjects E = map update_indirect (objs ++ [ed]).
Proof.
  unfold encryptPDF, enumerateIndirectObjects. intros H.
  apply rbind_inv in H. destruct H as (ID & s0 & _ & H).
  apply rbind_inv in H. destruct H as (k & s1 & _ & H).
  apply rbind_inv in H. destruct H as (objs & s2 & W & H).
  unfold register in H. cbn [indirectObjects] in H.
  apply lift_inv in H. destruct H as [H <-].
  apply save_inv in H. subst E.
  eexists _, s1, objs, _. split; [exact W|reflexivity].
Qed.

(** The objects of the context when [decryptPDF] returns or throws: those
    it was given or those its loop has made, as they were or as the writer
    has left them. *)
Lemma decryptPDF_objects (h : Host) (c : PDFContext) (password : jsstring) :
  exists objs,
    (objs = indirectObjects c
     \/ exists fileKey,
          objs = fst (decryptIndirectObjects h
                        (fun data => decryptObject h data fileKey)
                        (indirectObjects c)))
    /\ (indirectObjects (fst (decryptPDF h c password)) = objs
        \/ indirectObjects (fst (decryptPDF h c password))
           = map update_indirect objs).
Proof.
  unfold decryptPDF, enumerateIndirectObjects.
  destruct (trailer_Encrypt c) as [r|]; [|eexists; split; now left].
  destruct (context_lookup c r) as [[| | | | | | | |d|]|];
    try (eexists; split; now left).
  destruct (negb _ || negb _); [eexists; split; now left|].
  destruct (negb _ || negb _ || negb _ || negb _); [eexists; split; now left|].
  destruct (deriveFileKeyFromPassword h password _ _ _ _) as [[fileKey|]|e];
    try (eexists; split; now left).
  eexists. split; [right; exists fileKey; reflexivity|].
  destruct (decryptIndirectObjects h _ (indirectObjects c)) as [objs [[]|e]];
    [|now left].
  cbn [fst].
  destruct (save h _) as [written|e] eqn:V; [|now left].
  apply save_inv in V. subst written. now right.
Qed.

(* ################################################################# *)
(** * What the decrypting loop can throw *)

Lemma pkcs7_unpad_errors (p : bytes) (e : Error) :
  pkcs7_unpad p = Throw e -> e = OperationError.
Proof.
  unfold pkcs7_unpad. destruct (_ && _ && _ && _); [discriminate|].
  now intros [= <-].
Qed.

Lemma decryptObject_errors (h : Host) (data fileKey : bytes) (e : Error) :
  capable h = true -> length fileKey = 32 ->
  decryptObject h data fileKey = Throw e ->
  e = EncryptedObjectTooShort \/ e = CbcBadCiphertextLength \/ e = OperationError.
Proof.
  intros cap Hk. unfold decryptObject, IV_LEN.
  destruct (Nat.ltb_spec (length data) (16 + 16)) as [Hs|Hl];
    [intros [= <-]; now left|].
  unfold aes256CbcDecrypt, KEY_LENGTH, AES_BLOCK_SIZE.
  rewrite Hk, subarray_0, length_firstn.
  replace (Nat.min 16 (length data)) with 16 by lia.
  cbn [Nat.eqb negb orb].
  destruct (length (skipn 16 data) mod 16 =? 0) eqn:M; cbn [negb];
    [|intros [= <-]; right; now left].
  assert (G : forall r : result bytes,
             (if has_subtle h then r else (_ <- getNodeCrypto h ;; r)%result) = r).
  { intros r. destruct (has_subtle h) eqn:S; [reflexivity|].
    now rewrite (getNodeCrypto_ok h cap S). }
  rewrite G. unfold host_cbc_decrypt. rewrite M.
  intros H. apply pkcs7_unpad_errors in H. subst e. right. now right.
Qed.

Lemma decryptIndirect_errors (h : Host) (dec : bytes -> result bytes)
  (obj : PDFObject) (e : Error) :
  decryptIndirect h dec obj = Throw e ->
  (filter_typed obj = false /\ e = TypeError) \/ exists data, dec data = Throw e.
Proof.
  unfold decryptIndirect, filter_typed.
  destruct (isStandardFilter obj) as [skip|e0] eqn:F.
  - cbn [bind]. destruct skip; [discriminate|].
    destruct obj as [| | | | | | |a|d|d data]; try discriminate.
    destruct (dec data) as [x|e1] eqn:X; [discriminate|].
    cbn [bind]. intros [= <-]. right. now exists data.
  - cbn [bind]. intros [= <-]. left. split; [reflexivity|].
    destruct obj as [| | | | | | |a|d|d data]; try discriminate.
    cbn [isStandardFilter] in F.
    destruct (dict_get d "Filter") as [f|]; [|discriminate].
    destruct (asString f); [discriminate|]. now injection F as <-.
Qed.

Lemma decryptIndirectObjects_errors (h : Host) (dec : bytes -> result bytes)
  (objs : list ((nat * nat) * PDFObject)) (e : Error) :
  snd (decryptIndirectObjects h dec objs) = Throw e ->
  (forallb (fun x => filter_typed (snd x)) objs = false /\ e = TypeError)
  \/ exists data, dec data = Throw e.
Proof.
  induction objs as [|[ref obj] objs IH]; [discriminate|].
  cbn [decryptIndirectObjects forallb snd].
  destruct (decryptIndirect h dec obj) as [obj'|e0] eqn:E1.
  - destruct (decryptIndirectObjects h dec objs) as [rest' r]. cbn [snd] in *.
    intros H. destruct (IH H) as [[T ->]|X]; [left|now right].
    rewrite T. now rewrite andb_false_r.
  - cbn [snd]. intros [= <-].
    destruct (decryptIndirect_errors h dec obj e0 E1) as [[T ->]|X];
      [left|now right].
    now rewrite T.
Qed.

(** A stream whose contents do not decrypt stops the loop, at that stream or
    before it. *)
Lemma decryptIndirectObjects_stream (h : Host) (dec : bytes -> result bytes)
  (objs : list ((nat * nat) * PDFObject)) (ref : nat * nat) (dict : PDFEntries)
  (data : bytes) (e0 : Error) :
  In (ref, PDFRawStream dict data) objs ->
  dec data = Throw e0 ->
  exists e, decryptIndirectObjects h dec objs
            = (fst (decryptIndirectObjects h dec objs), Throw e).
Proof.
  intros I X. induction objs as [|[r x] objs IH]; [contradiction|].
  cbn [decryptIndirectObjects].
  destruct (decryptIndirect h dec x) as [x'|e] eqn:E1; [|now exists e].
  destruct I as [I|I].
  - injection I as -> ->. unfold decryptIndirect in E1.
    cbn [isStandardFilter bind] in E1. rewrite X in E1. discriminate.
  - destruct (IH I) as [e W].
    destruct (decryptIndirectObjects h dec objs) as [rest res].
    cbn [fst] in *. injection W as ->. now exists e.
Qed.

(** When every stream decrypts the loop runs to its end, whatever the
    strings hold. *)
Lemma decryptIndirect_returns (h : Host) (dec : bytes -> result bytes)
  (obj : PDFObject) :
  filter_typed obj = true ->
  (forall dict data, obj = PDFRawStream dict data -> exists p, dec data = OK p) ->
  exists obj', decryptIndirect h dec obj = OK obj'.
Proof.
  unfold filter_typed, decryptIndirect.
  destruct (isStandardFilter obj) as [skip|]; [|discriminate].
  intros _ S. cbn [bind]. destruct skip; [eauto|].
  destruct obj as [| | | | | | |a|d|d data]; cbn [bind]; eauto.
  destruct (S d data eq_refl) as [p ->]. cbn [bind]. eauto.
Qed.

Lemma decryptIndirectObjects_returns (h : Host) (dec : bytes -> result bytes)
  (objs : list ((nat * nat) * PDFObject)) :
  forallb (fun e => filter_typed (snd e)) objs = true ->
  (forall ref dict data,
      In (ref, PDFRawStream dict data) objs -> exists p, dec data = OK p) ->
  snd (decryptIndirectObjects h dec objs) = OK tt.
Proof.
  induction objs as [|[ref obj] objs IH]; intros T S; [reflexivity|].
  cbn [forallb snd] in T. apply andb_prop in T. destruct T as [T1 T2].
  destruct (decryptIndirect_returns h dec obj T1) as [obj' E].
  { intros dict data ->. apply (S ref dict data). now left. }
  cbn [decryptIndirectObjects]. rewrite E.
  assert (G : snd (decryptIndirectObjects h dec objs) = OK tt).
  { apply IH; [exact T2|]. intros r dict data I. apply (S r dict data). now right. }
  destruct (decryptIndirectObjects h dec objs) as [rest' r]. exact G.
Qed.

Lemma recovered_length (h : Host) (pwd U O OE UE key : bytes) :
  recovered h pwd U O OE UE = Some key -> length key = 32.
Proof.
  unfold recovered.
  destruct (matches_user h pwd U);
    [|destruct (matches_owner h pwd U O); [|discriminate]];
    intros H; injection H as <-; exact (cbc_decrypt_blocks_length h 2 _ _ _).
Qed.

(** [decryptPDF] sees the password through [preparePassword] only. *)
Lemma decryptPDF_prepared (h : Host) (c : PDFContext) (w w' : jsstring) :
  preparePassword w = preparePassword w' -> decryptPDF h c w = decryptPDF h c w'.
Proof.
  intros E. unfold decryptPDF, deriveFileKeyFromPassword. now rewrite E.
Qed.

(* ################################################################# *)
(** * The reference hosts obey the laws *)

Module AesFacts.
Import Aes256.

#[local] Instance byte_xor_Assoc : Associative eq byte_xor.
Proof. intros a b c. apply byte_xor_assoc. Qed.

#[local] Instance byte_xor_Comm : Commutative eq byte_xor.
Proof. intros a b. apply byte_xor_comm. Qed.

Lemma xor4_transpose (p0 p1 p2 p3 q0 q1 q2 q3 r0 r1 r2 r3 t0 t1 t2 t3 : byte) :
  xor4 (xor4 p0 p1 p2 p3) (xor4 q0 q1 q2 q3) (xor4 r0 r1 r2 r3) (xor4 t0 t1 t2 t3)
  = xor4 (xor4 p0 q0 r0 t0) (xor4 p1 q1 r1 t1) (xor4 p2 q2 r2 t2) (xor4 p3 q3 r3 t3).
Proof. unfold xor4. aac_reflexivity. Qed.

Lemma all_bytes_eq : all_bytes = map (fun n => byte_of_N (N.of_nat n)) (seq 0 256).
Proof. vm_compute. reflexivity. Qed.

Lemma in_all_bytes (b : byte) : In b all_bytes.
Proof.
  rewrite all_bytes_eq. apply in_map_iff. exists (Byte.to_nat b). split.
  - rewrite Byte.to_nat_via_N, N2Nat.id. apply byte_of_N_to_N.
  - apply in_seq. pose proof (Byte.to_nat_bounded b). lia.
Qed.

Lemma forall_bytes (P : byte -> bool) :
  forallb P all_bytes = true -> forall b, P b = true.
Proof. intros H b. rewrite forallb_forall in H. apply H, in_all_bytes. Qed.

Lemma additive_sound (f : byte -> byte) :
  additive f = true -> forall x y, f (byte_xor x y) = byte_xor (f x) (f y).
Proof.
  intros H x y. apply Byte.byte_dec_bl.
  apply (forall_bytes _ (forall_bytes _ H x) y).
Qed.


Lemma xtime_xor : forall x y, xtime (byte_xor x y) = byte_xor (xtime x) (xtime y).
Proof. apply additive_sound. vm_compute. reflexivity. Qed.

Lemma mul2_xor x y : mul2 (byte_xor x y) = byte_xor (mul2 x) (mul2 y).
Proof. apply xtime_xor. Qed.
Lemma mul4_xor x y : mul4 (byte_xor x y) = byte_xor (mul4 x) (mul4 y).
Proof. unfold mul4. now rewrite !xtime_xor. Qed.
Lemma mul8_xor x y : mul8 (byte_xor x y) = byte_xor (mul8 x) (mul8 y).
Proof. unfold mul8. now rewrite !xtime_xor. Qed.
Lemma mul3_xor x y : mul3 (byte_xor x y) = byte_xor (mul3 x) (mul3 y).
Proof. unfold mul3. rewrite mul2_xor. aac_reflexivity. Qed.
Lemma mul9_xor x y : mul9 (byte_xor x y) = byte_xor (mul9 x) (mul9 y).
Proof. unfold mul9. rewrite mul8_xor. aac_reflexivity. Qed.
Lemma mul11_xor x y : mul11 (byte_xor x y) = byte_xor (mul11 x) (mul11 y).
Proof. unfold mul11. rewrite mul8_xor, mul2_xor. aac_reflexivity. Qed.
Lemma mul13_xor x y : mul13 (byte_xor x y) = byte_xor (mul13 x) (mul13 y).
Proof. unfold mul13. rewrite mul8_xor, mul4_xor. aac_reflexivity. Qed.
Lemma mul14_xor x y : mul14 (byte_xor x y) = byte_xor (mul14 x) (mul14 y).
Proof. unfold mul14. rewrite mul8_xor, mul4_xor, mul2_xor. aac_reflexivity. Qed.

Lemma xor4_map (f : byte -> byte) :
  (forall x y, f (byte_xor x y) = byte_xor (f x) (f y)) ->
  forall a b c d, f (xor4 a b c d) = xor4 (f a) (f b) (f c) (f d).
Proof. intros H a b c d. unfold xor4. now rewrite !H. Qed.

(** An identity in one byte, checked on the 256 bytes. *)
Ltac all_bytes a :=
  apply Byte.byte_dec_bl; revert a; apply forall_bytes; vm_compute; reflexivity.

Lemma xor4_only_0 (a : byte) : xor4 a x00 x00 x00 = a.
Proof. unfold xor4. repeat (rewrite byte_xor_0_l || rewrite byte_xor_0_r). reflexivity. Qed.
Lemma xor4_only_1 (a : byte) : xor4 x00 a x00 x00 = a.
Proof. unfold xor4. repeat (rewrite byte_xor_0_l || rewrite byte_xor_0_r). reflexivity. Qed.
Lemma xor4_only_2 (a : byte) : xor4 x00 x00 a x00 = a.
Proof. unfold xor4. repeat (rewrite byte_xor_0_l || rewrite byte_xor_0_r). reflexivity. Qed.
Lemma xor4_only_3 (a : byte) : xor4 x00 x00 x00 a = a.
Proof. unfold xor4. repeat (rewrite byte_xor_0_l || rewrite byte_xor_0_r). reflexivity. Qed.

(** In a sum of four products of one byte [a], the value [v] it has on
    every byte, checked on the 256 of them. *)
Ltac one_byte a v :=
  match goal with
  | |- context [xor4 ?p ?q ?r ?t] =>
      lazymatch p with
      | xor4 _ _ _ _ => fail
      | context [a] =>
          let E := fresh "E" in
          assert (E : xor4 p q r t = v) by all_bytes a;
          rewrite E; clear E
      end
  end.

Ltac entry a0 a1 a2 a3 v0 v1 v2 v3 :=
  rewrite xor4_transpose;
  one_byte a0 v0; one_byte a1 v1; one_byte a2 v2; one_byte a3 v3.

Lemma inv_mix_mix_column (a0 a1 a2 a3 : byte) :
  columns inv_mix_column (mix_column a0 a1 a2 a3) = [a0; a1; a2; a3].
Proof.
  unfold mix_column. cbn [columns]. unfold inv_mix_column. rewrite app_nil_r.
  rewrite !(xor4_map _ mul14_xor), !(xor4_map _ mul11_xor),
          !(xor4_map _ mul13_xor), !(xor4_map _ mul9_xor).
  apply f_equal2; [|apply f_equal2; [|apply f_equal2; [|apply f_equal2; [|reflexivity]]]].
  - entry a0 a1 a2 a3 a0 x00 x00 x00. apply xor4_only_0.
  - entry a0 a1 a2 a3 x00 a1 x00 x00. apply xor4_only_1.
  - entry a0 a1 a2 a3 x00 x00 a2 x00. apply xor4_only_2.
  - entry a0 a1 a2 a3 x00 x00 x00 a3. apply xor4_only_3.
Qed.

Lemma inv_sbox_sbox (b : byte) : inv_sbox (sbox b) = b.
Proof. all_bytes b. Qed.

Lemma InvSubBytes_SubBytes (s : bytes) : InvSubBytes (SubBytes s) = s.
Proof.
  unfold InvSubBytes, SubBytes. rewrite map_map.
  rewrite <- (map_id s) at 2. apply map_ext, inv_sbox_sbox.
Qed.

(** A state is sixteen bytes. *)
Ltac sixteen s H :=
  do 16 (destruct s as [|? s]; [discriminate H|]);
  destruct s; [clear H|discriminate H].

Lemma InvShiftRows_ShiftRows (s : bytes) :
  length s = 16 -> InvShiftRows (ShiftRows s) = s.
Proof. intros H. sixteen s H. reflexivity. Qed.

Lemma columns_mix_app (f : byte -> byte -> byte -> byte -> bytes)
  (a b c d : byte) (l : bytes) :
  columns f (mix_column a b c d ++ l) = columns f (mix_column a b c d) ++ columns f l.
Proof. unfold mix_column. cbn [columns app]. now rewrite app_nil_r. Qed.

Lemma InvMixColumns_MixColumns (s : bytes) :
  length s = 16 -> InvMixColumns (MixColumns s) = s.
Proof.
  intros H. sixteen s H. unfold MixColumns, InvMixColumns.
  cbn [columns].
  rewrite !columns_mix_app, !inv_mix_mix_column. reflexivity.
Qed.

Lemma MixColumns_length (s : bytes) : length s = 16 -> length (MixColumns s) = 16.
Proof. intros H. sixteen s H. reflexivity. Qed.

Lemma round_length (rk s : bytes) : length (round rk s) = 16.
Proof. apply xor16_length. Qed.

Lemma rounds_length (rks : list bytes) (s : bytes) :
  length s = 16 -> length (rounds rks s) = 16.
Proof.
  revert s. induction rks as [|rk rks IH]; intros s H; [exact H|].
  cbn [rounds]. apply IH, round_length.
Qed.

Lemma ShiftRows_length (s : bytes) : length (ShiftRows s) = 16.
Proof. reflexivity. Qed.

Lemma SubBytes_length (s : bytes) : length (SubBytes s) = length s.
Proof. apply length_map. Qed.
Lemma AddRoundKey_twice (s rk : bytes) :
  length s = 16 -> AddRoundKey (AddRoundKey s rk) rk = s.
Proof.
  intros H. unfold AddRoundKey.
  apply (bytes_ext 16); [apply xor16_length|exact H|].
  intros i Hi. rewrite !at_xor16 by exact Hi.
  now rewrite <- byte_xor_assoc, byte_xor_nilpotent, byte_xor_0_r.
Qed.

Lemma inv_round_round (rk s : bytes) :
  length s = 16 -> inv_round rk (round rk s) = s.
Proof.
  intros H. unfold inv_round, round.
  rewrite AddRoundKey_twice
    by (apply MixColumns_length, ShiftRows_length).
  rewrite InvMixColumns_MixColumns by apply ShiftRows_length.
  rewrite InvShiftRows_ShiftRows by now rewrite SubBytes_length.
  apply InvSubBytes_SubBytes.
Qed.

Lemma inv_rounds_rounds (rks : list bytes) (s : bytes) :
  length s = 16 -> inv_rounds rks (rounds rks s) = s.
Proof.
  revert s. induction rks as [|rk rks IH]; intros s H; [reflexivity|].
  cbn [rounds inv_rounds]. rewrite IH by apply round_length.
  now apply inv_round_round.
Qed.

Lemma inv_cipher_cipher (rks : list bytes) (block : bytes) :
  length block = 16 -> inv_cipher rks (cipher rks block) = block.
Proof.
  intros H. unfold inv_cipher, cipher.
  rewrite AddRoundKey_twice by apply ShiftRows_length.
  rewrite InvShiftRows_ShiftRows
    by (rewrite SubBytes_length; apply rounds_length, xor16_length).
  rewrite InvSubBytes_SubBytes.
  rewrite inv_rounds_rounds by apply xor16_length.
  now apply AddRoundKey_twice.
Qed.

Lemma decrypt_encrypt (key block : bytes) :
  length block = 16 -> decrypt key (encrypt key block) = block.
Proof. apply inv_cipher_cipher. Qed.

Lemma encrypt_length (key block : bytes) : length (encrypt key block) = 16.
Proof. apply xor16_length. Qed.

Lemma decrypt_length (key block : bytes) : length (decrypt key block) = 16.
Proof. apply xor16_length. Qed.

End AesFacts.

Lemma Sha256_digest_length (msg : bytes) : length (Sha256.digest msg) = 32.
Proof.
  unfold Sha256.digest.
  destruct (Sha256.blocks _ Sha256.initial _) as [[[[[[[a b] c] d] e] f] g] hh].
  reflexivity.
Qed.

(** The two primitives on the test vectors of their standards: the digest of
    "abc" (FIPS 180-4) and the AES-256 example of FIPS 197, appendix C.3. *)
Example sha256_abc :
  bytesToHex (Sha256.digest [x61; x62; x63])
  = "ba7816bf8f01cfea414140de5dae2223b00361a396177a9cb410ff61f20015ad"%string.
Proof. vm_compute. reflexivity. Qed.

Example aes256_fips197 :
  bytesToHex
    (Aes256.encrypt (map (fun n => byte_of_N (N.of_nat n)) (seq 0 32))
       (hex_asBytes "00112233445566778899aabbccddeeff"))
  = "8ea2b7ca516745bfeafc49904b496089"%string.
Proof. vm_compute. reflexivity. Qed.

Lemma reference_laws (h : Host) :
  SHA256 h = Sha256.digest -> AES256 h = Aes256.encrypt ->
  AES256_inv h = Aes256.decrypt -> HostLaws h.
Proof.
  intros ES EA EI. constructor.
  - intros d. rewrite ES. apply Sha256_digest_length.
  - intros k b _ _. rewrite EA. apply AesFacts.encrypt_length.
  - intros k b _ _. rewrite EI. apply AesFacts.decrypt_length.
  - intros k b _ Hb. rewrite EA, EI. now apply AesFacts.decrypt_encrypt.
Qed.

Lemma web_host_laws : HostLaws web_host.
Proof. now apply reference_laws. Qed.

Lemma node_host_laws : HostLaws node_host.
Proof. now apply reference_laws. Qed.

Lemma sample_sealed_eq :
  encryptPDF web_host sample_document (js "user123") (Some (js "owner456")) no_options 0
  = OK (sample_sealed, 148).
Proof. vm_compute. reflexivity. Qed.

Lemma sample_keys_eq : computeRev5Keys web_host sample_params 0 = OK (sample_keys, 68).
Proof. vm_compute. reflexivity. Qed.

Lemma one_leaf_empty_owner_eq :
  encryptPDF web_host one_leaf (js "user123") (Some []) no_options 0
  = OK (one_leaf_empty_owner, 84).
Proof. vm_compute. reflexivity. Qed.

Lemma one_leaf_long_user_eq :
  encryptPDF web_host one_leaf (long_password "b") (Some (js "owner456"))
    no_options 0
  = OK (one_leaf_long_user, 84).
Proof. vm_compute. reflexivity. Qed.

(** [TextEncoder] on U+00E9, U+20AC, the pair D83D DE00 (U+1F600) and a
    trail surrogate on its own. *)
Example TextEncoder_encode_sample :
  bytesToHex (TextEncoder_encode [ (x00, xe9); (x20, xac); (xd8, x3d); (xde, x00);
                                   (xdc, x00) ])
  = "c3a9e282acf09f9880efbfbd"%string.
Proof. reflexivity. Qed.

(* ################################################################# *)
(** * The claims *)

(** ** C5: the unpadded single-block pair *)

(** C5. For every 32-byte key and 16-byte block, [aes256EcbDecrypt] undoes
    [aes256EcbEncrypt].  Where Web Crypto is present, the block [c] given to
    the decrypt is followed by a second block, the encryption of
    [[0x10]*16 XOR c]; padded decryption of the two yields the wanted block
    first and a block of padding after it, which the host strips. *)
Theorem ecb_decrypt_inverts_encrypt (h : Host) (key block : bytes) :
  HostLaws h -> capable h = true -> length key = 32 -> length block = 16 ->
  exists c,
    aes256EcbEncrypt h key block = OK c
    /\ length c = 16
    /\ aes256EcbDecrypt h key c = OK block
    /\ (has_subtle h = true ->
        exists c2,
          aes256EcbEncrypt h key (xor16 (filled 16 x10) c) = OK c2
          /\ aes256EcbDecrypt h key c = host_cbc_decrypt h key (zeros 16) (c ++ c2)
          /\ host_cbc_decrypt_nopad h key (zeros 16) (c ++ c2)
             = block ++ filled 16 x10).
Proof.
  intros laws cap Hk Hb.
  exists (AES256 h key block).
  assert (Hc : length (AES256 h key block) = 16) by now apply (AES256_length h laws).
  split; [now apply aes256EcbEncrypt_ok|]. split; [exact Hc|].
  split.
  { rewrite (aes256EcbDecrypt_ok h laws cap) by assumption.
    now rewrite (AES256_inv_AES256 h laws). }
  intros S. exists (AES256 h key (xor16 (filled 16 x10) (AES256 h key block))).
  split; [apply (aes256EcbEncrypt_ok h laws cap); [assumption|apply xor16_length]|].
  split.
  - unfold aes256EcbDecrypt, AES_BLOCK_SIZE, KEY_LENGTH.
    rewrite Hc, Hk, S. cbn [Nat.eqb negb orb].
    rewrite (aes256EcbEncrypt_ok h laws cap) by (try apply xor16_length; assumption).
    cbn [bind].
    now rewrite twoBlocks_eq
      by (try apply (AES256_length h laws); try apply xor16_length; assumption).
  - rewrite (two_block_trick h laws) by assumption.
    now rewrite (AES256_inv_AES256 h laws).
Qed.

Lemma ecb_decrypt_inverts_encrypt_witness :
  exists c,
    aes256EcbEncrypt web_host sample_key sample_block = OK c
    /\ length c = 16
    /\ aes256EcbDecrypt web_host sample_key c = OK sample_block
    /\ (has_subtle web_host = true ->
        exists c2,
          aes256EcbEncrypt web_host sample_key (xor16 (filled 16 x10) c) = OK c2
          /\ aes256EcbDecrypt web_host sample_key c
             = host_cbc_decrypt web_host sample_key (zeros 16) (c ++ c2)
          /\ host_cbc_decrypt_nopad web_host sample_key (zeros 16) (c ++ c2)
             = sample_block ++ filled 16 x10).
Proof.
  apply (ecb_decrypt_inverts_encrypt web_host sample_key sample_block).
  - exact web_host_laws.
  - reflexivity.
  - reflexivity.
  - reflexivity.
Defined.

(** ** C3: a payload of one full block *)

(** C3 as amended.  A payload of exactly 16 bytes encrypts to exactly 48
    bytes (the IV, the block, and the full block of padding that a
    full-block plaintext still gets) and decrypts back to the 16 bytes. *)
Theorem full_block_payload (h : Host) (data fileKey : bytes) (s : nat) :
  HostLaws h -> capable h = true -> length data = 16 -> length fileKey = 32 ->
  exists out,
    encryptObject h data fileKey s = OK (out, s + 16)
    /\ length out = 48
    /\ decryptObject h out fileKey = OK data.
Proof.
  intros laws cap Hd Hk. exists (encrypted_at h data fileKey s).
  split; [now apply encryptObject_ok|]. split.
  - rewrite (encrypted_at_length h laws) by assumption. now rewrite Hd.
  - now apply decryptObject_encrypted.
Qed.

Lemma full_block_payload_witness :
  exists out,
    encryptObject web_host sample_block sample_key 0 = OK (out, 0 + 16)
    /\ length out = 48
    /\ decryptObject web_host out sample_key = OK sample_block.
Proof.
  apply (full_block_payload web_host sample_block sample_key 0).
  - exact web_host_laws.
  - reflexivity.
  - reflexivity.
  - reflexivity.
Defined.

(** C3 as stated fails: the encrypted form of a 16-byte payload is not 32
    bytes long. *)
Lemma sixteen_byte_payload_seals_to_48_bytes :
  exists out s',
    encryptObject web_host sample_block sample_key 0 = OK (out, s')
    /\ length sample_block = 16
    /\ length out <> 32.
Proof.
  eexists _, _. split; [vm_compute; reflexivity|]. split; [reflexivity|].
  vm_compute. discriminate.
Qed.

(** ** C7: a descriptor of another scheme *)

(** C7. When the descriptor names a revision or version other than 5,
    [decryptPDF] throws 'Unsupported encryption' and the loaded document is
    as it was: no object has been visited. *)
Theorem unsupported_scheme_fails_fast (h : Host) (c : PDFContext)
  (password : jsstring) (d : PDFEntries) :
  descriptor c = Some d ->
  number_or_0 (dict_lookup c d "R") <> 5%Z \/ number_or_0 (dict_lookup c d "V") <> 5%Z ->
  decryptPDF h c password
  = (c, Throw (UnsupportedEncryption (number_or_0 (dict_lookup c d "R"))
                 (number_or_0 (dict_lookup c d "V")))).
Proof.
  intros Hd H. unfold decryptPDF, descriptor in *.
  destruct (trailer_Encrypt c) as [r|]; [|discriminate].
  destruct (context_lookup c r) as [[| | | | | | | |d'|]|]; try discriminate.
  injection Hd as ->.
  destruct (Z.eqb_spec (number_or_0 (dict_lookup c d "R")) 5) as [ER|NR];
    destruct (Z.eqb_spec (number_or_0 (dict_lookup c d "V")) 5) as [EV|NV];
    try reflexivity.
  destruct H; contradiction.
Qed.

Lemma unsupported_scheme_fails_fast_witness :
  decryptPDF web_host revision4_document (js "user123")
  = (revision4_document, Throw (UnsupportedEncryption 4 4)).
Proof.
  apply (unsupported_scheme_fails_fast web_host revision4_document (js "user123")
           [ ("Filter", PDFName "Standard"); ("V", PDFNumber 4); ("R", PDFNumber 4) ]%string).
  - reflexivity.
  - left. discriminate.
Defined.

(** ** C9: the permissions seal *)

(** C9. The permissions seal is the encryption, as one unpadded block under
    the file encryption key (the first 32 bytes [computeRev5Keys] draws), of
    one 16-byte block: the permission bitmask on four bytes, low byte first;
    four bytes 0xFF; 'T' or 'F' for the metadata flag; the tag "adb"; and
    the four bytes [getRandomBytes(4)] yields, the last bytes
    [computeRev5Keys] draws.  [encryptPDF] calls [computeRev5Keys] with the
    permissions of its options, -4 when there are none, writes that number
    under [P] and the seal under [Perms]. *)
Theorem permissions_seal (h : Host) (params : Rev5EncryptParams) (s s' : nat)
  (k : Rev5Keys) :
  HostLaws h ->
  computeRev5Keys h params s = OK (k, s') ->
  (exists rnd,
      getRandomBytes h 32 s = OK (fileEncryptionKey k, s + 32)
      /\ getRandomBytes h 4 (s + 64) = OK (rnd, s')
      /\ let block := perms_layout (permissions params) (encryptMetadata params) rnd in
         length block = 16
         /\ aes256EcbEncrypt h (fileEncryptionKey k) block = OK (Perms k)
         /\ Perms k = AES256 h (fileEncryptionKey k) block)
  /\ (forall D u o options s0 s1 E,
         encryptPDF h D u o options s0 = OK (E, s1) ->
         let p := match opt_permissions options with
                  | Some p => p
                  | None => (-4)%Z
                  end in
         exists pos k0 objs ref d,
           computeRev5Keys h
             {| userPassword := u;
                ownerPassword := match o with Some x => x | None => u end;
                permissions := p;
                encryptMetadata := match opt_encryptMetadata options with
                                   | Some false => false
                                   | _ => true
                                   end |} pos = OK (k0, pos + 68)
           /\ indirectObjects E = objs ++ [(ref, PDFDict d)]
           /\ trailer_Encrypt E = Some (PDFRef (fst ref) (snd ref))
           /\ dict_get d "P" = Some (PDFNumber p)
           /\ getEncryptBytes h d "Perms" = Some (Perms k0)).
Proof.
  intros laws H.
  pose proof (computeRev5Keys_capable h params s (k, s') H) as cap.
  rewrite (computeRev5Keys_ok h laws cap) in H. injection H as <- <-.
  split.
  - exists (drawn h (s + 64) 4).
    assert (L : length (perms_layout (permissions params) (encryptMetadata params)
                          (drawn h (s + 64) 4)) = 16) by reflexivity.
    refine (conj _ (conj _ (conj L (conj _ _)))).
    + apply (getRandomBytes_ok h cap).
    + rewrite (getRandomBytes_ok h cap). unfold drawn. f_equal. f_equal. lia.
    + unfold rev5_keys. cbn [fileEncryptionKey Perms].
      rewrite rev5_permsBlock_layout.
      apply (aes256EcbEncrypt_ok h laws cap); [apply drawn_length|exact L].
    + unfold rev5_keys. cbn [fileEncryptionKey Perms].
      now rewrite rev5_permsBlock_layout.
  - intros D u o options s0 s1 E HE p.
    destruct (encryptPDF_inv h D u o options s0 s1 E laws HE)
      as (_ & objs & _ & _ & _ & ->).
    exists (keys_position D s0), (keys_at h D u o options s0),
      (map update_indirect objs), (S (largestObjectNumber D), 0),
      (entries_of (encryptDict (effective_permissions options)
                     (effective_encryptMetadata options) (keys_at h D u o options s0))).
    refine (conj _ (conj _ (conj _ (conj _ _)))).
    + exact (computeRev5Keys_ok h laws cap (effective_params u o options)
               (keys_position D s0)).
    + apply indirectObjects_returned.
    + reflexivity.
    + reflexivity.
    + now destruct (getEncryptBytes_encryptDict h (effective_permissions options)
                      (effective_encryptMetadata options) (keys_at h D u o options s0))
        as (_ & _ & _ & _ & ->).
Qed.

Lemma permissions_seal_witness :
  (exists rnd,
      getRandomBytes web_host 32 0 = OK (fileEncryptionKey sample_keys, 0 + 32)
      /\ getRandomBytes web_host 4 (0 + 64) = OK (rnd, 68)
      /\ let block := perms_layout (-3904) true rnd in
         length block = 16
         /\ aes256EcbEncrypt web_host (fileEncryptionKey sample_keys) block
            = OK (Perms sample_keys)
         /\ Perms sample_keys = AES256 web_host (fileEncryptionKey sample_keys) block)
  /\ (forall D u o options s0 s1 E,
         encryptPDF web_host D u o options s0 = OK (E, s1) ->
         let p := match opt_permissions options with
                  | Some p => p
                  | None => (-4)%Z
                  end in
         exists pos k0 objs ref d,
           computeRev5Keys web_host
             {| userPassword := u;
                ownerPassword := match o with Some x => x | None => u end;
                permissions := p;
                encryptMetadata := match opt_encryptMetadata options with
                                   | Some false => false
                                   | _ => true
                                   end |} pos = OK (k0, pos + 68)
           /\ indirectObjects E = objs ++ [(ref, PDFDict d)]
           /\ trailer_Encrypt E = Some (PDFRef (fst ref) (snd ref))
           /\ dict_get d "P" = Some (PDFNumber p)
           /\ getEncryptBytes web_host d "Perms" = Some (Perms k0)).
Proof.
  exact (permissions_seal web_host sample_params 0 68 sample_keys
           web_host_laws sample_keys_eq).
Defined.

(** Sealed without options, the sample document has [P] at -4, and its
    [Perms] is the block of that bitmask under the file key. *)
Example default_permissions_sample :
  dict_get sample_descriptor "P" = Some (PDFNumber (-4))
  /\ getEncryptBytes web_host sample_descriptor "Perms"
     = Some (AES256 web_host (drawn web_host 16 32)
               (perms_layout (-4) true (drawn web_host (16 + 64) 4))).
Proof. split; vm_compute; reflexivity. Qed.

(** The bitmask -3904 is laid out low byte first. *)
Example perms_layout_sample :
  perms_layout (-3904) true [x01; x02; x03; x04]
  = [xc0; xf0; xff; xff; xff; xff; xff; xff; x54; x61; x64; x62; x01; x02; x03; x04].
Proof. reflexivity. Qed.

(** ** C8: the lengths of the descriptor's fields *)

(** C8. Whenever [encryptPDF] succeeds, the Encrypt dictionary it registers
    last and refers to from the trailer has [O] and [U] of 48 bytes, [OE]
    and [UE] of 32 bytes and [Perms] of 16 bytes. *)
Theorem descriptor_field_lengths (h : Host) (D : PDFContext) (u : jsstring)
  (o : option jsstring) (options : EncryptOptions) (s s' : nat) (E : PDFContext) :
  HostLaws h ->
  encryptPDF h D u o options s = OK (E, s') ->
  exists objs ref d,
    indirectObjects E = objs ++ [(ref, PDFDict d)]
    /\ trailer_Encrypt E = Some (PDFRef (fst ref) (snd ref))
    /\ option_map (@length byte) (getEncryptBytes h d "O") = Some 48
    /\ option_map (@length byte) (getEncryptBytes h d "U") = Some 48
    /\ option_map (@length byte) (getEncryptBytes h d "OE") = Some 32
    /\ option_map (@length byte) (getEncryptBytes h d "UE") = Some 32
    /\ option_map (@length byte) (getEncryptBytes h d "Perms") = Some 16.
Proof.
  intros laws H.
  destruct (encryptPDF_inv h D u o options s s' E laws H)
    as (cap & objs & _ & _ & _ & ->).
  destruct (keys_lengths h laws D u o options s) as (_ & LO & LU & LOE & LUE & LP).
  destruct (getEncryptBytes_encryptDict h (effective_permissions options)
              (effective_encryptMetadata options) (keys_at h D u o options s))
    as (GO & GU & GOE & GUE & GP).
  exists (map update_indirect objs), (S (largestObjectNumber D), 0),
    (entries_of (encryptDict (effective_permissions options)
                   (effective_encryptMetadata options) (keys_at h D u o options s))).
  rewrite GO, GU, GOE, GUE, GP. cbn [option_map].
  rewrite LO, LU, LOE, LUE, LP.
  split; [apply indirectObjects_returned|]. repeat split.
Qed.

Lemma descriptor_field_lengths_witness :
  exists objs ref d,
    indirectObjects sample_sealed = objs ++ [(ref, PDFDict d)]
    /\ trailer_Encrypt sample_sealed = Some (PDFRef (fst ref) (snd ref))
    /\ option_map (@length byte) (getEncryptBytes web_host d "O") = Some 48
    /\ option_map (@length byte) (getEncryptBytes web_host d "U") = Some 48
    /\ option_map (@length byte) (getEncryptBytes web_host d "OE") = Some 32
    /\ option_map (@length byte) (getEncryptBytes web_host d "UE") = Some 32
    /\ option_map (@length byte) (getEncryptBytes web_host d "Perms") = Some 16.
Proof.
  exact (descriptor_field_lengths web_host sample_document (js "user123")
           (Some (js "owner456")) no_options 0 148 sample_sealed
           web_host_laws sample_sealed_eq).
Defined.

(** ** C6: the owner record is bound to the user record *)

(** C6. In [computeRev5Keys] [U] is 48 bytes, its hash the digest of the
    user password and its validation salt; the owner hash is the digest of
    the owner password, the owner validation salt and that [U], and the key
    that wraps [OE] is the digest of the owner password, the owner key salt
    and [U].  [deriveFileKeyFromPassword] recomputes both over the [U] it is
    given: a password that fails the user test yields a key exactly when its
    digest with [O]'s validation salt and [U] equals [O]'s hash, and the key
    is [OE] unwrapped under its digest with [O]'s key salt and [U]. *)
Theorem owner_record_bound_to_user (h : Host) (params : Rev5EncryptParams)
  (s s' : nat) (k : Rev5Keys) :
  HostLaws h ->
  computeRev5Keys h params s = OK (k, s') ->
  let ownerPwd :=
    preparePassword (js_or (ownerPassword params) (userPassword params)) in
  length (U k) = 48
  /\ subarray (U k) 0 32
     = SHA256 h (preparePassword (userPassword params) ++ subarray (U k) 32 40)
  /\ subarray (O k) 0 32 = SHA256 h (ownerPwd ++ subarray (O k) 32 40 ++ U k)
  /\ aes256CbcEncryptNoPadding h (SHA256 h (ownerPwd ++ subarray (O k) 40 48 ++ U k))
       ZERO_IV (fileEncryptionKey k) = OK (OE k)
  /\ (forall password U' O' OE' UE',
        length OE' = 32 -> length UE' = 32 ->
        matches_user h (preparePassword password) U' = false ->
        deriveFileKeyFromPassword h password U' O' OE' UE'
        = OK (if (compareBytes
                    (SHA256 h (preparePassword password ++ subarray O' 32 40 ++ U'))
                    (subarray O' 0 32) =? 0)%Z
              then try_key (aes256CbcDecryptNoPadding h
                              (SHA256 h (preparePassword password
                                         ++ subarray O' 40 48 ++ U'))
                              ZERO_IV OE')
              else None)).
Proof.
  intros laws H ownerPwd.
  pose proof (computeRev5Keys_capable h params s (k, s') H) as cap.
  rewrite (computeRev5Keys_ok h laws cap) in H. injection H as <- <-.
  unfold rev5_keys. cbn [U O OE fileEncryptionKey]. fold ownerPwd.
  destruct (rev5_O_parts h laws (preparePassword (userPassword params)) ownerPwd s)
    as (-> & -> & ->).
  refine (conj _ (conj _ (conj _ (conj _ _)))).
  - apply (rev5_U_length h laws).
  - destruct (rev5_U_parts h laws (preparePassword (userPassword params)) s)
      as (-> & -> & _). reflexivity.
  - reflexivity.
  - rewrite (aes256CbcEncryptNoPadding_ok h laws cap);
      [|apply (SHA256_length h laws)|reflexivity|now rewrite drawn_length].
    now rewrite drawn_length.
  - intros password U' O' OE' UE' LOE LUE M.
    rewrite (deriveFileKeyFromPassword_ok h laws cap) by assumption.
    unfold recovered. rewrite M. unfold matches_owner.
    destruct (compareBytes _ (subarray O' 0 32) =? 0)%Z; [|reflexivity].
    rewrite (aes256CbcDecryptNoPadding_ok h laws cap);
      [|apply (SHA256_length h laws)|reflexivity|now rewrite LOE].
    unfold try_key. rewrite LOE, cbc_decrypt_blocks_length. reflexivity.
Qed.

Lemma owner_record_bound_to_user_witness :
  let ownerPwd := preparePassword (js_or (js "owner456") (js "user123")) in
  length (U sample_keys) = 48
  /\ subarray (U sample_keys) 0 32
     = SHA256 web_host (preparePassword (js "user123") ++ subarray (U sample_keys) 32 40)
  /\ subarray (O sample_keys) 0 32
     = SHA256 web_host (ownerPwd ++ subarray (O sample_keys) 32 40 ++ U sample_keys)
  /\ aes256CbcEncryptNoPadding web_host
       (SHA256 web_host (ownerPwd ++ subarray (O sample_keys) 40 48 ++ U sample_keys))
       ZERO_IV (fileEncryptionKey sample_keys) = OK (OE sample_keys)
  /\ (forall password U' O' OE' UE',
        length OE' = 32 -> length UE' = 32 ->
        matches_user web_host (preparePassword password) U' = false ->
        deriveFileKeyFromPassword web_host password U' O' OE' UE'
        = OK (if (compareBytes
                    (SHA256 web_host (preparePassword password ++ subarray O' 32 40 ++ U'))
                    (subarray O' 0 32) =? 0)%Z
              then try_key (aes256CbcDecryptNoPadding web_host
                              (SHA256 web_host (preparePassword password
                                                ++ subarray O' 40 48 ++ U'))
                              ZERO_IV OE')
              else None)).
Proof.
  exact (owner_record_bound_to_user web_host sample_params 0 68 sample_keys
           web_host_laws sample_keys_eq).
Defined.

(** On the sample keys the owner password recovers the file key through the
    owner record. *)
Example owner_password_recovers_sample_key :
  deriveFileKeyFromPassword web_host (js "owner456") (U sample_keys) (O sample_keys)
    (OE sample_keys) (UE sample_keys) = OK (Some (fileEncryptionKey sample_keys)).
Proof. vm_compute. reflexivity. Qed.

(** ** C10: the skip test is a test of the name *)

(** C10. An indirect object that is a plain dictionary whose [Filter] is the
    name [/Standard] is left as it is, with every string inside it, by
    [encryptPDF] and by [decryptPDF], whether or not the trailer's [Encrypt]
    refers to it; for [decryptPDF] this holds of the document in whatever
    state the call leaves it.  A stream is never tested: both loops hand its
    contents to the cipher whatever its dictionary holds. *)
Theorem standard_filter_dictionaries_are_skipped (h : Host) :
  (forall D u o options s E s' i ref d,
      encryptPDF h D u o options s = OK (E, s') ->
      nth_error (indirectObjects D) i = Some (ref, PDFDict d) ->
      dict_get d "Filter" = Some (PDFName "Standard") ->
      nth_error (indirectObjects E) i = Some (ref, PDFDict d))
  /\ (forall c password i ref d,
         nth_error (indirectObjects c) i = Some (ref, PDFDict d) ->
         dict_get d "Filter" = Some (PDFName "Standard") ->
         nth_error (indirectObjects (fst (decryptPDF h c password))) i
         = Some (ref, PDFDict d))
  /\ (forall enc d data s,
         isStandardFilter (PDFRawStream d data) = OK false
         /\ encryptIndirect h enc (PDFRawStream d data) s
            = (encrypted <~ enc data ;; ret (PDFRawStream d encrypted))%rand s)
  /\ (forall dec d data,
         decryptIndirect h dec (PDFRawStream d data)
         = (decrypted <- dec data ;; OK (PDFRawStream d decrypted))%result).
Proof.
  refine (conj _ (conj _ (conj _ _))).
  - intros D u o options s E s' i ref d H N F.
    destruct (encryptPDF_objects h D u o options s s' E H)
      as (enc & s1 & objs & ed & W & ->).
    apply nth_error_updated. rewrite nth_error_app1.
    + exact (encryptIndirectObjects_skip h enc _ objs s1 s' i ref (PDFDict d) W N
               (isStandardFilter_name d F)).
    + rewrite <- (length_map fst), (encryptIndirectObjects_refs h enc _ _ _ _ W),
        length_map.
      apply nth_error_Some. rewrite N. discriminate.
  - intros c password i ref d N F.
    assert (G : forall objs,
               objs = indirectObjects c
               \/ (exists fileKey,
                      objs = fst (decryptIndirectObjects h
                                    (fun data => decryptObject h data fileKey)
                                    (indirectObjects c))) ->
               nth_error objs i = Some (ref, PDFDict d)).
    { intros objs [->|[fileKey ->]]; [exact N|].
      exact (decryptIndirectObjects_skip h _ _ i ref (PDFDict d) N
               (isStandardFilter_name d F)). }
    destruct (decryptPDF_objects h c password) as (objs & Ho & [->| ->]).
    + now apply G.
    + apply nth_error_updated. now apply G.
  - intros enc d data s. split; [reflexivity|].
    unfold encryptIndirect, rbind, lift, ret. cbn [isStandardFilter].
    destruct (enc data s) as [[encrypted s1]|e]; reflexivity.
  - intros dec d data. unfold decryptIndirect. cbn [isStandardFilter bind].
    destruct (dec data); reflexivity.
Qed.

Lemma standard_filter_dictionaries_are_skipped_witness :
  let skipped := PDFDict [ ("Filter", PDFName "Standard");
                           ("Note", PDFString "left alone") ]%string in
  nth_error (indirectObjects sample_document) 2 = Some ((3, 0), skipped)
  /\ nth_error (indirectObjects sample_sealed) 2 = Some ((3, 0), skipped)
  /\ nth_error (indirectObjects (fst (decryptPDF web_host sample_sealed (js "user123")))) 2
     = Some ((3, 0), skipped)
  /\ isStandardFilter (PDFRawStream [ ("Filter", PDFName "Standard") ]%string
                         (hex_asBytes "cafe")) = OK false.
Proof.
  destruct (standard_filter_dictionaries_are_skipped web_host) as (HE & HD & HS & _).
  refine (conj eq_refl (conj _ (conj _ _))).
  - exact (HE sample_document (js "user123") (Some (js "owner456")) no_options
             0 sample_sealed 148 2 (3, 0) _ sample_sealed_eq eq_refl eq_refl).
  - exact (HD sample_sealed (js "user123") 2 (3, 0) _ eq_refl eq_refl).
  - exact (proj1 (HS (fun data => ret data) _ (hex_asBytes "cafe") 0)).
Defined.

(** ** C1: the round trip *)

(** C1 as amended.  On a host that can run the code, for every document [D]
    that has a page tree with at least one page (so that [save] writes it as
    it is), with [largestObjectNumber] at or above its object numbers and no
    indirect dictionary whose [Filter] lacks [asString], every user password
    [u], owner password [o] and options: [encryptPDF] succeeds; decrypting
    its result with [u] succeeds and restores the payload of every object of
    [D], stream bytes and string bytes; and decrypting with [o] does the
    same provided [o] is not empty (an empty owner password stands for [u])
    and does not pass the user's validation hash unless it prepares to the
    same bytes as [u]. *)
Theorem encrypt_decrypt_roundtrip (h : Host) (D : PDFContext) (u : jsstring) (o : option jsstring)
  (options : EncryptOptions) (s : nat) :
  HostLaws h -> capable h = true ->
  context_wf D = true -> filters_typed D = true -> has_pages h D ->
  exists E s',
    encryptPDF h D u o options s = OK (E, s')
    /\ (exists D', decryptPDF h E u = (D', OK tt) /\ restores h D D')
    /\ (forall ow,
           o = Some ow -> ow <> [] ->
           matches_user h (preparePassword ow) (stored h E "U") = false
           \/ preparePassword ow = preparePassword u ->
           exists D', decryptPDF h E ow = (D', OK tt) /\ restores h D D').
Proof.
  intros laws cap wf typed pages.
  destruct (encryptPDF_ok h laws cap D u o options s typed pages)
    as (objs & s' & W & HE).
  pose proof (encryptIndirectObjects_refs h _ _ _ _ _ W) as R.
  destruct (decrypt_with_sealed h laws cap D u o options s s' objs typed pages W)
    as (D' & HD' & Hrest).
  exists (updateDicts (sealed h D u o options s objs)), s'.
  refine (conj HE (conj _ _)).
  - exists D'. split; [|exact Hrest].
    rewrite (decryptPDF_sealed h laws cap D u o options s objs wf R).
    unfold keys_at.
    now rewrite (recovered_user h laws (effective_params u o options)).
  - intros ow -> Hne Hm. exists D'. split; [|exact Hrest].
    rewrite (decryptPDF_sealed h laws cap D u (Some ow) options s objs wf R).
    destruct (stored_sealed h D u (Some ow) options s objs wf R)
      as (_ & SU & _).
    rewrite SU in Hm. unfold keys_at in *.
    assert (Eo : preparePassword ow
                 = preparePassword
                     (js_or (ownerPassword (effective_params u (Some ow) options))
                        (userPassword (effective_params u (Some ow) options)))).
    { cbn [effective_params ownerPassword userPassword].
      destruct ow; [contradiction|reflexivity]. }
    destruct Hm as [Hm|Hm].
    + rewrite Eo in *.
      now rewrite (recovered_owner h laws (effective_params u (Some ow) options)).
    + rewrite Hm.
      now rewrite (recovered_user h laws (effective_params u (Some ow) options)).
Qed.

Lemma encrypt_decrypt_roundtrip_witness :
  encryptPDF web_host sample_document (js "user123") (Some (js "owner456")) no_options 0
  = OK (sample_sealed, 148)
  /\ (exists D', decryptPDF web_host sample_sealed (js "user123") = (D', OK tt)
                 /\ restores web_host sample_document D')
  /\ (exists D', decryptPDF web_host sample_sealed (js "owner456") = (D', OK tt)
                 /\ restores web_host sample_document D').
Proof.
  destruct (encrypt_decrypt_roundtrip web_host sample_document (js "user123") (Some (js "owner456"))
              no_options 0 web_host_laws eq_refl eq_refl eq_refl
              (ex_intro _ 0 eq_refl))
    as (E & s' & H & Hu & Ho).
  rewrite sample_sealed_eq in H. injection H as <- <-.
  refine (conj sample_sealed_eq (conj Hu _)).
  apply (Ho (js "owner456") eq_refl); [discriminate|].
  left. vm_compute. reflexivity.
Defined.

(** C1 as stated fails at the empty owner password: the document of one
    page, which [save] writes, sealed for user "user123" and an empty owner
    password opens with "user123" and does not open with the empty
    password. *)
Lemma empty_owner_password_does_not_open :
  has_pages web_host one_leaf
  /\ encryptPDF web_host one_leaf (js "user123") (Some []) no_options 0
     = OK (one_leaf_empty_owner, 84)
  /\ snd (decryptPDF web_host one_leaf_empty_owner (js "user123")) = OK tt
  /\ decryptPDF web_host one_leaf_empty_owner []
     = (one_leaf_empty_owner, Throw WrongPassword).
Proof.
  split; [exists 0; reflexivity|].
  split; [exact one_leaf_empty_owner_eq|]. split; vm_compute; reflexivity.
Qed.

(** ** C2: a password that matches neither record *)

(** C2 as amended.  A password whose prepared bytes match neither the user
    validation hash nor the owner validation hash of a document [encryptPDF]
    made is rejected with 'Wrong password', and the document is as loaded.
    (Being different from [u] and [o] as a string is not enough: passwords
    are compared by their first 127 UTF-8 bytes, and an empty [o] stands for
    [u].) *)
Theorem wrong_password_is_rejected (h : Host) (D : PDFContext) (u : jsstring)
  (o : option jsstring) (options : EncryptOptions) (s s' : nat) (E : PDFContext)
  (w : jsstring) :
  HostLaws h -> context_wf D = true ->
  encryptPDF h D u o options s = OK (E, s') ->
  matches_user h (preparePassword w) (stored h E "U") = false ->
  matches_owner h (preparePassword w) (stored h E "U") (stored h E "O") = false ->
  decryptPDF h E w = (E, Throw WrongPassword).
Proof.
  intros laws wf H.
  destruct (encryptPDF_inv h D u o options s s' E laws H)
    as (cap & objs & _ & R & _ & ->).
  destruct (stored_sealed h D u o options s objs wf R) as (-> & -> & _).
  intros M1 M2.
  rewrite (decryptPDF_sealed h laws cap D u o options s objs wf R).
  now rewrite (recovered_none h _ _ _ _ _ M1 M2).
Qed.

Lemma wrong_password_is_rejected_witness :
  decryptPDF web_host sample_sealed (js "wrong") = (sample_sealed, Throw WrongPassword).
Proof.
  apply (wrong_password_is_rejected web_host sample_document (js "user123")
           (Some (js "owner456")) no_options 0 148 sample_sealed (js "wrong")).
  - exact web_host_laws.
  - reflexivity.
  - exact sample_sealed_eq.
  - vm_compute. reflexivity.
  - vm_compute. reflexivity.
Defined.

(** C2 as stated fails: on the document of one page, which [save] writes,
    a password that differs from [u] after its 127th byte, and from [o],
    opens the document. *)
Lemma password_differing_after_127_bytes_opens :
  has_pages web_host one_leaf
  /\ long_password "c" <> long_password "b"
  /\ long_password "c" <> (js "owner456")
  /\ encryptPDF web_host one_leaf (long_password "b") (Some (js "owner456"))
       no_options 0 = OK (one_leaf_long_user, 84)
  /\ snd (decryptPDF web_host one_leaf_long_user (long_password "c")) = OK tt.
Proof.
  split; [exists 0; reflexivity|].
  refine (conj _ (conj _ (conj one_leaf_long_user_eq _))); try discriminate.
  rewrite (decryptPDF_prepared web_host one_leaf_long_user
             (long_password "c") (long_password "b") eq_refl).
  vm_compute. reflexivity.
Qed.

(** ** C4: corrupt data is not a wrong password *)

(** C4 as amended.  On a descriptor of the supported scheme: when one of
    [O], [U], [OE], [UE] is missing or has another length than 48, 48, 32,
    32, [decryptPDF] throws 'Invalid Encrypt dictionary: O=.., ..' whatever
    the password, and the document is as loaded.  When the lengths are right
    and the password matches a validation hash, [deriveFileKeyFromPassword]
    returns a key; if then the contents of some stream of the document do
    not decrypt under that key, [decryptPDF] throws, and what it throws is
    the error of a payload that is too short, not a whole number of blocks
    or wrongly padded (or, on a document with an untyped [Filter], the
    [TypeError] of the skip test), never 'Wrong password'; the trailer still
    has its [Encrypt] entry.  The strings decide nothing: on a document with
    a page and typed filters, when every stream decrypts under the key
    [decryptPDF] returns, whether the strings decrypt or not. *)
Theorem corrupt_data_is_not_wrong_password (h : Host) (c : PDFContext)
  (password : jsstring) (d : PDFEntries) :
  HostLaws h -> capable h = true ->
  descriptor c = Some d ->
  number_or_0 (dict_lookup c d "R") = 5%Z ->
  number_or_0 (dict_lookup c d "V") = 5%Z ->
  (fields_ok h d = false ->
   decryptPDF h c password
   = (c, Throw (InvalidEncryptFields
                  (option_map (@length byte) (getEncryptBytes h d "O"))
                  (option_map (@length byte) (getEncryptBytes h d "U"))
                  (option_map (@length byte) (getEncryptBytes h d "OE"))
                  (option_map (@length byte) (getEncryptBytes h d "UE")))))
  /\ (fields_ok h d = true ->
      matches_user h (preparePassword password) (stored h c "U") = true
      \/ matches_owner h (preparePassword password) (stored h c "U") (stored h c "O")
         = true ->
      exists fileKey,
        deriveFileKeyFromPassword h password (stored h c "U") (stored h c "O")
          (stored h c "OE") (stored h c "UE") = OK (Some fileKey)
        /\ (forall ref dict data e0,
               In (ref, PDFRawStream dict data) (indirectObjects c) ->
               decryptObject h data fileKey = Throw e0 ->
               exists e,
                 snd (decryptPDF h c password) = Throw e
                 /\ e <> WrongPassword
                 /\ (e = EncryptedObjectTooShort \/ e = CbcBadCiphertextLength
                     \/ e = OperationError
                     \/ (e = TypeError /\ filters_typed c = false))
                 /\ trailer_Encrypt (fst (decryptPDF h c password))
                    = trailer_Encrypt c)
        /\ (filters_typed c = true -> has_pages h c ->
            (forall ref dict data,
                In (ref, PDFRawStream dict data) (indirectObjects c) ->
                exists p, decryptObject h data fileKey = OK p) ->
            exists c', decryptPDF h c password = (c', OK tt))).
Proof.
  intros laws cap Hd HR HV. split.
  - intros F. unfold decryptPDF. unfold descriptor in Hd.
    destruct (trailer_Encrypt c) as [r|]; [|discriminate].
    destruct (context_lookup c r) as [[| | | | | | | |d'|]|]; try discriminate.
    injection Hd as ->. rewrite HR, HV. cbn [Z.eqb Pos.eqb negb orb].
    unfold fields_ok in F.
    replace (negb (length_is (getEncryptBytes h d "O") 48)
             || negb (length_is (getEncryptBytes h d "U") 48)
             || negb (length_is (getEncryptBytes h d "OE") 32)
             || negb (length_is (getEncryptBytes h d "UE") 32)) with true;
      [reflexivity|].
    destruct (length_is (getEncryptBytes h d "O") 48),
             (length_is (getEncryptBytes h d "U") 48),
             (length_is (getEncryptBytes h d "OE") 32),
             (length_is (getEncryptBytes h d "UE") 32);
      try reflexivity; discriminate F.
  - intros F M.
    unfold fields_ok in F.
    apply andb_prop in F. destruct F as [F FUE].
    apply andb_prop in F. destruct F as [F FOE].
    apply andb_prop in F. destruct F as [FO FU].
    destruct (recovered_some h _ _ _ (stored h c "OE") (stored h c "UE") M)
      as [key K].
    pose proof (recovered_length h _ _ _ _ _ _ K) as Hk.
    exists key. split.
    { rewrite (deriveFileKeyFromPassword_ok h laws cap).
      - now rewrite K.
      - unfold stored. rewrite Hd. unfold length_is in FOE.
        destruct (getEncryptBytes h d "OE"); [|discriminate]. now apply Nat.eqb_eq.
      - unfold stored. rewrite Hd. unfold length_is in FUE.
        destruct (getEncryptBytes h d "UE"); [|discriminate]. now apply Nat.eqb_eq. }
    rewrite (decryptPDF_eq h laws cap c password d Hd HR HV FO FU FOE FUE), K.
    split.
    2:{ intros T P S. unfold decrypt_with.
        rewrite (decryptIndirectObjects_returns h
                   (fun data => decryptObject h data key) (indirectObjects c) T S).
        rewrite (save_pages h _ (opened_has_pages h c _ None P
                   (decryptIndirectObjects_shape h _ (indirectObjects c)))).
        eexists. reflexivity. }
    intros ref dict data e0 I X.
    destruct (decryptIndirectObjects_stream h (fun data => decryptObject h data key)
                _ ref dict data e0 I X) as [e W].
    assert (W' : snd (decryptIndirectObjects h
                        (fun data => decryptObject h data key) (indirectObjects c))
                 = Throw e) by now rewrite W.
    unfold decrypt_with. rewrite W'. cbn [fst snd trailer_Encrypt].
    exists e.
    destruct (decryptIndirectObjects_errors h _ _ e W') as [[T ->]|[data' X']].
    + split; [reflexivity|]. split; [discriminate|]. split; [|reflexivity].
      right. right. right. now split.
    + pose proof (decryptObject_errors h data' key e cap Hk X') as C.
      split; [reflexivity|]. split; [|split; [|reflexivity]].
      * destruct C as [->|[->| ->]]; discriminate.
      * destruct C as [->|[->| ->]]; auto.
Qed.

Lemma corrupt_data_is_not_wrong_password_witness :
  exists e,
    snd (decryptPDF web_host sample_cut (js "user123")) = Throw e
    /\ e <> WrongPassword
    /\ (e = EncryptedObjectTooShort \/ e = CbcBadCiphertextLength
        \/ e = OperationError
        \/ (e = TypeError /\ filters_typed sample_cut = false))
    /\ trailer_Encrypt (fst (decryptPDF web_host sample_cut (js "user123")))
       = trailer_Encrypt sample_cut.
Proof.
  assert (M : matches_user web_host (preparePassword (js "user123"))
                (stored web_host sample_cut "U") = true)
    by (vm_compute; reflexivity).
  destruct (corrupt_data_is_not_wrong_password web_host sample_cut (js "user123")
              sample_descriptor web_host_laws eq_refl eq_refl eq_refl eq_refl)
    as (_ & H).
  destruct (H eq_refl (or_introl M)) as (fileKey & _ & G & _).
  eapply G.
  - right. left. reflexivity.
  - reflexivity.
Defined.

(** C4 as stated fails for strings: the catalog of the sealed sample holds
    its title encrypted; with one byte more at its end the title no longer
    decrypts under the key the user password recovers, and [decryptPDF]
    returns all the same, the title left as it is. *)
Lemma damaged_string_is_tolerated :
  exists fileKey title,
    has_pages web_host sample_damaged
    /\ deriveFileKeyFromPassword web_host (js "user123")
         (stored web_host sample_damaged "U") (stored web_host sample_damaged "O")
         (stored web_host sample_damaged "OE") (stored web_host sample_damaged "UE")
       = OK (Some fileKey)
    /\ option_map (fun o => dict_get (entries_of o) "Title")
         (indirect_get (indirectObjects sample_damaged) (1, 0))
       = Some (Some (PDFHexString title))
    /\ decryptObject web_host (hex_asBytes title) fileKey = Throw CbcBadCiphertextLength
    /\ snd (decryptPDF web_host sample_damaged (js "user123")) = OK tt
    /\ option_map (fun o => dict_get (entries_of o) "Title")
         (indirect_get (indirectObjects
                          (fst (decryptPDF web_host sample_damaged (js "user123"))))
            (1, 0))
       = Some (Some (PDFHexString title)).
Proof.
  eexists _, _. split; [exists 0; reflexivity|].
  split; [vm_compute; reflexivity|].
  split; [vm_compute; reflexivity|].
  split; [vm_compute; reflexivity|].
  split; vm_compute; reflexivity.
Qed.

(* ################################################################# *)
(** * Further properties: crypto.ts *)

(** A ciphertext the padded decrypt accepts is a whole number of blocks, and
    what it returns is that ciphertext less one to sixteen bytes. *)
Lemma pkcs7_unpad_length (d p : bytes) :
  pkcs7_unpad d = OK p -> length d - 16 <= length p < length d.
Proof.
  unfold pkcs7_unpad.
  set (n := N.to_nat (Byte.to_N (last d x00))).
  destruct (1 <=? n) eqn:H1; [|discriminate].
  destruct (n <=? 16) eqn:H2; [|discriminate].
  destruct (n <=? length d) eqn:H3; [|discriminate].
  cbn [andb]. destruct (forallb _ _); [|discriminate].
  intros [= <-]. apply Nat.leb_le in H1, H2, H3.
  rewrite length_firstn. lia.
Qed.

Lemma host_cbc_decrypt_length (h : Host) (key iv c p : bytes) :
  host_cbc_decrypt h key iv c = OK p ->
  length c mod 16 = 0 /\ length c - 16 <= length p < length c.
Proof.
  unfold host_cbc_decrypt, host_cbc_decrypt_nopad.
  destruct (length c mod 16 =? 0) eqn:M; [|discriminate].
  apply Nat.eqb_eq in M. intros H. apply pkcs7_unpad_length in H.
  rewrite cbc_decrypt_blocks_length in H.
  rewrite <- (mod16_mul _ M) in H. now split.
Qed.

(** The chain over a block-aligned text and one more block. *)
Lemma cbc_encrypt_blocks_snoc (h : Host) (n : nat) (key prev data pad : bytes) :
  HostLaws h -> length key = 32 -> length prev = 16 ->
  length data = 16 * n -> length pad = 16 ->
  cbc_encrypt_blocks h (n + 1) key prev (data ++ pad)
  = cbc_encrypt_blocks h n key prev data
    ++ AES256 h key
         (xor16 (skipn (16 * n) (prev ++ cbc_encrypt_blocks h n key prev data)) pad).
Proof.
  intros laws Hk. revert prev data.
  induction n as [|n IH]; intros prev data Hp Hd Hpad.
  - destruct data; [|discriminate].
    cbn [Nat.add cbc_encrypt_blocks app]. rewrite !app_nil_r.
    rewrite firstn_all2 by lia. reflexivity.
  - cbn [Nat.add cbc_encrypt_blocks].
    rewrite firstn_app, skipn_app.
    replace (16 - length data) with 0 by lia.
    rewrite firstn_O, skipn_O, app_nil_r.
    set (c := AES256 h key (xor16 prev (firstn 16 data))).
    assert (Hc : length c = 16)
      by (apply (AES256_length h laws); [assumption|apply xor16_length]).
    rewrite (IH c (skipn 16 data)) by (try rewrite length_skipn; lia).
    rewrite <- app_assoc. do 3 f_equal.
    replace (16 * S n) with (16 * n + 16) by lia.
    rewrite <- skipn_skipn. now rewrite (skipn_exact 16 prev _ Hp).
Qed.

(** X1. With a 32-byte key and a 16-byte IV, [aes256CbcEncrypt] accepts a
    plaintext of any length, the empty one included; the ciphertext is the
    plaintext's length rounded up to the next whole block (one block more
    when it is a whole number of blocks already), and [aes256CbcDecrypt]
    under the same key and IV returns the plaintext. *)
Theorem cbc_padded_roundtrip (h : Host) (key iv plaintext : bytes) :
  HostLaws h -> capable h = true -> length key = 32 -> length iv = 16 ->
  exists c,
    aes256CbcEncrypt h key iv plaintext = OK c
    /\ length c = 16 * (length plaintext / 16 + 1)
    /\ aes256CbcDecrypt h key iv c = OK plaintext.
Proof.
  intros laws cap Hk Hi. exists (host_cbc_encrypt h key iv plaintext).
  split; [now apply aes256CbcEncrypt_ok|].
  split; [now apply host_cbc_encrypt_length|].
  rewrite (aes256CbcDecrypt_ok h cap) by
    (try assumption; rewrite (host_cbc_encrypt_length h laws) by assumption;
     rewrite Nat.mul_comm; apply Nat.Div0.mod_mul).
  now apply host_cbc_roundtrip.
Qed.

Lemma cbc_padded_roundtrip_witness :
  exists c,
    aes256CbcEncrypt web_host sample_key (zeros 16) [] = OK c
    /\ length c = 16 * (length (@nil byte) / 16 + 1)
    /\ aes256CbcDecrypt web_host sample_key (zeros 16) c = OK [].
Proof.
  apply (cbc_padded_roundtrip web_host sample_key (zeros 16) []).
  - exact web_host_laws.
  - reflexivity.
  - reflexivity.
  - reflexivity.
Defined.

(** When [aes256CbcDecrypt] returns, its arguments passed its checks and the
    host's padded decrypt returned. *)
Lemma aes256CbcDecrypt_inv (h : Host) (key iv c p : bytes) :
  aes256CbcDecrypt h key iv c = OK p ->
  length key = 32 /\ length iv = 16 /\ host_cbc_decrypt h key iv c = OK p.
Proof.
  unfold aes256CbcDecrypt, KEY_LENGTH, AES_BLOCK_SIZE.
  destruct (length key =? 32) eqn:Hk; [|discriminate].
  destruct (length iv =? 16) eqn:Hi; [|discriminate].
  cbn [negb orb]. destruct (negb (length c mod 16 =? 0)); [discriminate|].
  apply Nat.eqb_eq in Hk, Hi. intros H. refine (conj Hk (conj Hi _)).
  destruct (has_subtle h); [exact H|].
  destruct (getNodeCrypto h); [exact H|discriminate].
Qed.

(** X2. Whatever the host, when [aes256CbcDecrypt] returns, the key had 32
    bytes, the IV 16, the ciphertext was a whole number of blocks, and the
    plaintext is shorter than the ciphertext by one to sixteen bytes (so an
    empty ciphertext never decrypts). *)
Theorem cbc_decrypt_strips_padding (h : Host) (key iv c p : bytes) :
  aes256CbcDecrypt h key iv c = OK p ->
  length key = 32 /\ length iv = 16 /\ length c mod 16 = 0
  /\ length c - 16 <= length p < length c.
Proof.
  intros H. apply aes256CbcDecrypt_inv in H. destruct H as (Hk & Hi & D).
  apply host_cbc_decrypt_length in D. destruct D as [Hc Hp].
  exact (conj Hk (conj Hi (conj Hc Hp))).
Qed.

Lemma cbc_decrypt_strips_padding_witness :
  length sample_key = 32 /\ length (zeros 16) = 16
  /\ length sample_ciphertext mod 16 = 0
  /\ length sample_ciphertext - 16 <= length sample_block < length sample_ciphertext.
Proof.
  apply (cbc_decrypt_strips_padding web_host sample_key (zeros 16)
           sample_ciphertext sample_block).
  vm_compute. reflexivity.
Defined.

(** X3. With a 32-byte key and a 16-byte IV, [aes256CbcEncryptNoPadding]
    turns a text of a whole number of blocks into a ciphertext of the same
    length, and [aes256CbcDecryptNoPadding] turns it back. *)
Theorem cbc_unpadded_roundtrip (h : Host) (key iv plaintext : bytes) :
  HostLaws h -> capable h = true -> length key = 32 -> length iv = 16 ->
  length plaintext mod 16 = 0 ->
  exists c,
    aes256CbcEncryptNoPadding h key iv plaintext = OK c
    /\ length c = length plaintext
    /\ aes256CbcDecryptNoPadding h key iv c = OK plaintext.
Proof.
  intros laws cap Hk Hi Hp.
  pose proof (mod16_mul _ Hp) as Hl.
  exists (cbc_encrypt_blocks h (length plaintext / 16) key iv plaintext).
  split; [now apply aes256CbcEncryptNoPadding_ok|].
  assert (L : length (cbc_encrypt_blocks h (length plaintext / 16) key iv plaintext)
              = length plaintext)
    by (rewrite (cbc_encrypt_blocks_length h laws) by assumption; lia).
  split; [exact L|].
  rewrite (aes256CbcDecryptNoPadding_ok h laws cap)
    by (try assumption; now rewrite L).
  rewrite L. now rewrite (cbc_blocks_roundtrip h laws).
Qed.

Lemma cbc_unpadded_roundtrip_witness :
  exists c,
    aes256CbcEncryptNoPadding web_host sample_key (zeros 16) sample_key = OK c
    /\ length c = length sample_key
    /\ aes256CbcDecryptNoPadding web_host sample_key (zeros 16) c = OK sample_key.
Proof.
  apply (cbc_unpadded_roundtrip web_host sample_key (zeros 16) sample_key).
  - exact web_host_laws.
  - reflexivity.
  - reflexivity.
  - reflexivity.
  - reflexivity.
Defined.

(** X4. The chain the repository runs block by block is the host's own: on
    a text of a whole number of blocks the padded ciphertext of
    [aes256CbcEncrypt] is the unpadded one of [aes256CbcEncryptNoPadding]
    followed by one block, the encryption of sixteen bytes 0x10 chained on
    the last ciphertext block (on the IV when the text is empty). *)
Theorem padded_extends_unpadded (h : Host) (key iv plaintext : bytes) :
  HostLaws h -> capable h = true -> length key = 32 -> length iv = 16 ->
  length plaintext mod 16 = 0 ->
  exists c,
    aes256CbcEncryptNoPadding h key iv plaintext = OK c
    /\ aes256CbcEncrypt h key iv plaintext
       = OK (c ++ AES256 h key
                    (xor16 (skipn (length c) (iv ++ c)) (filled 16 x10))).
Proof.
  intros laws cap Hk Hi Hp.
  pose proof (mod16_mul _ Hp) as Hl.
  set (n := length plaintext / 16) in *.
  exists (cbc_encrypt_blocks h n key iv plaintext).
  split; [now apply aes256CbcEncryptNoPadding_ok|].
  rewrite (aes256CbcEncrypt_ok h cap) by assumption. f_equal.
  unfold host_cbc_encrypt.
  rewrite (div16 _ _ (pkcs7_pad_length plaintext)). fold n.
  unfold pkcs7_pad. rewrite Hp.
  change (filled (16 - 0) (byte_of_N (N.of_nat (16 - 0)))) with (filled 16 x10).
  rewrite (cbc_encrypt_blocks_snoc h n key iv plaintext (filled 16 x10) laws)
    by (try assumption; reflexivity).
  now rewrite (cbc_encrypt_blocks_length h laws) by assumption.
Qed.

Lemma padded_extends_unpadded_witness :
  exists c,
    aes256CbcEncryptNoPadding web_host sample_key (zeros 16) sample_block = OK c
    /\ aes256CbcEncrypt web_host sample_key (zeros 16) sample_block
       = OK (c ++ AES256 web_host sample_key
                    (xor16 (skipn (length c) (zeros 16 ++ c)) (filled 16 x10))).
Proof.
  apply (padded_extends_unpadded web_host sample_key (zeros 16) sample_block).
  - exact web_host_laws.
  - reflexivity.
  - reflexivity.
  - reflexivity.
  - reflexivity.
Defined.

(** X5. The unpadded functions never look at the key themselves: with a
    16-byte IV and a key that has not 32 bytes, on any host, the empty text
    is returned as the empty array, and every other text of a whole number
    of blocks fails with the error of the one-block function. *)
Theorem unpadded_key_is_checked_per_block (h : Host) (key iv data : bytes) :
  length iv = 16 -> length key <> 32 -> length data mod 16 = 0 ->
  aes256CbcEncryptNoPadding h key iv data
  = match data with [] => OK [] | _ => Throw EcbBadBlockOrKey end
  /\ aes256CbcDecryptNoPadding h key iv data
     = match data with [] => OK [] | _ => Throw EcbBadBlockOrKey end.
Proof.
  intros Hi Hk Hd.
  unfold aes256CbcEncryptNoPadding, aes256CbcDecryptNoPadding, AES_BLOCK_SIZE.
  rewrite Hd, Hi. cbn [Nat.eqb negb orb].
  destruct data as [|b data]; [split; reflexivity|].
  pose proof (mod16_mul _ Hd) as Hl.
  destruct (length (b :: data) / 16) as [|n] eqn:E; [cbn [length] in Hl; lia|].
  apply Nat.eqb_neq in Hk.
  cbn [encryptNoPadding_loop decryptNoPadding_loop].
  unfold aes256EcbEncrypt, aes256EcbDecrypt, KEY_LENGTH, AES_BLOCK_SIZE.
  rewrite Hk. cbn [negb]. rewrite !orb_true_r. split; reflexivity.
Qed.

Lemma unpadded_key_is_checked_per_block_witness :
  aes256CbcEncryptNoPadding node_host [] (zeros 16) sample_block
  = Throw EcbBadBlockOrKey
  /\ aes256CbcDecryptNoPadding node_host [] (zeros 16) sample_block
     = Throw EcbBadBlockOrKey.
Proof.
  apply (unpadded_key_is_checked_per_block node_host [] (zeros 16) sample_block).
  - reflexivity.
  - discriminate.
  - reflexivity.
Defined.

(* ################################################################# *)
(** * Further properties: saslprep.ts *)

Lemma code_unit_lt (u : byte * byte) : (code_unit u < 65536)%N.
Proof.
  unfold code_unit.
  pose proof (to_N_lt_256 (fst u)). pose proof (to_N_lt_256 (snd u)). lia.
Qed.

Lemma utf8_length_le4 (c : N) : length (utf8_of_code_point c) <= 4.
Proof.
  unfold utf8_of_code_point.
  destruct (c <? 128)%N; [cbn; lia|].
  destruct (c <? 2048)%N; [cbn; lia|].
  destruct (c <? 65536)%N; cbn; lia.
Qed.

Lemma utf8_length_le3 (c : N) : (c < 65536)%N -> length (utf8_of_code_point c) <= 3.
Proof.
  intros H. unfold utf8_of_code_point.
  destruct (c <? 128)%N; [cbn; lia|].
  destruct (c <? 2048)%N; [cbn; lia|].
  apply N.ltb_lt in H. rewrite H. cbn. lia.
Qed.

Lemma TextEncoder_encode_cons (u : byte * byte) (rest : jsstring) :
  TextEncoder_encode (u :: rest)
  = if is_lead (code_unit u)
    then match rest with
         | v :: rest' =>
             if is_trail (code_unit v)
             then utf8_of_code_point
                    (65536 + 1024 * (code_unit u - 55296) + (code_unit v - 56320))%N
                  ++ TextEncoder_encode rest'
             else utf8_of_code_point 65533 ++ TextEncoder_encode rest
         | [] => utf8_of_code_point 65533
         end
    else if is_trail (code_unit u)
         then utf8_of_code_point 65533 ++ TextEncoder_encode rest
         else utf8_of_code_point (code_unit u) ++ TextEncoder_encode rest.
Proof. reflexivity. Qed.

(** A code unit makes at most three bytes. *)
Lemma TextEncoder_encode_length (s : jsstring) :
  length (TextEncoder_encode s) <= 3 * length s.
Proof.
  assert (G : forall n (t : jsstring),
             length t <= n -> length (TextEncoder_encode t) <= 3 * length t).
  { induction n as [|n IH]; intros t Ht.
    - destruct t; [cbn; lia|cbn in Ht; lia].
    - destruct t as [|u rest]; [cbn; lia|].
      cbn [length] in Ht. rewrite TextEncoder_encode_cons.
      assert (R : length (TextEncoder_encode rest) <= 3 * length rest)
        by (apply IH; lia).
      assert (F : length (utf8_of_code_point 65533) = 3) by reflexivity.
      destruct (is_lead (code_unit u)).
      + destruct rest as [|v rest'].
        * rewrite F. cbn [length]. lia.
        * destruct (is_trail (code_unit v)).
          -- rewrite length_app.
             pose proof (utf8_length_le4
                           (65536 + 1024 * (code_unit u - 55296)
                            + (code_unit v - 56320))%N).
             assert (length (TextEncoder_encode rest') <= 3 * length rest')
               by (apply IH; cbn [length] in Ht; lia).
             cbn [length]. lia.
          -- rewrite length_app, F. cbn [length] in *. lia.
      + destruct (is_trail (code_unit u)).
        * rewrite length_app, F. cbn [length]. lia.
        * rewrite length_app.
          pose proof (utf8_length_le3 _ (code_unit_lt u)).
          cbn [length]. lia. }
  now apply (G (length s)).
Qed.

Lemma to_N_byte_of_ascii (c : ascii) : Byte.to_N (byte_of_ascii c) = N_of_ascii c.
Proof.
  pose proof (byte_of_ascii_via_N c) as E. symmetry in E.
  now apply Byte.to_of_N in E.
Qed.

Lemma TextEncoder_encode_ascii (s : string) :
  Forall (fun c => (N_of_ascii c < 128)%N) (list_ascii_of_string s) ->
  TextEncoder_encode (js s) = map byte_of_ascii (list_ascii_of_string s).
Proof.
  induction s as [|c s IH]; intros H; [reflexivity|].
  cbn [list_ascii_of_string] in H. inversion H as [|? ? Hc Hs]; subst.
  cbn [js list_ascii_of_string map]. rewrite TextEncoder_encode_cons.
  assert (E : code_unit (x00, byte_of_ascii c) = N_of_ascii c)
    by (unfold code_unit; cbn [fst snd]; rewrite to_N_byte_of_ascii;
        change (Byte.to_N x00) with 0%N; lia).
  rewrite E.
  replace (is_lead (N_of_ascii c)) with false
    by (symmetry; unfold is_lead; apply andb_false_intro1, N.leb_gt; lia).
  replace (is_trail (N_of_ascii c)) with false
    by (symmetry; unfold is_trail; apply andb_false_intro1, N.leb_gt; lia).
  unfold utf8_of_code_point.
  replace (N_of_ascii c <? 128)%N with true by (symmetry; now apply N.ltb_lt).
  rewrite (IH Hs). cbn [app]. f_equal.
  rewrite <- E at 1. unfold code_unit. cbn [fst snd].
  change (Byte.to_N x00) with 0%N. rewrite N.mul_0_r, N.add_0_l.
  apply byte_of_N_to_N.
Qed.

(** X6. A password of at most 42 UTF-16 code units is never truncated:
    [preparePassword] returns its whole UTF-8 encoding, since a code unit
    makes at most three bytes. *)
Theorem short_password_is_kept_whole (password : jsstring) :
  length password <= 42 ->
  preparePassword password = TextEncoder_encode password.
Proof.
  intros H. unfold preparePassword, MAX_PASSWORD_UTF8_BYTES.
  pose proof (TextEncoder_encode_length password) as L.
  replace (127 <? length (TextEncoder_encode password)) with false
    by (symmetry; apply Nat.ltb_ge; lia).
  reflexivity.
Qed.

Lemma short_password_is_kept_whole_witness :
  preparePassword (js "user123") = TextEncoder_encode (js "user123").
Proof.
  apply (short_password_is_kept_whole (js "user123")).
  cbn. lia.
Defined.

(** X7. The prepared form of a password of ASCII characters is the
    characters themselves, one byte each, cut after the 127th. *)
Theorem ascii_password_is_its_characters (s : string) :
  Forall (fun c => (N_of_ascii c < 128)%N) (list_ascii_of_string s) ->
  preparePassword (js s) = firstn 127 (map byte_of_ascii (list_ascii_of_string s)).
Proof.
  intros H. unfold preparePassword, MAX_PASSWORD_UTF8_BYTES.
  rewrite (TextEncoder_encode_ascii s H).
  destruct (Nat.ltb_spec 127 (length (map byte_of_ascii (list_ascii_of_string s))))
    as [L|L].
  - apply subarray_0.
  - symmetry. now apply firstn_all2.
Qed.

Lemma ascii_password_is_its_characters_witness :
  preparePassword (js "owner456")
  = firstn 127 (map byte_of_ascii (list_ascii_of_string "owner456")).
Proof.
  apply (ascii_password_is_its_characters "owner456").
  repeat constructor.
Defined.

(* ################################################################# *)
(** * Further properties: kdf.ts *)

(** X8. [compareBytes] returns 0 exactly when the two arrays are equal, and
    1 otherwise. *)
Theorem compareBytes_decides_equality (a b : bytes) :
  (compareBytes a b = 0%Z <-> a = b)
  /\ (compareBytes a b = 0%Z \/ compareBytes a b = 1%Z).
Proof.
  split.
  - split; [apply compareBytes_0|]. intros ->. apply compareBytes_refl.
  - unfold compareBytes. destruct (negb _); [now right|].
    destruct (forallb _ _); [now left|now right].
Qed.

(** X9. On a host with entropy, a digest and a cipher, [computeRev5Keys]
    succeeds for all parameters, and [deriveFileKeyFromPassword] with the
    user password and the [U], [O], [OE], [UE] it made returns the file
    encryption key, which has 32 bytes. *)
Theorem user_password_recovers_file_key (h : Host) (params : Rev5EncryptParams)
  (s : nat) :
  HostLaws h -> capable h = true ->
  exists k,
    computeRev5Keys h params s = OK (k, s + 68)
    /\ length (fileEncryptionKey k) = 32
    /\ deriveFileKeyFromPassword h (userPassword params) (U k) (O k) (OE k) (UE k)
       = OK (Some (fileEncryptionKey k)).
Proof.
  intros laws cap. exists (rev5_keys h params s).
  split; [now apply computeRev5Keys_ok|].
  split; [apply drawn_length|].
  rewrite (deriveFileKeyFromPassword_ok h laws cap).
  - f_equal. exact (recovered_user h laws params s).
  - apply (cbc_encrypt_blocks_length h laws), (SHA256_length h laws).
  - apply (cbc_encrypt_blocks_length h laws), (SHA256_length h laws).
Qed.

Lemma user_password_recovers_file_key_witness :
  exists k,
    computeRev5Keys web_host sample_params 0 = OK (k, 0 + 68)
    /\ length (fileEncryptionKey k) = 32
    /\ deriveFileKeyFromPassword web_host (userPassword sample_params)
         (U k) (O k) (OE k) (UE k)
       = OK (Some (fileEncryptionKey k)).
Proof.
  apply (user_password_recovers_file_key web_host sample_params 0).
  - exact web_host_laws.
  - reflexivity.
Defined.

(** X10. On a host with entropy and a digest, [deriveFileKeyFromPassword]
    never throws, whatever the lengths of the four arrays it is given: it
    returns a key or [null], and a key it returns has 32 bytes. *)
Theorem key_recovery_never_throws (h : Host) (password : jsstring)
  (U O OE UE : bytes) :
  capable h = true ->
  exists r,
    deriveFileKeyFromPassword h password U O OE UE = OK r
    /\ forall key, r = Some key -> length key = 32.
Proof.
  intros cap. unfold deriveFileKeyFromPassword.
  rewrite !(sha256_ok h cap). cbn [bind].
  assert (T : forall body key, try_key body = Some key -> length key = 32).
  { intros body key. unfold try_key. destruct body as [k|]; [|discriminate].
    destruct (length k =? 32) eqn:E; [|discriminate].
    intros [= <-]. now apply Nat.eqb_eq. }
  repeat match goal with
         | |- context [try_key ?b] =>
             let k := fresh "k" in
             set (k := try_key b);
             assert (forall key, k = Some key -> length key = 32)
               by (intros key; apply T);
             clearbody k
         end.
  destruct (compareBytes _ (subarray U 0 32) =? 0)%Z;
    destruct (compareBytes _ (subarray O 0 32) =? 0)%Z;
    destruct k as [key1|]; try destruct k0 as [key2|];
    eexists; (split; [reflexivity|]); intros key E;
    try discriminate; injection E as <-; auto.
Qed.

Lemma key_recovery_never_throws_witness :
  exists r,
    deriveFileKeyFromPassword node_host (js "user123") [] [] [] [] = OK r
    /\ forall key, r = Some key -> length key = 32.
Proof.
  apply (key_recovery_never_throws node_host (js "user123") [] [] [] []).
  reflexivity.
Defined.

(** X11. The user record is tried first and alone decides when it matches:
    if the password passes the validation hash of [U] and [UE] has 32
    bytes, the key is [UE] unwrapped, and [O] and [OE] have no say
    whatever they hold. *)
Theorem user_record_is_tried_first (h : Host) (password : jsstring)
  (U O OE UE : bytes) :
  HostLaws h -> capable h = true -> length UE = 32 ->
  matches_user h (preparePassword password) U = true ->
  deriveFileKeyFromPassword h password U O OE UE
  = OK (Some (cbc_decrypt_blocks h 2
                (SHA256 h (preparePassword password ++ subarray U 40 48))
                ZERO_IV UE)).
Proof.
  intros laws cap HUE M.
  unfold deriveFileKeyFromPassword, concat. cbn [List.concat].
  rewrite !app_nil_r. rewrite !(sha256_ok h cap). cbn [bind].
  unfold matches_user in M. rewrite M.
  rewrite (aes256CbcDecryptNoPadding_ok h laws cap)
    by (try apply (SHA256_length h laws); try rewrite HUE; reflexivity).
  rewrite HUE. change (32 / 16) with 2.
  unfold try_key. rewrite cbc_decrypt_blocks_length. reflexivity.
Qed.

Lemma user_record_is_tried_first_witness :
  deriveFileKeyFromPassword web_host (js "user123") (U sample_keys) [] []
    (UE sample_keys)
  = OK (Some (cbc_decrypt_blocks web_host 2
                (SHA256 web_host (preparePassword (js "user123")
                                  ++ subarray (U sample_keys) 40 48))
                ZERO_IV (UE sample_keys))).
Proof.
  apply (user_record_is_tried_first web_host (js "user123") (U sample_keys) [] []
           (UE sample_keys)).
  - exact web_host_laws.
  - reflexivity.
  - reflexivity.
  - vm_compute. reflexivity.
Defined.

(** X12. [computeRev5Keys] succeeds exactly on the hosts that have
    [crypto.getRandomValues] and either [crypto.subtle] or Node's crypto
    module, and it draws 68 random bytes. *)
Theorem key_generation_needs_the_platform (h : Host) (params : Rev5EncryptParams)
  (s : nat) :
  HostLaws h ->
  ((exists r, computeRev5Keys h params s = OK r) <-> capable h = true)
  /\ (forall k s', computeRev5Keys h params s = OK (k, s') -> s' = s + 68).
Proof.
  intros laws. split; [split|].
  - intros [r H]. exact (computeRev5Keys_capable h params s r H).
  - intros cap. eexists. now apply computeRev5Keys_ok.
  - intros k s' H.
    pose proof (computeRev5Keys_capable h params s _ H) as cap.
    rewrite (computeRev5Keys_ok h laws cap) in H. now injection H.
Qed.

Lemma key_generation_needs_the_platform_witness :
  ((exists r, computeRev5Keys web_host sample_params 0 = OK r)
   <-> capable web_host = true)
  /\ (forall k s', computeRev5Keys web_host sample_params 0 = OK (k, s') ->
                   s' = 0 + 68).
Proof.
  apply (key_generation_needs_the_platform web_host sample_params 0).
  exact web_host_laws.
Defined.

(** X13. Leaving the owner password out, passing the empty string and
    passing the user password again are the same call: [encryptPDF] returns
    the same document for the three (the owner record is then made from the
    user password). *)
Theorem owner_password_defaults_to_user (h : Host) (D : PDFContext) (u : jsstring)
  (options : EncryptOptions) (s : nat) :
  encryptPDF h D u (Some []) options s = encryptPDF h D u None options s
  /\ encryptPDF h D u (Some u) options s = encryptPDF h D u None options s.
Proof.
  assert (K : forall o p m s0,
             js_or o u = u ->
             computeRev5Keys h {| userPassword := u; ownerPassword := o;
                                  permissions := p; encryptMetadata := m |} s0
             = computeRev5Keys h {| userPassword := u; ownerPassword := u;
                                    permissions := p; encryptMetadata := m |} s0).
  { intros o p m s0 E. unfold computeRev5Keys.
    cbn [userPassword ownerPassword permissions encryptMetadata].
    rewrite E. replace (js_or u u) with u by (now destruct u). reflexivity. }
  split; [|reflexivity].
  unfold encryptPDF, rbind, ret. destruct (trailer_ID D) as [id|].
  - now rewrite (K [] _ _ s eq_refl).
  - destruct (getRandomBytes h 16 s) as [[fileId s0]|]; [|reflexivity].
    now rewrite (K [] _ _ s0 eq_refl).
Qed.

(* ################################################################# *)
(** * Further properties: encrypt.ts *)

Lemma bytesToHex_cons (b : byte) (bs : bytes) :
  bytesToHex (b :: bs)
  = String (hexDigit (Byte.to_N b / 16))
      (String (hexDigit (Byte.to_N b mod 16)) (bytesToHex bs)).
Proof. reflexivity. Qed.

Lemma byteToHex_digits (b : byte) :
  isLowerHexDigit (hexDigit (Byte.to_N b / 16)) = true
  /\ isLowerHexDigit (hexDigit (Byte.to_N b mod 16)) = true.
Proof. destruct b; split; reflexivity. Qed.

Lemma bytesToHex_app (a b : bytes) :
  bytesToHex (a ++ b) = (bytesToHex a ++ bytesToHex b)%string.
Proof.
  induction a as [|x a IH]; [reflexivity|].
  cbn [app]. rewrite !bytesToHex_cons, IH. reflexivity.
Qed.

(** X14. [bytesToHex] writes two lower-case hex digits for each byte, in
    order: the text has twice the array's length, holds no other character,
    and the text of a concatenation is the concatenation of the texts. *)
Theorem bytesToHex_shape (a b : bytes) :
  String.length (bytesToHex a) = 2 * length a
  /\ Forall (fun c => isLowerHexDigit c = true) (list_ascii_of_string (bytesToHex a))
  /\ bytesToHex (a ++ b) = (bytesToHex a ++ bytesToHex b)%string.
Proof.
  refine (conj _ (conj _ (bytesToHex_app a b))).
  - induction a as [|x a IH]; [reflexivity|].
    rewrite bytesToHex_cons. cbn [String.length length]. lia.
  - induction a as [|x a IH]; [constructor|].
    rewrite bytesToHex_cons. cbn [list_ascii_of_string].
    destruct (byteToHex_digits x) as [H1 H2].
    constructor; [exact H1|]. constructor; [exact H2|exact IH].
Qed.

Lemma hexToBytes_pair (c1 c2 : ascii) (r : string) :
  hexToBytes (String c1 (String c2 r))
  = store_uint8 (parseInt16 (String c1 (String c2 EmptyString))) :: hexToBytes r.
Proof.
  unfold hexToBytes. cbn [String.length].
  replace (S (S (String.length r)) / 2) with (S (String.length r / 2))
    by (replace (S (S (String.length r))) with (String.length r + 1 * 2) by lia;
        rewrite Nat.div_add by discriminate; lia).
  cbn [seq map]. f_equal.
  { unfold slice. cbn [Nat.mul Nat.add Nat.sub substring].
    now destruct r. }
  rewrite <- seq_shift, map_map. apply map_ext. intros i. unfold slice.
  replace (S i * 2 + 2 - S i * 2) with (i * 2 + 2 - i * 2) by lia.
  replace (S i * 2) with (S (S (i * 2))) by lia. reflexivity.
Qed.

Lemma parseInt16_byteToHex (b : byte) :
  store_uint8
    (parseInt16 (String (hexDigit (Byte.to_N b / 16))
                   (String (hexDigit (Byte.to_N b mod 16)) EmptyString)))
  = b.
Proof. destruct b; reflexivity. Qed.

(** X15. [hexToBytes] undoes [bytesToHex]: the text of an array reads back
    as the array, and a single character left over at the end is ignored
    (the result has half the text's length, rounded down). *)
Theorem hexToBytes_inverts_bytesToHex (bs : bytes) :
  hexToBytes (bytesToHex bs) = bs
  /\ (forall c, hexToBytes (bytesToHex bs ++ String c EmptyString) = bs)
  /\ (forall hex, length (hexToBytes hex) = String.length hex / 2).
Proof.
  refine (conj _ (conj _ _)).
  - induction bs as [|b bs IH]; [reflexivity|].
    rewrite bytesToHex_cons, hexToBytes_pair, parseInt16_byteToHex. now rewrite IH.
  - intros c. induction bs as [|b bs IH]; [reflexivity|].
    rewrite bytesToHex_cons. cbn [String.append].
    rewrite hexToBytes_pair, parseInt16_byteToHex. now rewrite IH.
  - intros hex. unfold hexToBytes. now rewrite length_map, length_seq.
Qed.

(** X16. On a capable host and under a 32-byte key, [encryptObject] accepts
    a payload of any length, the empty one included: the result is the 16
    random bytes drawn for the IV followed by the ciphertext, 32 bytes plus
    16 for each whole block of the payload, and [decryptObject] returns the
    payload from it. *)
Theorem payload_roundtrip_any_length (h : Host) (data fileKey : bytes) (s : nat) :
  HostLaws h -> capable h = true -> length fileKey = 32 ->
  exists out,
    encryptObject h data fileKey s = OK (out, s + 16)
    /\ getRandomBytes h 16 s = OK (firstn 16 out, s + 16)
    /\ length out = 32 + 16 * (length data / 16)
    /\ decryptObject h out fileKey = OK data.
Proof.
  intros laws cap Hk. exists (encrypted_at h data fileKey s).
  split; [now apply encryptObject_ok|]. split; [|split].
  - rewrite (getRandomBytes_ok h cap). unfold encrypted_at.
    rewrite firstn_exact by apply drawn_length. reflexivity.
  - rewrite (encrypted_at_length h laws) by assumption. lia.
  - now apply decryptObject_encrypted.
Qed.

Lemma payload_roundtrip_any_length_witness :
  exists out,
    encryptObject web_host [] sample_key 0 = OK (out, 0 + 16)
    /\ getRandomBytes web_host 16 0 = OK (firstn 16 out, 0 + 16)
    /\ length out = 32 + 16 * (length (@nil byte) / 16)
    /\ decryptObject web_host out sample_key = OK [].
Proof.
  apply (payload_roundtrip_any_length web_host [] sample_key 0).
  - exact web_host_laws.
  - reflexivity.
  - reflexivity.
Defined.

Lemma encryptElements_passed_over (h : Host) (enc : bytes -> Rand bytes)
  (els : list PDFObject) (s : nat) :
  forallb passed_over els = true ->
  encryptElements h enc els s = OK (els, s).
Proof.
  induction els as [|el els IH]; intros H; [reflexivity|].
  cbn [forallb] in H. apply andb_prop in H. destruct H as [H1 H2].
  cbn [encryptElements]. unfold rbind.
  destruct el; try discriminate H1; cbn [encryptElement]; unfold ret;
    now rewrite (IH H2).
Qed.

Lemma decryptElements_passed_over (h : Host) (dec : bytes -> result bytes)
  (els : list PDFObject) :
  forallb passed_over els = true -> decryptElements h dec els = els.
Proof.
  induction els as [|el els IH]; intros H; [reflexivity|].
  cbn [forallb] in H. apply andb_prop in H. destruct H as [H1 H2].
  cbn [decryptElements]. rewrite (IH H2).
  destruct el; try discriminate H1; reflexivity.
Qed.

(** X17. Strings that are elements of an array are never encrypted and never
    decrypted: an array none of whose elements is a dictionary or an array
    comes out of [encryptStringsInArray] and of [decryptStringsInArray] as
    it went in, the cipher is not called and no random byte is drawn. *)
Theorem array_strings_are_passed_over (h : Host) (enc : bytes -> Rand bytes)
  (dec : bytes -> result bytes) (els : list PDFObject) (s : nat) :
  forallb passed_over els = true ->
  encryptStringsInArray h enc (PDFArray els) s = OK (PDFArray els, s)
  /\ decryptStringsInArray h dec (PDFArray els) = PDFArray els.
Proof.
  intros H. split.
  - rewrite encryptStringsInArray_eq. unfold rbind, ret.
    now rewrite encryptElements_passed_over.
  - rewrite decryptStringsInArray_eq. now rewrite decryptElements_passed_over.
Qed.

Lemma array_strings_are_passed_over_witness :
  encryptStringsInArray web_host (fun _ _ => Throw OperationError)
    (PDFArray [PDFString "secret"; PDFHexString "4a6f"; PDFNumber 1]) 0
  = OK (PDFArray [PDFString "secret"; PDFHexString "4a6f"; PDFNumber 1], 0)
  /\ decryptStringsInArray web_host (fun _ => Throw OperationError)
       (PDFArray [PDFString "secret"; PDFHexString "4a6f"; PDFNumber 1])
     = PDFArray [PDFString "secret"; PDFHexString "4a6f"; PDFNumber 1].
Proof.
  apply (array_strings_are_passed_over web_host (fun _ _ => Throw OperationError)
           (fun _ => Throw OperationError)
           [PDFString "secret"; PDFHexString "4a6f"; PDFNumber 1] 0).
  reflexivity.
Defined.

Lemma encryptEntries_frame (h : Host) (enc : bytes -> Rand bytes)
  (es es' : PDFEntries) (s s' : nat) :
  encryptEntries h enc es s = OK (es', s') ->
  map fst es' = map fst es
  /\ forall i k v,
       nth_error es i = Some (k, v) ->
       reserved (key_asString k) = true \/ plain_value v = true ->
       nth_error es' i = Some (k, v).
Proof.
  revert es' s s'. induction es as [|[k0 v0] es IH]; intros es' s s' E.
  - cbn in E. injection E as <- _. split; [reflexivity|].
    intros i k v N. destruct i; discriminate N.
  - cbn [encryptEntries] in E.
    apply rbind_inv in E. destruct E as (v1 & s1 & E1 & E).
    apply rbind_inv in E. destruct E as (rest' & s2 & E2 & E).
    unfold ret in E. injection E as <- <-.
    destruct (IH _ _ _ E2) as [K F]. split; [cbn [map fst]; now rewrite K|].
    intros [|i] k v N C; cbn [nth_error] in *; [|now apply (F i)].
    injection N as -> ->. do 2 f_equal.
    destruct (reserved (key_asString k)).
    + unfold ret in E1. now injection E1.
    + destruct C as [C|C]; [discriminate|].
      destruct v; try discriminate C; cbn [encryptValue] in E1; unfold ret in E1;
        now injection E1.
Qed.

(** X18. [encryptStringsInDict] keeps the keys of a dictionary and their
    order, and leaves in place every value under [/Length], [/Filter] or
    [/DecodeParms], whatever it is, and every value that is not a string, a
    dictionary or an array. *)
Theorem encrypting_walker_frame (h : Host) (enc : bytes -> Rand bytes)
  (es : PDFEntries) (s s' : nat) (o' : PDFObject) :
  encryptStringsInDict h enc (PDFDict es) s = OK (o', s') ->
  exists es',
    o' = PDFDict es'
    /\ map fst es' = map fst es
    /\ forall i k v,
         nth_error es i = Some (k, v) ->
         reserved (key_asString k) = true \/ plain_value v = true ->
         nth_error es' i = Some (k, v).
Proof.
  rewrite encryptStringsInDict_eq. intros E.
  apply rbind_inv in E. destruct E as (es' & s1 & E1 & E).
  unfold ret in E. injection E as <- <-.
  exists es'. split; [reflexivity|]. exact (encryptEntries_frame h enc es es' s s1 E1).
Qed.

Lemma encrypting_walker_frame_witness :
  exists es',
    PDFDict [ ("Length"%string, PDFString "16"); ("N"%string, PDFNumber 1);
              ("T"%string, PDFHexString "6869") ]
    = PDFDict es'
    /\ map fst es'
       = map fst [ ("Length"%string, PDFString "16"); ("N"%string, PDFNumber 1);
                   ("T"%string, PDFString "hi") ]
    /\ forall i k v,
         nth_error [ ("Length"%string, PDFString "16"); ("N"%string, PDFNumber 1);
                     ("T"%string, PDFString "hi") ] i = Some (k, v) ->
         reserved (key_asString k) = true \/ plain_value v = true ->
         nth_error es' i = Some (k, v).
Proof.
  apply (encrypting_walker_frame web_host (fun data s => OK (data, s))
           [ ("Length"%string, PDFString "16"); ("N"%string, PDFNumber 1);
             ("T"%string, PDFString "hi") ] 0 0).
  reflexivity.
Defined.

Lemma map_fst_update (objs : list ((nat * nat) * PDFObject)) :
  map fst (map update_indirect objs) = map fst objs.
Proof. rewrite map_map. now apply map_ext. Qed.

(** X19. When [encryptPDF] succeeds on a document that has a page, so that
    [save] gives it none, the document it returns has the objects of the
    input under the same references, in the same order, and one more,
    numbered one above the largest object number, to which the trailer's
    [Encrypt] refers (whatever the trailer held there before); a file
    identifier the trailer has is kept, and when it has none the new one is
    twice the hex text of sixteen random bytes. *)
Theorem encryptPDF_appends_descriptor (h : Host) (D : PDFContext) (u : jsstring)
  (o : option jsstring) (options : EncryptOptions) (s s' : nat) (E : PDFContext) :
  HostLaws h ->
  has_pages h D ->
  encryptPDF h D u o options s = OK (E, s') ->
  map fst (indirectObjects E)
  = map fst (indirectObjects D) ++ [(S (largestObjectNumber D), 0)]
  /\ largestObjectNumber E = S (largestObjectNumber D)
  /\ trailer_Encrypt E = Some (PDFRef (S (largestObjectNumber D)) 0)
  /\ (forall id, trailer_ID D = Some id -> trailer_ID E = Some id)
  /\ (trailer_ID D = None ->
      exists fileId,
        getRandomBytes h 16 s = OK (fileId, s + 16)
        /\ trailer_ID E = Some (PDFArray [ PDFHexString (bytesToHex fileId);
                                           PDFHexString (bytesToHex fileId) ])).
Proof.
  intros laws _ H.
  destruct (encryptPDF_inv h D u o options s s' E laws H)
    as (cap & objs & _ & R & _ & ->).
  rewrite indirectObjects_returned.
  unfold updateDicts, sealed, ID_at.
  cbn [indirectObjects largestObjectNumber trailer_Encrypt trailer_ID].
  refine (conj _ (conj eq_refl (conj eq_refl (conj _ _)))).
  - rewrite map_app, map_fst_update, R. reflexivity.
  - intros id ->. reflexivity.
  - intros ->. exists (drawn h s 16). split; [|reflexivity].
    apply (getRandomBytes_ok h cap).
Qed.

Lemma encryptPDF_appends_descriptor_witness :
  map fst (indirectObjects sample_sealed)
  = map fst (indirectObjects sample_document)
    ++ [(S (largestObjectNumber sample_document), 0)]
  /\ largestObjectNumber sample_sealed = S (largestObjectNumber sample_document)
  /\ trailer_Encrypt sample_sealed
     = Some (PDFRef (S (largestObjectNumber sample_document)) 0)
  /\ (forall id, trailer_ID sample_document = Some id ->
                 trailer_ID sample_sealed = Some id)
  /\ (trailer_ID sample_document = None ->
      exists fileId,
        getRandomBytes web_host 16 0 = OK (fileId, 0 + 16)
        /\ trailer_ID sample_sealed
           = Some (PDFArray [ PDFHexString (bytesToHex fileId);
                              PDFHexString (bytesToHex fileId) ])).
Proof.
  apply (encryptPDF_appends_descriptor web_host sample_document (js "user123")
           (Some (js "owner456")) no_options 0 148 sample_sealed).
  - exact web_host_laws.
  - exists 0. reflexivity.
  - exact sample_sealed_eq.
Defined.

(** X20. The options change the descriptor only: when [encryptPDF] succeeds
    with some permissions and [encryptMetadata], it succeeds with any other,
    drawing the same random bytes, and the two documents have the same
    encrypted objects and the same file identifier; they differ in the
    Encrypt dictionary at most.  In particular [encryptMetadata: false]
    exempts no object from encryption. *)
Theorem options_change_the_descriptor_only (h : Host) (D : PDFContext)
  (u : jsstring) (o : option jsstring) (options1 options2 : EncryptOptions)
  (s s' : nat) (E1 : PDFContext) :
  HostLaws h ->
  encryptPDF h D u o options1 s = OK (E1, s') ->
  exists E2,
    encryptPDF h D u o options2 s = OK (E2, s')
    /\ removelast (indirectObjects E2) = removelast (indirectObjects E1)
    /\ length (indirectObjects E2) = length (indirectObjects E1)
    /\ trailer_ID E2 = trailer_ID E1
    /\ trailer_Encrypt E2 = trailer_Encrypt E1.
Proof.
  intros laws H.
  destruct (encryptPDF_inv h D u o options1 s s' E1 laws H)
    as (cap & objs & W & _ & V & ->).
  exists (updateDicts (sealed h D u o options2 s objs)).
  rewrite (encryptPDF_eq h laws cap D u o options2 s).
  change (fileEncryptionKey (keys_at h D u o options2 s))
    with (fileEncryptionKey (keys_at h D u o options1 s)).
  rewrite W.
  rewrite (save_alike (sealed h D u o options1 s objs)
             (sealed h D u o options2 s objs)
             (alike_last (sealed h D u o options1 s objs)
                (sealed h D u o options2 s objs) objs _ _ _
                eq_refl eq_refl eq_refl
                (is_plain_encryptDict _ _ _) (is_plain_encryptDict _ _ _))
             h _ V).
  rewrite !indirectObjects_returned.
  unfold updateDicts, sealed. cbn [trailer_ID trailer_Encrypt].
  rewrite !removelast_last, !length_app. repeat split.
Qed.

Lemma options_change_the_descriptor_only_witness :
  exists E2,
    encryptPDF web_host sample_document (js "user123") (Some (js "owner456"))
      {| opt_permissions := Some 0%Z; opt_encryptMetadata := Some false |} 0
    = OK (E2, 148)
    /\ removelast (indirectObjects E2) = removelast (indirectObjects sample_sealed)
    /\ length (indirectObjects E2) = length (indirectObjects sample_sealed)
    /\ trailer_ID E2 = trailer_ID sample_sealed
    /\ trailer_Encrypt E2 = trailer_Encrypt sample_sealed.
Proof.
  apply (options_change_the_descriptor_only web_host sample_document (js "user123")
           (Some (js "owner456")) no_options
           {| opt_permissions := Some 0%Z; opt_encryptMetadata := Some false |}
           0 148 sample_sealed).
  - exact web_host_laws.
  - exact sample_sealed_eq.
Defined.

(* ################################################################# *)
(** * Further properties: decrypt.ts *)

Lemma decryptEntries_frame (h : Host) (dec : bytes -> result bytes) (es : PDFEntries) :
  map fst (decryptEntries h dec es) = map fst es
  /\ forall i k v,
       nth_error es i = Some (k, v) ->
       reserved (key_asString k) = true \/ plain_value v = true
       \/ (exists b, string_bytes h v = Some b
                     /\ (length b < 32 \/ exists e, dec b = Throw e)) ->
       nth_error (decryptEntries h dec es) i = Some (k, v).
Proof.
  induction es as [|[k0 v0] es [K F]].
  - split; [reflexivity|]. intros i k v N. destruct i; discriminate N.
  - split; [cbn [decryptEntries map fst]; now rewrite K|].
    intros [|i] k v N C; cbn [decryptEntries nth_error] in *; [|now apply (F i)].
    injection N as -> ->. do 2 f_equal.
    destruct (reserved (key_asString k)); [reflexivity|].
    destruct C as [C|[C|(b & B & C)]]; [discriminate| |].
    + destruct v; try discriminate C; reflexivity.
    + assert (S : decryptString dec v b = v).
      { unfold decryptString, IV_LEN. destruct C as [C|[e C]].
        - replace (length b <? 16 + 16) with true
            by (symmetry; apply Nat.ltb_lt; lia).
          reflexivity.
        - rewrite C. now destruct (length b <? 16 + 16). }
      destruct v; try discriminate B; cbn [string_bytes] in B;
        injection B as <-; exact S.
Qed.

(** X21. [decryptStringsInDict] keeps the keys of a dictionary and their
    order, and leaves in place every value under [/Length], [/Filter] or
    [/DecodeParms], every value that is not a string, a dictionary or an
    array, every string of fewer than 32 bytes, and every string the cipher
    rejects. *)
Theorem decrypting_walker_frame (h : Host) (dec : bytes -> result bytes)
  (es : PDFEntries) :
  exists es',
    decryptStringsInDict h dec (PDFDict es) = PDFDict es'
    /\ map fst es' = map fst es
    /\ forall i k v,
         nth_error es i = Some (k, v) ->
         reserved (key_asString k) = true \/ plain_value v = true
         \/ (exists b, string_bytes h v = Some b
                       /\ (length b < 32 \/ exists e, dec b = Throw e)) ->
         nth_error es' i = Some (k, v).
Proof.
  exists (decryptEntries h dec es). split; [apply decryptStringsInDict_eq|].
  apply decryptEntries_frame.
Qed.

(** X22. Whatever the host, when [decryptObject] returns, the key had 32
    bytes, the data was a whole number of blocks and at least two (the IV
    and one block), and the payload is shorter than the data by 17 to 32
    bytes. *)
Theorem decryptObject_strips_iv_and_padding (h : Host) (data fileKey p : bytes) :
  decryptObject h data fileKey = OK p ->
  length fileKey = 32 /\ 32 <= length data /\ length data mod 16 = 0
  /\ length data - 32 <= length p < length data - 16.
Proof.
  unfold decryptObject, IV_LEN.
  destruct (Nat.ltb_spec (length data) (16 + 16)) as [L|L]; [discriminate|].
  intros H. apply aes256CbcDecrypt_inv in H. destruct H as (Hk & _ & H).
  apply host_cbc_decrypt_length in H. destruct H as [Hm Hp].
  rewrite length_skipn in Hm, Hp.
  refine (conj Hk (conj L (conj _ _))); [|lia].
  apply mod16_mul in Hm.
  replace (length data) with ((1 + (length data - 16) / 16) * 16) by lia.
  apply Nat.Div0.mod_mul.
Qed.

Lemma decryptObject_strips_iv_and_padding_witness :
  length sample_key = 32 /\ 32 <= length (zeros 16 ++ sample_ciphertext)
  /\ length (zeros 16 ++ sample_ciphertext) mod 16 = 0
  /\ length (zeros 16 ++ sample_ciphertext) - 32 <= length sample_block
     < length (zeros 16 ++ sample_ciphertext) - 16.
Proof.
  apply (decryptObject_strips_iv_and_padding web_host
           (zeros 16 ++ sample_ciphertext) sample_key sample_block).
  vm_compute. reflexivity.
Defined.

Lemma decryptIndirectObjects_refs (h : Host) (dec : bytes -> result bytes)
  (objs : list ((nat * nat) * PDFObject)) :
  map fst (fst (decryptIndirectObjects h dec objs)) = map fst objs.
Proof.
  induction objs as [|[ref obj] objs IH]; [reflexivity|].
  cbn [decryptIndirectObjects].
  destruct (decryptIndirect h dec obj) as [obj'|e]; [|reflexivity].
  destruct (decryptIndirectObjects h dec objs) as [rest' r].
  cbn [fst map] in *. now rewrite IH.
Qed.

(** X23. On a document that has a page, so that [save] gives it none and
    does not throw, [decryptPDF] whatever its outcome neither adds nor
    removes nor renumbers an indirect object (the Encrypt dictionary stays
    among them after a success too), and it leaves the trailer's file
    identifier as it was; the trailer's [Encrypt] entry is kept when the
    call throws and removed when it returns. *)
Theorem decryptPDF_keeps_the_object_table (h : Host) (c : PDFContext)
  (password : jsstring) :
  has_pages h c ->
  map fst (indirectObjects (fst (decryptPDF h c password)))
  = map fst (indirectObjects c)
  /\ largestObjectNumber (fst (decryptPDF h c password)) = largestObjectNumber c
  /\ trailer_ID (fst (decryptPDF h c password)) = trailer_ID c
  /\ trailer_Encrypt (fst (decryptPDF h c password))
     = match snd (decryptPDF h c password) with
       | OK _ => None
       | Throw _ => trailer_Encrypt c
       end.
Proof.
  intros P. unfold decryptPDF, enumerateIndirectObjects.
  destruct (trailer_Encrypt c) as [r|] eqn:T; [|now repeat split].
  destruct (context_lookup c r) as [[| | | | | | | |d|]|];
    try (now repeat split).
  destruct (negb _ || negb _); [now repeat split|].
  destruct (negb _ || negb _ || negb _ || negb _); [now repeat split|].
  destruct (deriveFileKeyFromPassword h password _ _ _ _) as [[fileKey|]|e];
    try (now repeat split).
  pose proof (decryptIndirectObjects_refs h
                (fun data => decryptObject h data fileKey) (indirectObjects c)) as R.
  pose proof (decryptIndirectObjects_shape h
                (fun data => decryptObject h data fileKey) (indirectObjects c)) as Sh.
  destruct (decryptIndirectObjects h _ (indirectObjects c)) as [objs [[]|e]];
    cbn [fst snd indirectObjects largestObjectNumber trailer_ID trailer_Encrypt] in *;
    [|now repeat split].
  rewrite (save_pages h _ (opened_has_pages h c objs None P Sh)).
  unfold updateDicts.
  cbn [fst snd indirectObjects largestObjectNumber trailer_ID trailer_Encrypt].
  change (fun e : nat * nat * PDFObject => (fst e, updateDict (snd e)))
    with update_indirect.
  rewrite map_fst_update. now repeat split.
Qed.

Lemma decryptPDF_keeps_the_object_table_witness :
  map fst (indirectObjects (fst (decryptPDF web_host sample_sealed (js "user123"))))
  = map fst (indirectObjects sample_sealed)
  /\ largestObjectNumber (fst (decryptPDF web_host sample_sealed (js "user123")))
     = largestObjectNumber sample_sealed
  /\ trailer_ID (fst (decryptPDF web_host sample_sealed (js "user123")))
     = trailer_ID sample_sealed
  /\ trailer_Encrypt (fst (decryptPDF web_host sample_sealed (js "user123")))
     = match snd (decryptPDF web_host sample_sealed (js "user123")) with
       | OK _ => None
       | Throw _ => trailer_Encrypt sample_sealed
       end.
Proof.
  apply (decryptPDF_keeps_the_object_table web_host sample_sealed (js "user123")).
  exists 0. reflexivity.
Defined.

Lemma decryptPDF_detaches (h : Host) (c c' : PDFContext) (password : jsstring) :
  decryptPDF h c password = (c', OK tt) -> trailer_Encrypt c' = None.
Proof.
  unfold decryptPDF, enumerateIndirectObjects.
  destruct (trailer_Encrypt c) as [r|]; [|discriminate].
  destruct (context_lookup c r) as [[| | | | | | | |d|]|]; try discriminate.
  destruct (negb _ || negb _); [discriminate|].
  destruct (negb _ || negb _ || negb _ || negb _); [discriminate|].
  destruct (deriveFileKeyFromPassword h password _ _ _ _) as [[fileKey|]|e];
    try discriminate.
  destruct (decryptIndirectObjects h _ (indirectObjects c)) as [objs [[]|e]];
    [|discriminate].
  destruct (save h _) as [written|e] eqn:V; [|discriminate].
  intros [= <-]. apply save_inv in V. now subst written.
Qed.

(** X24. A document [decryptPDF] has returned is not encrypted any more: a
    second call on it, with any password, throws 'PDF is not encrypted' and
    leaves it as it is. *)
Theorem decrypted_document_is_not_encrypted (h : Host) (c c' : PDFContext)
  (password password' : jsstring) :
  decryptPDF h c password = (c', OK tt) ->
  decryptPDF h c' password' = (c', Throw NotEncrypted).
Proof.
  intros H. apply decryptPDF_detaches in H.
  unfold decryptPDF. now rewrite H.
Qed.

Lemma one_leaf_opened_eq :
  decryptPDF web_host one_leaf_empty_owner (js "user123") = (one_leaf_opened, OK tt).
Proof. vm_compute. reflexivity. Qed.

Lemma decrypted_document_is_not_encrypted_witness :
  decryptPDF web_host one_leaf_opened (js "wrong")
  = (one_leaf_opened, Throw NotEncrypted).
Proof.
  apply (decrypted_document_is_not_encrypted web_host one_leaf_empty_owner
           one_leaf_opened (js "user123") (js "wrong")).
  exact one_leaf_opened_eq.
Defined.

Lemma decryptIndirect_no_stream (h : Host) (dec : bytes -> result bytes)
  (obj : PDFObject) :
  filter_typed obj = true -> is_stream obj = false ->
  exists obj', decryptIndirect h dec obj = OK obj'.
Proof.
  unfold filter_typed, decryptIndirect.
  destruct (isStandardFilter obj) as [skip|]; [|discriminate].
  intros _ S. cbn [bind]. destruct skip; [eauto|].
  destruct obj; try discriminate S; cbn [bind]; eauto.
Qed.

Lemma decryptIndirectObjects_no_stream (h : Host) (dec : bytes -> result bytes)
  (objs : list ((nat * nat) * PDFObject)) :
  forallb (fun e => filter_typed (snd e)) objs = true ->
  forallb (fun e => negb (is_stream (snd e))) objs = true ->
  snd (decryptIndirectObjects h dec objs) = OK tt.
Proof.
  induction objs as [|[ref obj] objs IH]; intros T S; [reflexivity|].
  cbn [forallb snd] in T, S.
  apply andb_prop in T. destruct T as [T1 T2].
  apply andb_prop in S. destruct S as [S1 S2].
  apply negb_true_iff in S1.
  destruct (decryptIndirect_no_stream h dec obj T1 S1) as [obj' E].
  cbn [decryptIndirectObjects]. rewrite E.
  specialize (IH T2 S2).
  destruct (decryptIndirectObjects h dec objs) as [rest' r]. exact IH.
Qed.

(** X25. Strings that fail to decrypt never fail the call: on a document
    that has a page and no stream, whose descriptor names revision and
    version 5 and has its four fields at their lengths, [decryptPDF] returns
    as soon as the password matches a validation hash, whatever the strings
    hold. *)
Theorem string_failures_are_tolerated (h : Host) (c : PDFContext)
  (password : jsstring) (d : PDFEntries) :
  HostLaws h -> capable h = true ->
  descriptor c = Some d ->
  number_or_0 (dict_lookup c d "R") = 5%Z ->
  number_or_0 (dict_lookup c d "V") = 5%Z ->
  fields_ok h d = true ->
  matches_user h (preparePassword password) (stored h c "U") = true
  \/ matches_owner h (preparePassword password) (stored h c "U") (stored h c "O")
     = true ->
  filters_typed c = true -> no_streams c = true ->
  has_pages h c ->
  exists c', decryptPDF h c password = (c', OK tt).
Proof.
  intros laws cap Hd HR HV F M T S P.
  unfold fields_ok in F.
  apply andb_prop in F. destruct F as [F FUE].
  apply andb_prop in F. destruct F as [F FOE].
  apply andb_prop in F. destruct F as [FO FU].
  rewrite (decryptPDF_eq h laws cap c password d Hd HR HV FO FU FOE FUE).
  destruct (recovered_some h _ _ _ (stored h c "OE") (stored h c "UE") M)
    as [key ->].
  unfold decrypt_with.
  rewrite (decryptIndirectObjects_no_stream h _ (indirectObjects c) T S).
  rewrite (save_pages h _ (opened_has_pages h c _ None P
                             (decryptIndirectObjects_shape h _ (indirectObjects c)))).
  eexists. reflexivity.
Qed.

Lemma string_failures_are_tolerated_witness :
  exists c', decryptPDF web_host never_encrypted_document (js "user123") = (c', OK tt).
Proof.
  apply (string_failures_are_tolerated web_host never_encrypted_document
           (js "user123") sample_descriptor).
  - exact web_host_laws.
  - reflexivity.
  - reflexivity.
  - reflexivity.
  - reflexivity.
  - vm_compute. reflexivity.
  - left. vm_compute. reflexivity.
  - reflexivity.
  - reflexivity.
  - exists 0. reflexivity.
Defined.

(* ################################################################# *)
(** * Further properties: the exact round trip *)

Section ExactRoundTrip.

Variable h : Host.
Hypothesis laws : HostLaws h.
Hypothesis cap : capable h = true.
Variable fileKey : bytes.
Hypothesis fileKey_length : length fileKey = 32.

Let enc := fun data => encryptObject h data fileKey.
Let dec := fun data => decryptObject h data fileKey.

Lemma entries_reread (es : PDFEntries) :
  Forall (fun e => value_rereads h fileKey (snd e)) es ->
  forall s, exists es' s',
    encryptEntries h enc es s = OK (es', s')
    /\ decryptEntries h dec es' = map (reread_entry h) es.
Proof.
  unfold enc, dec. induction 1 as [|[k v] es Hv _ IH]; intros s.
  - exists [], s. split; reflexivity.
  - cbn [encryptEntries]. unfold rbind, ret.
    destruct (reserved (key_asString k)) eqn:R.
    + destruct (IH s) as (es' & s' & E & D). rewrite E.
      exists ((k, v) :: es'), s'. split; [reflexivity|].
      cbn [decryptEntries map]. unfold reread_entry at 1. cbn [fst snd].
      now rewrite R, D.
    + destruct (Hv s) as (v' & s1 & E1 & D1). cbn [snd] in E1, D1. rewrite E1.
      destruct (IH s1) as (es' & s' & E & D). rewrite E.
      exists ((k, v') :: es'), s'. split; [reflexivity|].
      cbn [decryptEntries map]. unfold reread_entry at 1. cbn [fst snd].
      now rewrite R, D, D1.
Qed.

Lemma elements_reread (els : list PDFObject) :
  Forall (element_rereads h fileKey) els ->
  forall s, exists els' s',
    encryptElements h enc els s = OK (els', s')
    /\ decryptElements h dec els' = map (reread h false) els.
Proof.
  unfold enc, dec. induction 1 as [|el els Hel _ IH]; intros s.
  - exists [], s. split; reflexivity.
  - cbn [encryptElements]. unfold rbind, ret.
    destruct (Hel s) as (el' & s1 & E1 & D1). rewrite E1.
    destruct (IH s1) as (els' & s' & E & D). rewrite E.
    exists (el' :: els'), s'. split; [reflexivity|].
    cbn [decryptElements map]. now rewrite D1, D.
Qed.

Lemma string_reread (data : bytes) (s : nat) :
  exists v' s',
    (encrypted <~ enc data ;; ret (PDFHexStringOf (bytesToHex encrypted)))%rand s
    = OK (v', s')
    /\ decryptValue h dec v' = PDFHexString (bytesToHex data).
Proof.
  unfold rbind, ret, enc.
  rewrite (encryptObject_ok h cap) by assumption.
  eexists _, _. split; [reflexivity|].
  unfold PDFHexStringOf. cbn [decryptValue].
  rewrite hex_asBytes_bytesToHex.
  exact (decryptString_encrypted h laws cap fileKey fileKey_length data s _).
Qed.

Lemma object_reread (o : PDFObject) :
  value_rereads h fileKey o /\ element_rereads h fileKey o.
Proof.
  induction o as [| | | |v|v| |a IH|d IH|d c IH] using PDFObject_nested_ind;
    try (split; intros s; eexists _, _; split; reflexivity).
  - split; [|intros s; eexists _, _; split; reflexivity].
    intros s. apply string_reread.
  - split; [|intros s; eexists _, _; split; reflexivity].
    intros s. apply string_reread.
  - assert (H : Forall (element_rereads h fileKey) a)
      by (eapply Forall_impl; [|exact IH]; now intros x [_ Hx]).
    split; intros s;
      destruct (elements_reread a H s) as (els' & s' & E & D);
      exists (PDFArray els'), s';
      (split;
       [cbn [encryptValue encryptElement]; rewrite encryptStringsInArray_eq;
        unfold rbind, ret; fold enc; now rewrite E
       |cbn [decryptValue decryptElement]; rewrite decryptStringsInArray_eq;
        fold dec; now rewrite D]).
  - assert (H : Forall (fun e => value_rereads h fileKey (snd e)) d)
      by (eapply Forall_impl; [|exact IH]; now intros x [Hx _]).
    split; intros s;
      destruct (entries_reread d H s) as (es' & s' & E & D);
      exists (PDFDict es'), s';
      (split;
       [cbn [encryptValue encryptElement]; rewrite encryptStringsInDict_eq;
        unfold rbind, ret; fold enc; now rewrite E
       |cbn [decryptValue decryptElement]; rewrite decryptStringsInDict_eq;
        fold dec; now rewrite D]).
Qed.

Lemma indirect_reread (obj : PDFObject) :
  filter_typed obj = true ->
  forall s, exists obj' s',
    encryptIndirect h enc obj s = OK (obj', s')
    /\ decryptIndirect h dec obj' = OK (reread_indirect h obj).
Proof.
  unfold filter_typed, reread_indirect, enc, dec. intros T s.
  destruct (isStandardFilter obj) as [skip|] eqn:F; [clear T|discriminate].
  unfold encryptIndirect, rbind, lift, ret. rewrite F.
  destruct skip.
  { exists obj, s. split; [reflexivity|].
    unfold decryptIndirect. now rewrite F. }
  destruct obj as [| | | | | | |a|d|d c];
    try (eexists _, _; split; reflexivity).
  - destruct (proj2 (object_reread (PDFArray a)) s) as (o' & s' & E & D).
    cbn [encryptElement] in E. rewrite E.
    rewrite encryptStringsInArray_eq in E. unfold rbind, ret in E.
    destruct (encryptElements h _ a s) as [[els' s1]|]; [|discriminate].
    injection E as <- <-.
    eexists _, _. split; [reflexivity|].
    unfold decryptIndirect. cbn [isStandardFilter bind].
    cbn [decryptElement] in D. now rewrite D.
  - destruct (proj1 (object_reread (PDFDict d)) s) as (o' & s' & E & D).
    cbn [encryptValue] in E. rewrite E.
    rewrite encryptStringsInDict_eq in E. unfold rbind, ret in E.
    destruct (encryptEntries h _ d s) as [[es' s1]|] eqn:E1; [|discriminate].
    injection E as <- <-.
    eexists _, _. split; [reflexivity|].
    unfold decryptIndirect.
    replace (isStandardFilter (PDFDict es')) with (OK false : result bool)
      by (rewrite <- F; cbn [isStandardFilter];
          now rewrite (encryptEntries_Filter h _ d es' s s1 E1)).
    cbn [bind]. cbn [decryptValue] in D. now rewrite D.
  - rewrite (encryptObject_ok h cap) by assumption.
    eexists _, _. split; [reflexivity|].
    unfold decryptIndirect. cbn [isStandardFilter bind].
    rewrite (decryptObject_encrypted h laws cap) by assumption.
    reflexivity.
Qed.

Lemma objects_reread (objs : list ((nat * nat) * PDFObject)) :
  forallb (fun e => filter_typed (snd e)) objs = true ->
  forall s, exists objs' s',
    encryptIndirectObjects h enc objs s = OK (objs', s')
    /\ decryptIndirectObjects h dec objs'
       = (map (fun e => (fst e, reread_indirect h (snd e))) objs, OK tt).
Proof.
  unfold enc, dec. induction objs as [|[ref obj] objs IH]; intros T s.
  - exists [], s. split; reflexivity.
  - cbn [forallb snd] in T. apply andb_prop in T. destruct T as [T1 T2].
    destruct (indirect_reread obj T1 s) as (obj' & s1 & E1 & D1).
    destruct (IH T2 s1) as (objs' & s' & E & D).
    unfold enc, dec in *.
    cbn [encryptIndirectObjects]. unfold rbind, ret. rewrite E1, E.
    eexists _, _. split; [reflexivity|].
    cbn [decryptIndirectObjects]. now rewrite D1, D.
Qed.

End ExactRoundTrip.

(** X26. What a round trip through the two dictionary walkers returns, on a
    capable host and under a 32-byte key: [encryptStringsInDict] succeeds,
    and [decryptStringsInDict] of its result is the dictionary with each
    string that is the value of an entry, at any depth, rewritten as the
    lower-case hex string of its bytes (so a literal string comes back as a
    hex string); the values under [/Length], [/Filter] and [/DecodeParms],
    the strings that are elements of arrays and all other objects come back
    as they were. *)
Theorem dictionary_roundtrip_is_reread (h : Host) (fileKey : bytes)
  (d : PDFEntries) (s : nat) :
  HostLaws h -> capable h = true -> length fileKey = 32 ->
  exists o' s',
    encryptStringsInDict h (fun data => encryptObject h data fileKey) (PDFDict d) s
    = OK (o', s')
    /\ decryptStringsInDict h (fun data => decryptObject h data fileKey) o'
       = reread h true (PDFDict d).
Proof.
  intros laws cap Hk.
  destruct (proj1 (object_reread h laws cap fileKey Hk (PDFDict d)) s)
    as (o' & s' & E & D).
  cbn [encryptValue] in E.
  exists o', s'. split; [exact E|].
  rewrite encryptStringsInDict_eq in E. unfold rbind, ret in E.
  destruct (encryptEntries h _ d s) as [[es' s1]|]; [|discriminate].
  injection E as <- <-. exact D.
Qed.

Lemma dictionary_roundtrip_is_reread_witness :
  exists o' s',
    encryptStringsInDict web_host (fun data => encryptObject web_host data sample_key)
      (PDFDict [ ("Title"%string, PDFString "Hello");
                 ("Kids"%string, PDFArray [ PDFString "in the clear" ]) ]) 0
    = OK (o', s')
    /\ decryptStringsInDict web_host (fun data => decryptObject web_host data sample_key) o'
       = reread web_host true
           (PDFDict [ ("Title"%string, PDFString "Hello");
                      ("Kids"%string, PDFArray [ PDFString "in the clear" ]) ]).
Proof.
  apply (dictionary_roundtrip_is_reread web_host sample_key
           [ ("Title"%string, PDFString "Hello");
             ("Kids"%string, PDFArray [ PDFString "in the clear" ]) ] 0).
  - exact web_host_laws.
  - reflexivity.
  - reflexivity.
Defined.

Lemma context_wf_updateDicts (c : PDFContext) :
  context_wf (updateDicts c) = context_wf c.
Proof.
  unfold context_wf, updateDicts. cbn [indirectObjects largestObjectNumber].
  induction (indirectObjects c) as [|e l IH]; [reflexivity|].
  cbn [map forallb fst]. now rewrite IH.
Qed.

Lemma filters_typed_updateDicts (c : PDFContext) :
  filters_typed (updateDicts c) = filters_typed c.
Proof.
  unfold filters_typed, updateDicts. cbn [indirectObjects].
  induction (indirectObjects c) as [|[r x] l IH]; [reflexivity|].
  cbn [map forallb fst snd]. rewrite IH. now destruct x.
Qed.

(** The closed form of a round trip with the user password. *)
Lemma sealed_reread (h : Host) (D : PDFContext) (u : jsstring)
  (o : option jsstring) (options : EncryptOptions) (s : nat) :
  HostLaws h -> capable h = true ->
  context_wf D = true -> filters_typed D = true -> has_pages h D ->
  exists objs s',
    encryptPDF h D u o options s = OK (updateDicts (sealed h D u o options s objs), s')
    /\ map fst objs = map fst (indirectObjects D)
    /\ has_pages h (updateDicts (sealed h D u o options s objs))
    /\ decryptPDF h (updateDicts (sealed h D u o options s objs)) u
       = ({| indirectObjects :=
               map (fun e => (fst e, updateDict (reread_indirect h (snd e))))
                 (indirectObjects D)
               ++ [((S (largestObjectNumber D), 0),
                    encryptDict (effective_permissions options)
                      (effective_encryptMetadata options)
                      (keys_at h D u o options s))];
             largestObjectNumber := S (largestObjectNumber D);
             trailer_ID := ID_at h D s;
             trailer_Encrypt := None;
             trailer_Root := trailer_Root D |}, OK tt).
Proof.
  intros laws cap wf typed pages.
  set (fileKey := fileEncryptionKey (keys_at h D u o options s)).
  assert (Hk : length fileKey = 32) by apply drawn_length.
  destruct (objects_reread h laws cap fileKey Hk (indirectObjects D) typed
              (keys_position D s + 68)) as (objs & s' & W & Dec).
  destruct (objects_roundtrip h laws cap fileKey Hk (indirectObjects D) typed
              (keys_position D s + 68)) as (objs0 & s0 & W0 & objs'' & D0 & P0).
  rewrite W in W0. injection W0 as <- <-.
  rewrite Dec in D0. injection D0 as <-.
  pose proof (shape_indirect_payload h _ _ P0) as S2.
  pose proof (roundtrip_shapes h fileKey _ _ _ Dec P0) as S1.
  pose proof (encryptIndirectObjects_refs h _ _ _ _ _ W) as R.
  pose proof (sealed_has_pages h D u o options s objs S1 pages) as P1.
  exists objs, s'.
  split.
  { rewrite (encryptPDF_eq h laws cap). fold fileKey. rewrite W.
    now rewrite (save_pages h _ P1). }
  split; [exact R|]. split.
  { refine (has_pages_alike false _ _ _ h P1).
    apply alike_shapes; [reflexivity|].
    unfold updateDicts. cbn [indirectObjects].
    change (fun e : nat * nat * PDFObject => (fst e, updateDict (snd e)))
      with update_indirect.
    now rewrite shape_indirect_update. }
  rewrite (decryptPDF_sealed h laws cap D u o options s objs wf R).
  unfold keys_at.
  rewrite (recovered_user h laws (effective_params u o options)).
  fold (keys_at h D u o options s). fold fileKey.
  rewrite (decrypt_with_returned h D u o options s objs _ fileKey pages S2 Dec).
  now rewrite map_map.
Qed.

(** X27. The document a round trip returns, object by object: on a capable
    host, for a document that has a page, whose object numbers are within
    [largestObjectNumber] and whose [/Filter] entries are names or strings,
    [encryptPDF] succeeds, [decryptPDF] with the user password succeeds on
    its result, and the document it returns has the objects of the input
    under their references, each as [reread_indirect] gives it (streams
    have their bytes back, dictionaries and arrays are walked as in X26, an
    object with [/Filter /Standard] and any other object is as it was) and
    as [save] writes it (a stream has the [Length] of its contents),
    followed by the Encrypt dictionary, which stays in the document though
    the trailer no longer refers to it. *)
Theorem roundtrip_document_is_reread (h : Host) (D : PDFContext) (u : jsstring)
  (o : option jsstring) (options : EncryptOptions) (s : nat) :
  HostLaws h -> capable h = true ->
  context_wf D = true -> filters_typed D = true -> has_pages h D ->
  exists E s' D' ed,
    encryptPDF h D u o options s = OK (E, s')
    /\ decryptPDF h E u = (D', OK tt)
    /\ indirectObjects D'
       = map (fun e => (fst e, updateDict (reread_indirect h (snd e))))
           (indirectObjects D)
         ++ [((S (largestObjectNumber D), 0), PDFDict ed)]
    /\ descriptor E = Some ed
    /\ trailer_Encrypt D' = None.
Proof.
  intros laws cap wf typed pages.
  destruct (sealed_reread h D u o options s laws cap wf typed pages)
    as (objs & s' & H & R & _ & Dec).
  eexists _, s', _, _.
  refine (conj H (conj Dec (conj eq_refl (conj _ eq_refl)))).
  exact (descriptor_sealed h D u o options s objs wf R).
Qed.

Lemma roundtrip_document_is_reread_witness :
  exists E s' D' ed,
    encryptPDF web_host sample_document (js "user123") (Some (js "owner456"))
      no_options 0 = OK (E, s')
    /\ decryptPDF web_host E (js "user123") = (D', OK tt)
    /\ indirectObjects D'
       = map (fun e => (fst e, updateDict (reread_indirect web_host (snd e))))
           (indirectObjects sample_document)
         ++ [((S (largestObjectNumber sample_document), 0), PDFDict ed)]
    /\ descriptor E = Some ed
    /\ trailer_Encrypt D' = None.
Proof.
  apply (roundtrip_document_is_reread web_host sample_document (js "user123")
           (Some (js "owner456")) no_options 0).
  - exact web_host_laws.
  - reflexivity.
  - reflexivity.
  - reflexivity.
  - exists 0. reflexivity.
Defined.

(* ################################################################# *)
(** * Further properties: when [encryptPDF] succeeds, and what it draws *)

Lemma encryptIndirect_untyped (h : Host) (enc : bytes -> Rand bytes)
  (obj : PDFObject) (s : nat) :
  filter_typed obj = false -> encryptIndirect h enc obj s = Throw TypeError.
Proof.
  unfold filter_typed, encryptIndirect, rbind, lift.
  destruct (isStandardFilter obj) as [skip|e] eqn:F; [discriminate|].
  intros _. f_equal.
  destruct obj as [| | | | | | |a|d|d c]; try discriminate F.
  cbn [isStandardFilter] in F.
  destruct (dict_get d "Filter") as [f|]; [|discriminate].
  destruct (asString f); [discriminate|]. now injection F.
Qed.

Lemma encryptIndirectObjects_untyped (h : Host) (fileKey : bytes)
  (objs : list ((nat * nat) * PDFObject)) (s : nat) :
  HostLaws h -> capable h = true -> length fileKey = 32 ->
  forallb (fun e => filter_typed (snd e)) objs = false ->
  encryptIndirectObjects h (fun data => encryptObject h data fileKey) objs s
  = Throw TypeError.
Proof.
  intros laws cap Hk. revert s.
  induction objs as [|[ref obj] objs IH]; intros s T; [discriminate|].
  cbn [forallb snd] in T. cbn [encryptIndirectObjects]. unfold rbind.
  destruct (filter_typed obj) eqn:T1.
  - destruct (indirect_reread h laws cap fileKey Hk obj T1 s) as (obj' & s1 & E & _).
    rewrite E. now rewrite (IH s1 T).
  - now rewrite encryptIndirect_untyped.
Qed.

(** X28. On a capable host and a document that has a page, [encryptPDF]
    succeeds exactly when the [/Filter] of every indirect dictionary that
    has one is a name or a string; otherwise it throws the [TypeError] of
    calling [asString] on an object that lacks it. *)
Theorem encryptPDF_succeeds_iff_filters_typed (h : Host) (D : PDFContext)
  (u : jsstring) (o : option jsstring) (options : EncryptOptions) (s : nat) :
  HostLaws h -> capable h = true -> has_pages h D ->
  match encryptPDF h D u o options s with
  | OK _ => filters_typed D = true
  | Throw e => filters_typed D = false /\ e = TypeError
  end.
Proof.
  intros laws cap pages.
  destruct (filters_typed D) eqn:T.
  - destruct (encryptPDF_ok h laws cap D u o options s T pages)
      as (objs & s' & _ & ->). reflexivity.
  - rewrite (encryptPDF_eq h laws cap).
    set (fileKey := fileEncryptionKey (keys_at h D u o options s)).
    assert (Hk : length fileKey = 32) by apply drawn_length.
    rewrite (encryptIndirectObjects_untyped h fileKey _ _ laws cap Hk T).
    now split.
Qed.

Lemma encryptPDF_succeeds_iff_filters_typed_witness :
  match encryptPDF web_host untyped_filter_document (js "user123") None no_options 0 with
  | OK _ => filters_typed untyped_filter_document = true
  | Throw e => filters_typed untyped_filter_document = false /\ e = TypeError
  end.
Proof.
  apply (encryptPDF_succeeds_iff_filters_typed web_host untyped_filter_document
           (js "user123") None no_options 0); [| |exists 0; reflexivity].
  - exact web_host_laws.
  - reflexivity.
Defined.

Lemma list_sum_cons (x : nat) (l : list nat) : list_sum (x :: l) = x + list_sum l.
Proof. reflexivity. Qed.

Section Draws.

Variable h : Host.
Variable fileKey : bytes.

Let enc := fun data => encryptObject h data fileKey.

Lemma encryptObject_draws (data : bytes) (s s' : nat) (out : bytes) :
  encryptObject h data fileKey s = OK (out, s') -> s' = s + 16.
Proof.
  unfold encryptObject, IV_LEN. intros H.
  apply rbind_inv in H. destruct H as (iv & s1 & G & H).
  apply rbind_inv in H. destruct H as (ct & s2 & L & H).
  apply lift_inv in L. destruct L as [_ ->].
  unfold ret in H. injection H as _ <-.
  unfold getRandomBytes in G. destruct (has_getRandomValues h); [|discriminate].
  now injection G.
Qed.

Lemma string_draws (data : bytes) (s s' : nat) (v' : PDFObject) :
  (encrypted <~ enc data ;; ret (PDFHexStringOf (bytesToHex encrypted)))%rand s
  = OK (v', s') ->
  s' = s + 16 * 1.
Proof.
  intros H. apply rbind_inv in H. destruct H as (x & s1 & E & H).
  unfold ret in H. injection H as _ <-.
  rewrite (encryptObject_draws _ _ _ _ E). lia.
Qed.

Lemma entries_draw (es : PDFEntries) :
  Forall (fun e => forall s s' v',
            encryptValue h enc (snd e) s = OK (v', s') ->
            s' = s + 16 * leaves true (snd e)) es ->
  forall s s' es',
    encryptEntries h enc es s = OK (es', s') ->
    s' = s + 16 * list_sum (map leaves_entry es).
Proof.
  induction 1 as [|[k v] es Hv _ IH]; intros s s' es' E.
  - cbn in E. injection E as _ <-. cbn. lia.
  - cbn [encryptEntries] in E.
    apply rbind_inv in E. destruct E as (v1 & s1 & E1 & E).
    apply rbind_inv in E. destruct E as (rest' & s2 & E2 & E).
    unfold ret in E. injection E as _ <-.
    cbn [map]. rewrite list_sum_cons. unfold leaves_entry at 1. cbn [fst snd] in *.
    rewrite (IH _ _ _ E2).
    destruct (reserved (key_asString k)).
    + unfold ret in E1. injection E1 as _ <-. lia.
    + rewrite (Hv _ _ _ E1). lia.
Qed.

Lemma elements_draw (els : list PDFObject) :
  Forall (fun el => forall s s' el',
            encryptElement h enc el s = OK (el', s') ->
            s' = s + 16 * leaves false el) els ->
  forall s s' els',
    encryptElements h enc els s = OK (els', s') ->
    s' = s + 16 * list_sum (map (leaves false) els).
Proof.
  induction 1 as [|el els Hel _ IH]; intros s s' els' E.
  - cbn in E. injection E as _ <-. cbn. lia.
  - cbn [encryptElements] in E.
    apply rbind_inv in E. destruct E as (el1 & s1 & E1 & E).
    apply rbind_inv in E. destruct E as (rest' & s2 & E2 & E).
    unfold ret in E. injection E as _ <-.
    cbn [map]. rewrite list_sum_cons, (IH _ _ _ E2), (Hel _ _ _ E1). lia.
Qed.

Lemma object_draws (o : PDFObject) :
  (forall s s' v',
      encryptValue h enc o s = OK (v', s') -> s' = s + 16 * leaves true o)
  /\ (forall s s' el',
         encryptElement h enc o s = OK (el', s') -> s' = s + 16 * leaves false o).
Proof.
  induction o as [| | | |v|v| |a IH|d IH|d c IH] using PDFObject_nested_ind;
    try (split; intros s s' x E; cbn in E; unfold ret in E;
         injection E as _ <-; cbn; lia).
  - split; [intros s s' x E; exact (string_draws _ _ _ _ E)|].
    intros s s' x E. cbn in E. unfold ret in E. injection E as _ <-. cbn. lia.
  - split; [intros s s' x E; exact (string_draws _ _ _ _ E)|].
    intros s s' x E. cbn in E. unfold ret in E. injection E as _ <-. cbn. lia.
  - assert (H : Forall (fun el => forall s s' el',
                          encryptElement h enc el s = OK (el', s') ->
                          s' = s + 16 * leaves false el) a)
      by (eapply Forall_impl; [|exact IH]; now intros x [_ Hx]).
    split; intros s s' x E; cbn [encryptValue encryptElement] in E;
      rewrite encryptStringsInArray_eq in E;
      apply rbind_inv in E; destruct E as (els' & s1 & E1 & E);
      unfold ret in E; injection E as _ <-;
      exact (elements_draw a H _ _ _ E1).
  - assert (H : Forall (fun e => forall s s' v',
                          encryptValue h enc (snd e) s = OK (v', s') ->
                          s' = s + 16 * leaves true (snd e)) d)
      by (eapply Forall_impl; [|exact IH]; now intros x [Hx _]).
    split; intros s s' x E; cbn [encryptValue encryptElement] in E;
      rewrite encryptStringsInDict_eq in E;
      apply rbind_inv in E; destruct E as (es' & s1 & E1 & E);
      unfold ret in E; injection E as _ <-;
      exact (entries_draw d H _ _ _ E1).
Qed.

Lemma indirect_draws (obj obj' : PDFObject) (s s' : nat) :
  encryptIndirect h enc obj s = OK (obj', s') ->
  s' = s + 16 * leaves_indirect obj.
Proof.
  unfold encryptIndirect, leaves_indirect. intros E.
  apply rbind_inv in E. destruct E as (skip & s1 & F & E).
  apply lift_inv in F. destruct F as [F ->]. rewrite F.
  destruct skip; [unfold ret in E; injection E as _ <-; lia|].
  destruct obj as [| | | | | | |a|d|d c];
    try (unfold rbind, ret in E; injection E as _ <-; lia).
  - unfold rbind, ret in E. exact (proj2 (object_draws (PDFArray a)) _ _ _ E).
  - unfold rbind, ret in E. exact (proj1 (object_draws (PDFDict d)) _ _ _ E).
  - apply rbind_inv in E. destruct E as (o1 & s1 & E1 & E).
    apply rbind_inv in E1. destruct E1 as (x & s2 & E1 & R).
    unfold ret in R. injection R as <- <-.
    unfold ret in E. injection E as _ <-.
    rewrite (encryptObject_draws _ _ _ _ E1). lia.
Qed.

Lemma objects_draw (objs objs' : list ((nat * nat) * PDFObject)) (s s' : nat) :
  encryptIndirectObjects h enc objs s = OK (objs', s') ->
  s' = s + 16 * list_sum (map (fun e => leaves_indirect (snd e)) objs).
Proof.
  revert objs' s s'. induction objs as [|[ref obj] objs IH]; intros objs' s s' E.
  - cbn in E. injection E as _ <-. cbn. lia.
  - cbn [encryptIndirectObjects] in E.
    apply rbind_inv in E. destruct E as (o1 & s1 & E1 & E).
    apply rbind_inv in E. destruct E as (rest' & s2 & E2 & E).
    unfold ret in E. injection E as _ <-.
    cbn [map snd]. rewrite list_sum_cons.
    rewrite (IH _ _ _ E2), (indirect_draws _ _ _ _ E1). lia.
Qed.

End Draws.

(** X29. The random bytes a successful [encryptPDF] draws: sixteen for the
    file identifier when the trailer has none, 68 for the keys, and sixteen,
    a fresh IV, for each stream and each string it encrypts (the strings
    that are values of dictionary entries outside the three reserved keys,
    at any depth, in indirect dictionaries and arrays that are not
    skipped). *)
Theorem encryptPDF_draws_one_iv_per_leaf (h : Host) (D : PDFContext) (u : jsstring)
  (o : option jsstring) (options : EncryptOptions) (s s' : nat) (E : PDFContext) :
  HostLaws h ->
  encryptPDF h D u o options s = OK (E, s') ->
  s' = s + (match trailer_ID D with Some _ => 0 | None => 16 end)
       + 68 + 16 * leaves_document D.
Proof.
  intros laws H.
  destruct (encryptPDF_inv h D u o options s s' E laws H) as (_ & objs & W & _).
  apply objects_draw in W. rewrite W. unfold keys_position, leaves_document.
  destruct (trailer_ID D); lia.
Qed.

Lemma encryptPDF_draws_one_iv_per_leaf_witness :
  148 = 0 + (match trailer_ID sample_document with Some _ => 0 | None => 16 end)
        + 68 + 16 * leaves_document sample_document.
Proof.
  apply (encryptPDF_draws_one_iv_per_leaf web_host sample_document (js "user123")
           (Some (js "owner456")) no_options 0 148 sample_sealed).
  - exact web_host_laws.
  - exact sample_sealed_eq.
Defined.

(* ################################################################# *)
(** * Further properties: encrypting twice *)

Lemma encryptIndirect_typed (h : Host) (enc : bytes -> Rand bytes)
  (obj obj' : PDFObject) (s s' : nat) :
  encryptIndirect h enc obj s = OK (obj', s') -> filter_typed obj' = true.
Proof.
  unfold encryptIndirect, filter_typed. intros E.
  apply rbind_inv in E. destruct E as (skip & s1 & F & E).
  apply lift_inv in F. destruct F as [F ->].
  destruct skip; [unfold ret in E; injection E as <- _; now rewrite F|].
  destruct obj as [| | | | | | |a|d|d c];
    try (unfold rbind, ret in E; injection E as <- _; reflexivity).
  - unfold rbind, ret in E. rewrite encryptStringsInArray_eq in E.
    apply rbind_inv in E. destruct E as (els' & s2 & _ & E).
    unfold ret in E. now injection E as <- _.
  - unfold rbind, ret in E. rewrite encryptStringsInDict_eq in E.
    apply rbind_inv in E. destruct E as (es' & s2 & E1 & E).
    unfold ret in E. injection E as <- _.
    cbn [isStandardFilter] in *.
    rewrite (encryptEntries_Filter h enc d es' _ _ E1). now rewrite F.
  - apply rbind_inv in E. destruct E as (o1 & s2 & E1 & E).
    apply rbind_inv in E1. destruct E1 as (x & s3 & _ & R).
    unfold ret in R. injection R as <- _.
    unfold ret in E. now injection E as <- _.
Qed.

Lemma encryptIndirectObjects_typed (h : Host) (enc : bytes -> Rand bytes)
  (objs objs' : list ((nat * nat) * PDFObject)) (s s' : nat) :
  encryptIndirectObjects h enc objs s = OK (objs', s') ->
  forallb (fun e => filter_typed (snd e)) objs' = true.
Proof.
  revert objs' s s'. induction objs as [|[ref obj] objs IH]; intros objs' s s' E.
  - cbn in E. now injection E as <- _.
  - cbn [encryptIndirectObjects] in E.
    apply rbind_inv in E. destruct E as (o1 & s1 & E1 & E).
    apply rbind_inv in E. destruct E as (rest' & s2 & E2 & E).
    unfold ret in E. injection E as <- _.
    cbn [forallb snd].
    now rewrite (encryptIndirect_typed h enc _ _ _ _ E1), (IH _ _ _ E2).
Qed.

(** A document [encryptPDF] has returned satisfies what the round trip asks
    of its input. *)
Lemma sealed_wf_typed (h : Host) (D : PDFContext) (u : jsstring) (o : option jsstring)
  (options : EncryptOptions) (s s' : nat) (E : PDFContext) :
  HostLaws h -> context_wf D = true ->
  encryptPDF h D u o options s = OK (E, s') ->
  context_wf E = true /\ filters_typed E = true.
Proof.
  intros laws wf H.
  destruct (encryptPDF_inv h D u o options s s' E laws H)
    as (_ & objs & W & R & _ & ->).
  rewrite context_wf_updateDicts, filters_typed_updateDicts.
  unfold context_wf, filters_typed, sealed in *.
  cbn [indirectObjects largestObjectNumber].
  rewrite !forallb_app. cbn [forallb fst snd].
  rewrite (encryptIndirectObjects_typed h _ _ _ _ _ W).
  rewrite Nat.leb_refl. split; [|reflexivity].
  rewrite !andb_true_r. apply forallb_forall. intros e He.
  assert (I : In (fst e) (map fst (indirectObjects D)))
    by (rewrite <- R; now apply in_map).
  apply in_map_iff in I. destruct I as (e0 & E0 & I0).
  rewrite forallb_forall in wf. specialize (wf e0 I0).
  apply Nat.leb_le in wf. apply Nat.leb_le. rewrite <- E0. lia.
Qed.

(** X30. Encrypting twice is not undone: when a document that has a page is
    sealed, the result sealed again, and that opened with the second user
    password,
    every stream of the once-sealed document is in the document
    [decryptPDF] leaves exactly as it was there, still encrypted under the
    first key; yet [decryptPDF] refuses that document with any password as
    'PDF is not encrypted', because the second [encryptPDF] has replaced the
    trailer's reference to the first Encrypt dictionary and [decryptPDF] has
    removed its own. *)
Theorem second_encryption_is_not_undone (h : Host) (D : PDFContext)
  (u1 u2 : jsstring) (o1 o2 : option jsstring) (options1 options2 : EncryptOptions)
  (s : nat) :
  HostLaws h -> capable h = true ->
  context_wf D = true -> filters_typed D = true -> has_pages h D ->
  exists E1 s1 E2 s2 D2,
    encryptPDF h D u1 o1 options1 s = OK (E1, s1)
    /\ encryptPDF h E1 u2 o2 options2 s1 = OK (E2, s2)
    /\ decryptPDF h E2 u2 = (D2, OK tt)
    /\ (forall i ref d c,
           nth_error (indirectObjects E1) i = Some (ref, PDFRawStream d c) ->
           nth_error (indirectObjects D2) i = Some (ref, PDFRawStream d c))
    /\ (forall password, decryptPDF h D2 password = (D2, Throw NotEncrypted)).
Proof.
  intros laws cap wf typed pages.
  destruct (sealed_reread h D u1 o1 options1 s laws cap wf typed pages)
    as (objs1 & s1 & H1 & _ & pages1 & _).
  assert (U1 : forall i ref d c,
             nth_error (indirectObjects (updateDicts (sealed h D u1 o1 options1 s objs1))) i
             = Some (ref, PDFRawStream d c) ->
             updateDict (PDFRawStream d c) = PDFRawStream d c).
  { intros i ref d c N. unfold updateDicts in N. cbn [indirectObjects] in N.
    rewrite nth_error_map in N.
    destruct (nth_error _ i) as [[r x]|]; [|discriminate].
    cbn [option_map fst snd] in N. injection N as _ N.
    rewrite <- N. apply updateDict_idem. }
  set (E1 := updateDicts (sealed h D u1 o1 options1 s objs1)) in *.
  destruct (sealed_wf_typed h D u1 o1 options1 s s1 E1 laws wf H1) as [wf1 typed1].
  destruct (sealed_reread h E1 u2 o2 options2 s1 laws cap wf1 typed1 pages1)
    as (objs2 & s2 & H2 & _ & _ & Dec).
  eexists E1, s1, _, s2, _.
  refine (conj H1 (conj H2 (conj Dec (conj _ _)))).
  - intros i ref d c N. cbn [indirectObjects].
    rewrite nth_error_app1
      by (rewrite length_map; apply nth_error_Some; now rewrite N).
    rewrite (map_nth_error _ _ _ N). cbn [fst snd].
    change (reread_indirect h (PDFRawStream d c)) with (PDFRawStream d c).
    now rewrite (U1 i ref d c N).
  - intros password. reflexivity.
Qed.

Lemma second_encryption_is_not_undone_witness :
  exists E1 s1 E2 s2 D2,
    encryptPDF web_host one_leaf (js "user123") None no_options 0 = OK (E1, s1)
    /\ encryptPDF web_host E1 (js "owner456") None no_options s1 = OK (E2, s2)
    /\ decryptPDF web_host E2 (js "owner456") = (D2, OK tt)
    /\ (forall i ref d c,
           nth_error (indirectObjects E1) i = Some (ref, PDFRawStream d c) ->
           nth_error (indirectObjects D2) i = Some (ref, PDFRawStream d c))
    /\ (forall password,
           decryptPDF web_host D2 password = (D2, Throw NotEncrypted)).
Proof.
  apply (second_encryption_is_not_undone web_host one_leaf (js "user123")
           (js "owner456") None None no_options no_options 0).
  - exact web_host_laws.
  - reflexivity.
  - reflexivity.
  - reflexivity.
  - exists 0. reflexivity.
Defined.
